(** * Ranked queue, Elo ratings and leaderboard cache of Derp263/www

    A shallow embedding of
      - the rating engine (calculateExpectedScore, calculateNewRating,
        getOrCreatePlayerRating, updateRatings),
      - QueueService (joinQueue, leaveQueue, matchPlayers, completeMatch,
        getNextGameNumber),
      - LeaderboardService (refreshLeaderboard, getLeaderboard, getUserRank),
    followed by the properties of the specification that concern them.

    Number model.  A JavaScript [number] that holds a rating, a score or a
    k-factor is a real number [R], and the rating engine is modelled in
    exact arithmetic, without NaN and infinity.  The properties of ratings
    are stated with the margins under which they hold with the rounding of
    doubles too, and for whole-number ratings of a size that a double (up to
    2^53) or a [real] column (up to 2^24) holds exactly.  What rounding does
    to the expected score is treated apart: [Rounded] bounds the error of
    the sum of two expected scores, [Double] computes an example in
    binary64.  Counters and ids that the schema declares [integer] are [Z].
    Timestamps are [Z] (milliseconds); one call reads the clock once.

    Store.  Tables are lists of rows in the order the store holds them.  Of
    the foreign keys, the one of [matches.winner_id] is modelled, the only
    one whose column takes a value that the caller is free to choose; the
    player ids the service is called with are ids of users (the router
    passes the id of the session's user). *)

From Stdlib Require Import Reals Lra Lia ZArith Ascii Floats.
From stdpp Require Import base option list gmap strings sorting.

Local Open Scope R_scope.

(** ** Rating engine *)

Module Elo.

(** Constants for Elo calculation. *)
Definition K_FACTOR : R := 32.
Definition PROVISIONAL_K_FACTOR : R := 64.
Definition PROVISIONAL_THRESHOLD : Z := 10.

(** [Math.pow] for a positive base: [x^y = exp (y * ln x)]. *)
Definition Math_pow (x y : R) : R := Rpower x y.

(** [Math.round]: the nearest integer, a tie going up. *)
Definition Math_round (x : R) : R := IZR (Zfloor (x + 1 / 2)).

Definition Math_max (x y : R) : R := Rmax x y.

Definition calculateExpectedScore (playerRating opponentRating : R) : R :=
  1 / (1 + Math_pow 10 ((opponentRating - playerRating) / 400)).

Definition kFactor (gamesPlayed : Z) : R :=
  if (gamesPlayed <? PROVISIONAL_THRESHOLD)%Z
  then PROVISIONAL_K_FACTOR else K_FACTOR.

Definition calculateNewRating
    (currentRating expectedScore actualScore : R) (gamesPlayed : Z) : R :=
  Math_round (currentRating + kFactor gamesPlayed * (actualScore - expectedScore)).

(** A row of [player_ratings]; the primary key is (playerId, gameMode). *)
Module Rating.
Record t : Type := mk {
  playerId : string;
  gameMode : string;
  rating : R;
  gamesPlayed : Z;
  wins : Z;
  losses : Z;
  draws : Z;
  lastPlayed : option Z;
  peakRating : R;
}.
End Rating.

(** The table, keyed by its primary key. *)
Abbreviation ratings := (gmap (string * string) Rating.t).

#[global] Instance R_eq_dec : EqDecision R := Req_dec_T.

Definition getPlayerRating (playerId gameMode : string) (tbl : ratings)
    : option Rating.t :=
  tbl !! (playerId, gameMode).

(** Returns the row read or created, and the table after the insert. *)
Definition getOrCreatePlayerRating
    (playerId gameMode : string) (now : Z) (tbl : ratings)
    : Rating.t * ratings :=
  match getPlayerRating playerId gameMode tbl with
  | Some rating => (rating, tbl)
  | None =>
      let newRating :=
        {| Rating.playerId := playerId;
           Rating.gameMode := gameMode;
           Rating.rating := 1000;
           Rating.gamesPlayed := 0;
           Rating.wins := 0;
           Rating.losses := 0;
           Rating.draws := 0;
           Rating.lastPlayed := Some now;
           Rating.peakRating := 1000 |} in
      (newRating, <[(playerId, gameMode) := newRating]> tbl)
  end.

(** [db.update(player_ratings).set({...}).where(playerId, gameMode)]: every
    column but the key is set. *)
Definition set_rating (rating : R) (gamesPlayed wins losses draws : Z)
    (lastPlayed : Z) (peakRating : R) (row : Rating.t) : Rating.t :=
  {| Rating.playerId := Rating.playerId row;
     Rating.gameMode := Rating.gameMode row;
     Rating.rating := rating;
     Rating.gamesPlayed := gamesPlayed;
     Rating.wins := wins;
     Rating.losses := losses;
     Rating.draws := draws;
     Rating.lastPlayed := Some lastPlayed;
     Rating.peakRating := peakRating |}.

(** The row [updateRatings] writes for a player whose row read was
    [playerRating], whose new rating is [newRating], and for whom a [result]
    equal to [won] is a win and one equal to [lost] a loss. *)
Definition updated_row (playerRating : Rating.t) (newRating result won lost : R)
    (now : Z) : Rating.t -> Rating.t :=
  set_rating newRating
    (Rating.gamesPlayed playerRating + 1)
    (if decide (result = won) then Rating.wins playerRating + 1
     else Rating.wins playerRating)
    (if decide (result = lost) then Rating.losses playerRating + 1
     else Rating.losses playerRating)
    (if decide (result = 1 / 2) then Rating.draws playerRating + 1
     else Rating.draws playerRating)
    now
    (Math_max (Rating.peakRating playerRating) newRating).

(** [updateRatings] of the elo service and of QueueService (the two bodies
    are the same).  [result] is 1 if player 1 won, 0.5 for a draw, 0 if
    player 2 won. *)
Definition updateRatings
    (player1Id player2Id gameMode : string) (result : R) (now : Z)
    (tbl : ratings) : (R * R) * ratings :=
  let '(player1Rating, tbl) := getOrCreatePlayerRating player1Id gameMode now tbl in
  let '(player2Rating, tbl) := getOrCreatePlayerRating player2Id gameMode now tbl in
  let player1Expected :=
    calculateExpectedScore (Rating.rating player1Rating) (Rating.rating player2Rating) in
  let player2Expected :=
    calculateExpectedScore (Rating.rating player2Rating) (Rating.rating player1Rating) in
  let player1NewRating :=
    calculateNewRating (Rating.rating player1Rating) player1Expected result
      (Rating.gamesPlayed player1Rating) in
  let player2NewRating :=
    calculateNewRating (Rating.rating player2Rating) player2Expected (1 - result)
      (Rating.gamesPlayed player2Rating) in
  let tbl :=
    alter (updated_row player1Rating player1NewRating result 1 0 now)
      (player1Id, gameMode) tbl in
  let tbl :=
    alter (updated_row player2Rating player2NewRating result 0 1 now)
      (player2Id, gameMode) tbl in
  ((player1NewRating, player2NewRating), tbl).

(** The row a first participation creates. *)
Definition default_rating (playerId gameMode : string) (now : Z) : Rating.t :=
  (getOrCreatePlayerRating playerId gameMode now ∅).1.

(** The rows [updateRatings] reads for the two players and the ratings it
    computes for them. *)
Definition read1 (player1Id gameMode : string) (now : Z) (tbl : ratings) : Rating.t :=
  (getOrCreatePlayerRating player1Id gameMode now tbl).1.

Definition read2 (player1Id player2Id gameMode : string) (now : Z) (tbl : ratings)
    : Rating.t :=
  (getOrCreatePlayerRating player2Id gameMode now
     (getOrCreatePlayerRating player1Id gameMode now tbl).2).1.

Definition new1 (player1Id player2Id gameMode : string) (result : R) (now : Z)
    (tbl : ratings) : R :=
  let r1 := read1 player1Id gameMode now tbl in
  let r2 := read2 player1Id player2Id gameMode now tbl in
  calculateNewRating (Rating.rating r1)
    (calculateExpectedScore (Rating.rating r1) (Rating.rating r2))
    result (Rating.gamesPlayed r1).

Definition new2 (player1Id player2Id gameMode : string) (result : R) (now : Z)
    (tbl : ratings) : R :=
  let r1 := read1 player1Id gameMode now tbl in
  let r2 := read2 player1Id player2Id gameMode now tbl in
  calculateNewRating (Rating.rating r2)
    (calculateExpectedScore (Rating.rating r2) (Rating.rating r1))
    (1 - result) (Rating.gamesPlayed r2).

(** The invariant of a rating row, and of the table. *)
Definition rating_inv (r : Rating.t) : Prop :=
  Rating.rating r <= Rating.peakRating r /\
  Rating.gamesPlayed r = (Rating.wins r + Rating.losses r + Rating.draws r)%Z.

Definition ratings_inv (tbl : ratings) : Prop :=
  map_Forall (fun _ r => rating_inv r) tbl.

Definition peak_inv (tbl : ratings) : Prop :=
  map_Forall (fun _ r => Rating.rating r <= Rating.peakRating r) tbl.

End Elo.

(** ** The expected score on doubles *)

Module Double.

(** [calculateExpectedScore] with the arithmetic of binary64.  ECMAScript
    leaves the value of [Math.pow] to the implementation (an approximation
    of the power), so it is a parameter. *)
Definition calculateExpectedScore (Math_pow : float -> float -> float)
    (playerRating opponentRating : float) : float :=
  (1 / (1 + Math_pow 10 ((opponentRating - playerRating) / 400)))%float.

(** The double nearest to 10^-3, and the doubles next to it. *)
Definition thousandth : float := (1 / 1000)%float.
Definition thousandth_down : float := next_down thousandth.
Definition thousandth_up : float := next_up thousandth.

(** A [Math.pow] that is right where the example needs it: 10^3 is 1000
    and 10^-3 is the nearest double. *)
Definition pow_at_3 (x y : float) : float :=
  if PrimFloat.eqb y 3 then 1000%float
  else if PrimFloat.eqb y (-3) then thousandth
  else nan.

End Double.

(** ** The expected score with rounding *)

Module Rounded.

(** The operations [calculateExpectedScore] performs, as doubles perform
    them: each a function that approximates the exact operation.
    [Math_pow] is among them, since ECMAScript leaves its value to the
    implementation. *)
Record Arith : Type := mkArith {
  sub : R -> R -> R;
  div : R -> R -> R;
  add : R -> R -> R;
  Math_pow : R -> R -> R;
}.

Definition calculateExpectedScore (A : Arith)
    (playerRating opponentRating : R) : R :=
  div A 1
    (add A 1 (Math_pow A 10 (div A (sub A opponentRating playerRating) 400))).




(** Exact arithmetic, and an arithmetic in which every sum and quotient is
    2^-11 too large and every power 2^-11 too small. *)
Definition exact : Arith := mkArith Rminus Rdiv Rplus Rpower.


End Rounded.

(** ** The query fragments the services use *)

Module Store.
Section Query.
Context {A : Type}.

(** [.where(p)]: the rows that satisfy [p], in the order the store holds
    them. *)
Definition where_ (P : A -> Prop) `{!forall x, Decision (P x)}
    (rows : list A) : list A :=
  filter P rows.

Fixpoint insert_by (leb : A -> A -> bool) (x : A) (rows : list A) : list A :=
  match rows with
  | [] => [x]
  | y :: rows' =>
      if leb x y then x :: y :: rows' else y :: insert_by leb x rows'
  end.

(** [.orderBy(...)].  SQL leaves the order of rows with equal keys to the
    store: here they stay in the order the store holds them (the order of
    the list), which is not tied to their ids. *)
Definition orderBy (leb : A -> A -> bool) (rows : list A) : list A :=
  foldr (insert_by leb) [] rows.

Definition limit (n : nat) (rows : list A) : list A := take n rows.

(** [.update(t).set(f).where(p).returning()]: the table after the update,
    and the rows returned. *)
Definition update_where (P : A -> Prop) `{!forall x, Decision (P x)}
    (f : A -> A) (rows : list A) : list A * list A :=
  ((fun x => if decide (P x) then f x else x) <$> rows, f <$> filter P rows).
End Query.

Definition asc {A} (key : A -> Z) (x y : A) : bool := (key x <=? key y)%Z.
Definition desc {A} (key : A -> Z) (x y : A) : bool := (key y <=? key x)%Z.
End Store.

(** ** QueueService *)

Module Queue.
Import Elo Store.

Inductive QueueStatus := waiting | matched | cancelled.
Inductive MatchStatus := in_progress | completed | match_cancelled.

#[global] Instance QueueStatus_eq_dec : EqDecision QueueStatus.
Proof. solve_decision. Defined.
#[global] Instance MatchStatus_eq_dec : EqDecision MatchStatus.
Proof. solve_decision. Defined.

(** A row of [queue_entries]. *)
Module Entry.
Record t : Type := mk {
  id : Z;
  playerId : string;
  gameMode : string;
  joinedAt : Z;
  status : QueueStatus;
  matchId : option Z;
}.
End Entry.

(** A row of [matches]. *)
Module Match.
Record t : Type := mk {
  id : Z;
  gameMode : string;
  player1Id : string;
  player2Id : string;
  startedAt : Z;
  completedAt : option Z;
  winnerId : option string;
  status : MatchStatus;
  gameNumber : Z;
}.
End Match.

(** [PlayerState] of the player-state router. *)
Inductive PlayerState :=
  | idle
  | queuing (queueStartTime : Z)
  | in_game (opponentId : string) (startTime : Z).

(** The durable store (with the identity sequences of the two tables), the
    player states kept in redis and the events emitted so far.  A table is
    the list of its rows in the order in which the store returns them when no
    order is asked for.  Player ids are ids of users: the foreign keys to
    the user table are not modelled, and writes to the store succeed. *)
Record World : Type := mkWorld {
  queue_entries : list Entry.t;
  queue_entries_seq : Z;
  matches : list Match.t;
  matches_seq : Z;
  player_ratings : ratings;
  redis : gmap string PlayerState;
  emitted : list (string * PlayerState);
}.

Definition PLAYER_STATE_KEY (userId : string) : string :=
  "player:" +:+ userId +:+ ":state".

(** [redis.set(PLAYER_STATE_KEY(p), ...)] then
    [globalEmitter.emit(`state-change:${p}`, ...)]. *)
Definition redis_set (playerId : string) (st : PlayerState) (w : World) : World :=
  mkWorld (queue_entries w) (queue_entries_seq w) (matches w) (matches_seq w)
    (player_ratings w) (<[PLAYER_STATE_KEY playerId := st]> (redis w)) (emitted w).

Definition emit (playerId : string) (st : PlayerState) (w : World) : World :=
  mkWorld (queue_entries w) (queue_entries_seq w) (matches w) (matches_seq w)
    (player_ratings w) (redis w) (emitted w ++ [("state-change:" +:+ playerId, st)]).

Definition set_queue_entries (rows : list Entry.t) (w : World) : World :=
  mkWorld rows (queue_entries_seq w) (matches w) (matches_seq w)
    (player_ratings w) (redis w) (emitted w).

Definition set_matches (rows : list Match.t) (w : World) : World :=
  mkWorld (queue_entries w) (queue_entries_seq w) rows (matches_seq w)
    (player_ratings w) (redis w) (emitted w).

Definition set_player_ratings (tbl : ratings) (w : World) : World :=
  mkWorld (queue_entries w) (queue_entries_seq w) (matches w) (matches_seq w)
    tbl (redis w) (emitted w).

(** [db.insert(queue_entries).values({...}).returning()]: the id comes from
    the identity sequence, [matchId] is null. *)
Definition insert_queue_entry (playerId gameMode : string) (joinedAt : Z)
    (w : World) : Entry.t * World :=
  let entry := Entry.mk (queue_entries_seq w) playerId gameMode joinedAt waiting None in
  (entry,
   mkWorld (queue_entries w ++ [entry]) (queue_entries_seq w + 1)
     (matches w) (matches_seq w) (player_ratings w) (redis w) (emitted w)).

Definition insert_match (gameMode player1Id player2Id : string)
    (startedAt gameNumber : Z) (w : World) : Match.t * World :=
  let m := Match.mk (matches_seq w) gameMode player1Id player2Id startedAt
             None None in_progress gameNumber in
  (m,
   mkWorld (queue_entries w) (queue_entries_seq w)
     (matches w ++ [m]) (matches_seq w + 1) (player_ratings w) (redis w) (emitted w)).

(** The next game number. *)
Definition getNextGameNumber (w : World) : Z :=
  let lastMatch := limit 1 (orderBy (desc Match.gameNumber) (matches w)) in
  match lastMatch with
  | m :: _ => (Match.gameNumber m + 1)%Z
  | [] => 1%Z
  end.

Definition set_matched (matchId : Z) (e : Entry.t) : Entry.t :=
  Entry.mk (Entry.id e) (Entry.playerId e) (Entry.gameMode e) (Entry.joinedAt e)
    matched (Some matchId).

Definition set_cancelled (e : Entry.t) : Entry.t :=
  Entry.mk (Entry.id e) (Entry.playerId e) (Entry.gameMode e) (Entry.joinedAt e)
    cancelled (Entry.matchId e).

Definition set_completed (completedAt : Z) (winnerId : option string)
    (m : Match.t) : Match.t :=
  Match.mk (Match.id m) (Match.gameMode m) (Match.player1Id m) (Match.player2Id m)
    (Match.startedAt m) (Some completedAt) winnerId completed (Match.gameNumber m).

(** The waiting entries of a game mode, the longest-waiting first. *)
Definition queuedPlayers (gameMode : string) (w : World) : list Entry.t :=
  limit 2
    (orderBy (asc Entry.joinedAt)
       (where_ (fun e => Entry.gameMode e = gameMode /\ Entry.status e = waiting)
          (queue_entries w))).

(** Try to match players in the queue: the match if one was created, [None]
    (null) otherwise.  [now] is the clock of the call. *)
Definition matchPlayers (gameMode : string) (now : Z) (w : World)
    : option Match.t * World :=
  match queuedPlayers gameMode w with
  | player1 :: player2 :: _ =>
      let '(m, w) :=
        insert_match gameMode (Entry.playerId player1) (Entry.playerId player2)
          now (getNextGameNumber w) w in
      let w :=
        set_queue_entries
          (update_where
             (fun e => Entry.id e = Entry.id player1 \/ Entry.id e = Entry.id player2)
             (set_matched (Match.id m)) (queue_entries w)).1 w in
      let player1State := in_game (Entry.playerId player2) now in
      let player2State := in_game (Entry.playerId player1) now in
      let w := redis_set (Entry.playerId player1) player1State w in
      let w := redis_set (Entry.playerId player2) player2State w in
      let w := emit (Entry.playerId player1) player1State w in
      let w := emit (Entry.playerId player2) player2State w in
      (Some m, w)
  | _ => (None, w)
  end.

(** Add a player to the queue; returns the queue entry. *)
Definition joinQueue (playerId gameMode : string) (now : Z) (w : World)
    : Entry.t * World :=
  let existingEntry :=
    limit 1
      (where_ (fun e => Entry.playerId e = playerId /\ Entry.status e = waiting)
         (queue_entries w)) in
  match existingEntry with
  | e :: _ => (e, w)
  | [] =>
      let '(entry, w) := insert_queue_entry playerId gameMode now w in
      let playerState := queuing now in
      let w := redis_set playerId playerState w in
      let w := emit playerId playerState w in
      let '(_, w) := matchPlayers gameMode now w in
      (entry, w)
  end.

(** Remove a player from the queue: true if the player was removed. *)
Definition leaveQueue (playerId : string) (w : World) : bool * World :=
  let '(rows, returned) :=
    update_where (fun e => Entry.playerId e = playerId /\ Entry.status e = waiting)
      set_cancelled (queue_entries w) in
  let w := set_queue_entries rows w in
  match returned with
  | [] => (false, w)
  | _ :: _ =>
      let w := redis_set playerId idle w in
      let w := emit playerId idle w in
      (true, w)
  end.

(** What a call that can throw gives: the value returned or the error
    thrown, and the world it leaves. *)
Inductive Error :=
  | Match_not_found (matchId : Z)
  | Foreign_key_violation.

Inductive Outcome (A : Type) :=
  | Returned (a : A) (w : World)
  | Thrown (e : Error) (w : World).
Arguments Returned {A} a w.
Arguments Thrown {A} e w.

(** The numeric result of a match relative to player 1. *)
Definition match_result (winnerId : option string) (m : Match.t) : R :=
  if decide (winnerId = Some (Match.player1Id m)) then 1
  else if decide (winnerId = Some (Match.player2Id m)) then 0
  else 1 / 2.

(** [winner_id] references [user.id]: a match row takes a winner that is
    null or the id of a row of the user table, [users] being the ids of
    that table. *)
Definition winner_allowed (users : gset string) (winnerId : option string)
    : bool :=
  match winnerId with
  | Some winner => bool_decide (winner ∈ users)
  | None => true
  end.

(** Complete a match; [winnerId] is the winner's id, or [None] (null) for a
    draw.  Returns the updated match.  The update of a row with a winner
    that is no user violates the foreign key: the store throws and the
    statement changes nothing.  An update that finds no row checks no
    key. *)
Definition completeMatch (users : gset string) (matchId : Z)
    (winnerId : option string) (now : Z) (w : World) : Outcome Match.t :=
  let '(rows, returned) :=
    update_where (fun m => Match.id m = matchId)
      (set_completed now winnerId) (matches w) in
  match returned with
  | [] => Thrown (Match_not_found matchId) (set_matches rows w)
  | m :: _ =>
      if winner_allowed users winnerId then
        let w := set_matches rows w in
        let w := redis_set (Match.player1Id m) idle w in
        let w := redis_set (Match.player2Id m) idle w in
        let w := emit (Match.player1Id m) idle w in
        let w := emit (Match.player2Id m) idle w in
        let result := match_result winnerId m in
        let '(_, tbl) :=
          updateRatings (Match.player1Id m) (Match.player2Id m) (Match.gameMode m)
            result now (player_ratings w) in
        Returned m (set_player_ratings tbl w)
      else Thrown Foreign_key_violation w
  end.

(** The row [completeMatch] gets back from its update: the first row of
    [matches] with the id. *)
Definition lookup_match (matchId : Z) (w : World) : option Match.t :=
  head (where_ (fun m => Match.id m = matchId) (matches w)).

(** The waiting entries of a game mode, in the order of the store. *)
Definition waiting_in (gameMode : string) (w : World) : list Entry.t :=
  where_ (fun e => Entry.gameMode e = gameMode /\ Entry.status e = waiting)
    (queue_entries w).

(** The waiting entries of a player, in the order of the store. *)
Definition waiting_of (playerId : string) (w : World) : list Entry.t :=
  where_ (fun e => Entry.playerId e = playerId /\ Entry.status e = waiting)
    (queue_entries w).

(** The primary key of [queue_entries]. *)
Definition queue_ids_unique (w : World) : Prop :=
  NoDup (Entry.id <$> queue_entries w).

#[global] Instance Entry_eq_dec : EqDecision Entry.t.
Proof. solve_decision. Defined.

(** The match [matchPlayers] creates for two entries, and the queue it
    leaves. *)
Definition new_match (gameMode : string) (now : Z) (w : World)
    (player1 player2 : Entry.t) : Match.t :=
  Match.mk (matches_seq w) gameMode (Entry.playerId player1)
    (Entry.playerId player2) now None None in_progress (getNextGameNumber w).

Definition mark_matched (matchId : Z) (player1 player2 : Entry.t)
    (rows : list Entry.t) : list Entry.t :=
  (fun e => if decide (e = player1 \/ e = player2)
            then set_matched matchId e else e) <$> rows.

(** Two worlds for the examples: a match in progress between "a" and "b",
    nobody rated; and three entries that joined at the same time, held by
    the store in the order 3, 1, 2. *)
Definition match_ab : Match.t :=
  Match.mk 1 "standard" "a" "b" 0 None None in_progress 1.

Definition world_one_match : World :=
  mkWorld [] 1 [match_ab] 2 ∅ ∅ [].

(** The ids of a user table of three users. *)
Definition user_ids : gset string := {[ "a"; "b"; "c" ]}.

Definition entry_c3 : Entry.t := Entry.mk 3 "c" "standard" 5 waiting None.
Definition entry_a1 : Entry.t := Entry.mk 1 "a" "standard" 5 waiting None.
Definition entry_b2 : Entry.t := Entry.mk 2 "b" "standard" 5 waiting None.

Definition world_tie : World :=
  mkWorld [entry_c3; entry_a1; entry_b2] 4 [] 1 ∅ ∅ [].

(** Three entries that joined one after the other, one entry alone, and an
    empty queue. *)
Definition entry_t1 : Entry.t := Entry.mk 1 "a" "standard" 10 waiting None.
Definition entry_t2 : Entry.t := Entry.mk 2 "b" "standard" 20 waiting None.
Definition entry_t3 : Entry.t := Entry.mk 3 "c" "standard" 30 waiting None.

Definition world_three : World :=
  mkWorld [entry_t3; entry_t1; entry_t2] 4 [match_ab] 2 ∅ ∅ [].

Definition world_b_waiting : World :=
  mkWorld [Entry.mk 1 "b" "standard" 0 waiting None] 2 [] 1 ∅ ∅ [].

Definition world_nobody : World := mkWorld [] 1 [] 1 ∅ ∅ [].

End Queue.

(** ** LeaderboardService *)

Module Leaderboard.

(** [LeaderboardEntry]. *)
Module Entry.
Record t : Type := mk {
  id : string;
  name : string;
  mmr : R;
  wins : Z;
  losses : Z;
  streak : Z;
  totalgames : Z;
  peak_mmr : R;
  peak_streak : Z;
  rank : Z;
  winrate : R;
}.
End Entry.

Record LeaderboardResponse : Type := mkResponse {
  data : list Entry.t;
  isStale : bool;
}.

(** The [data] of a user rank: an entry, or what the spread of an empty
    hash gives, [{mmr: NaN, streak: undefined}] with no other field. *)
Inductive RankData : Type :=
  | rank_entry (entry : Entry.t)
  | rank_no_fields.

Record UserRank : Type := mkUserRank {
  user_data : RankData;
  user_isStale : bool;
}.

(** [UserRankResponse]: [None] is null. *)
Definition UserRankResponse : Type := option UserRank.

(** A value of the [metadata] table written by this service, before
    [JSON.stringify]: [{data, timestamp}] with [queue_id] for a snapshot. *)
Record MetaValue : Type := mkMeta {
  meta_data : list Entry.t;
  meta_timestamp : string;
  meta_queue_id : option string;
}.

(** A row of [leaderboardSnapshots]. *)
Record Snapshot : Type := mkSnapshot {
  channelId : string;
  timestamp : string;
  snapshot_data : list Entry.t;
}.

(** The redis keys of the service and the two tables it writes.  A raw
    leaderboard is kept with its time to live in seconds; a user hash is the
    entry with the queue id.  Values are kept as they are before
    [JSON.stringify] and after [JSON.parse]. *)
Record World : Type := mkWorld {
  raw : gmap string (Z * list Entry.t);
  zset : gmap string (gmap string R);
  user : gmap string (Entry.t * string);
  leaderboardSnapshots : list Snapshot;
  metadata : gmap string MetaValue;
}.

(** The calls that leave the process.  Each can throw. *)
Inductive Call :=
  | redis_get
  | redis_hgetall
  | pipeline_exec
  | neatqueue_get_leaderboard
  | insert_leaderboardSnapshots
  | insert_metadata_snapshot
  | upsert_metadata_backup
  | select_backup_in_refresh
  | select_backup.

(** What a call of the service meets: which of its outside calls throw, what
    the ranking source answers for a queue, and the clock
    ([new Date().toISOString()]). *)
Record Env : Type := mkEnv {
  throws : Call -> bool;
  neatqueue : string -> list Entry.t;
  clock : string;
}.

(** Computations that read and write the world and can throw. *)
Inductive Result (A : Type) := Ok (a : A) | Err.
Arguments Ok {A} a.
Arguments Err {A}.

Definition M (A : Type) : Type := World -> Result A * World.

Definition ret {A} (a : A) : M A := fun w => (Ok a, w).
Definition throw {A} : M A := fun w => (Err, w).
Definition bind {A B} (m : M A) (k : A -> M B) : M B :=
  fun w => match m w with
           | (Ok a, w') => k a w'
           | (Err, w') => (Err, w')
           end.
Definition try_catch {A} (body handler : M A) : M A :=
  fun w => match body w with
           | (Ok a, w') => (Ok a, w')
           | (Err, w') => handler w'
           end.
Definition gets {A} (f : World -> A) : M A := fun w => (Ok (f w), w).
Definition modify (f : World -> World) : M unit := fun w => (Ok tt, f w).

(** An outside call throws, without effect, when the environment says so. *)
Definition call {A} (env : Env) (c : Call) (body : M A) : M A :=
  if throws env c then throw else body.

Notation "x <- m ;; k" := (bind m (fun x => k))
  (at level 100, m at next level, right associativity).
Notation "m ;;; k" := (bind m (fun _ => k))
  (at level 100, right associativity).

Definition getZSetKey (queue_id : string) : string := "zset:leaderboard:" +:+ queue_id.
Definition getRawKey (queue_id : string) : string := "raw:leaderboard:" +:+ queue_id.
Definition getUserKey (user_id queue_id : string) : string :=
  "user:" +:+ user_id +:+ ":" +:+ queue_id.
Definition getBackupKey (queue_id : string) : string := "backup_leaderboard_" +:+ queue_id.
Definition getSnapshotKey (queue_id timestamp : string) : string :=
  "snapshot_leaderboard_" +:+ queue_id +:+ "_" +:+ timestamp.

(** [timestamp.replace(/[:.]/g, '_')]. *)
Fixpoint replace_colon_dot (s : string) : string :=
  match s with
  | EmptyString => EmptyString
  | String c s' =>
      String (if (Ascii.eqb c ":"%char || Ascii.eqb c "."%char)%bool then "_"%char else c)
        (replace_colon_dot s')
  end.

Definition set_raw m (w : World) : World :=
  mkWorld m (zset w) (user w) (leaderboardSnapshots w) (metadata w).
Definition set_zset m (w : World) : World :=
  mkWorld (raw w) m (user w) (leaderboardSnapshots w) (metadata w).
Definition set_user m (w : World) : World :=
  mkWorld (raw w) (zset w) m (leaderboardSnapshots w) (metadata w).
Definition set_leaderboardSnapshots l (w : World) : World :=
  mkWorld (raw w) (zset w) (user w) l (metadata w).
Definition set_metadata m (w : World) : World :=
  mkWorld (raw w) (zset w) (user w) (leaderboardSnapshots w) m.

(** What redis does to the raw leaderboards in [seconds] seconds: the time
    to live of each is down by that much, and one whose time has run out is
    gone, so that a read of its key misses.  (The service sets no expiry on
    a user hash.) *)
Definition elapse (seconds : Z) (w : World) : World :=
  set_raw
    (omap (fun cached : Z * list Entry.t =>
             if decide (seconds < cached.1)%Z
             then Some ((cached.1 - seconds)%Z, cached.2) else None)
       (raw w)) w.

(** [pipeline.zadd(zsetKey, entry.mmr, entry.id)] and
    [pipeline.hset(getUserKey(entry.id, queue_id), {...entry, queue_id})]. *)
Definition pipeline_entry (queue_id : string) (w : World) (entry : Entry.t) : World :=
  let zsetKey := getZSetKey queue_id in
  let w :=
    set_zset
      (<[zsetKey := <[Entry.id entry := Entry.mmr entry]>
                      (default ∅ (zset w !! zsetKey))]> (zset w)) w in
  set_user (<[getUserKey (Entry.id entry) queue_id := (entry, queue_id)]> (user w)) w.

(** The commands queued on the pipeline, run by [pipeline.exec()]: setex of
    the raw leaderboard for 180 seconds, del of the sorted set, then zadd and
    hset for every entry (the expiry of the sorted set is not kept). *)
Definition pipeline (queue_id : string) (fresh : list Entry.t) (w : World) : World :=
  let zsetKey := getZSetKey queue_id in
  let rawKey := getRawKey queue_id in
  let w := set_raw (<[rawKey := (180%Z, fresh)]> (raw w)) w in
  let w := set_zset (delete zsetKey (zset w)) w in
  foldl (pipeline_entry queue_id) w fresh.

(** [db.insert(metadata).values({key, value})]: a key that is there already
    violates the primary key and the insert throws. *)
Definition insert_metadata (key : string) (value : MetaValue) : M unit :=
  fun w => match metadata w !! key with
           | Some _ => (Err, w)
           | None => (Ok tt, set_metadata (<[key := value]> (metadata w)) w)
           end.

(** The fallback of the three methods: the latest backup record. *)
Definition backup_response (backup : option MetaValue) : LeaderboardResponse :=
  match backup with
  | Some parsedBackup => mkResponse (meta_data parsedBackup) true
  | None => mkResponse [] true
  end.

Definition refreshLeaderboard (env : Env) (queue_id : string)
    : M LeaderboardResponse :=
  try_catch
    (fresh <- call env neatqueue_get_leaderboard (ret (neatqueue env queue_id)) ;;
     let backupKey := getBackupKey queue_id in
     let timestamp := clock env in
     let snapshotKey := getSnapshotKey queue_id (replace_colon_dot timestamp) in
     call env pipeline_exec (modify (pipeline queue_id fresh)) ;;;
     call env insert_leaderboardSnapshots
       (modify (fun w =>
          set_leaderboardSnapshots
            (leaderboardSnapshots w ++ [mkSnapshot queue_id timestamp fresh]) w)) ;;;
     call env insert_metadata_snapshot
       (insert_metadata snapshotKey (mkMeta fresh timestamp (Some queue_id))) ;;;
     call env upsert_metadata_backup
       (modify (fun w =>
          set_metadata (<[backupKey := mkMeta fresh timestamp None]> (metadata w)) w)) ;;;
     ret (mkResponse fresh false))
    (backup <- call env select_backup_in_refresh
                 (gets (fun w => metadata w !! getBackupKey queue_id)) ;;
     ret (backup_response backup)).

Definition getLeaderboard (env : Env) (queue_id : string)
    : M LeaderboardResponse :=
  try_catch
    (cached <- call env redis_get (gets (fun w => raw w !! getRawKey queue_id)) ;;
     match cached with
     | Some (_, entries) => ret (mkResponse entries false)
     | None => refreshLeaderboard env queue_id
     end)
    (backup <- call env select_backup
                 (gets (fun w => metadata w !! getBackupKey queue_id)) ;;
     ret (backup_response backup)).

(** [list.find(entry => entry.id === user_id)]. *)
Definition find_user (user_id : string) (entries : list Entry.t) : option Entry.t :=
  head (filter (fun entry => Entry.id entry = user_id) entries).

(** The reply of [hgetall] is an object: the fields of the hash, and the
    empty object [{}] for a key that is not there ([None] here), which is
    why the earlier version of this service tests
    [Object.keys(userData).length > 0].  An object is truthy, the empty one
    too. *)
Definition HashReply : Type := option (Entry.t * string).

Definition truthy (userData : HashReply) : bool := true.

(** [{...userData, mmr: Number(userData.mmr), streak: userData.streak}]. *)
Definition from_hash (userData : HashReply) : RankData :=
  match userData with
  | Some (entry, _) => rank_entry entry
  | None => rank_no_fields
  end.

Definition getUserRank (env : Env) (queue_id user_id : string)
    : M UserRankResponse :=
  try_catch
    (userData <- call env redis_hgetall
                   (gets (fun w => user w !! getUserKey user_id queue_id)) ;;
     if truthy userData then ret (Some (mkUserRank (from_hash userData) false))
     else
       userEntry <-
         try_catch
           (r <- refreshLeaderboard env queue_id ;;
            ret (find_user user_id (data r)))
           (ret None) ;;
       match userEntry with
       | Some entry => ret (Some (mkUserRank (rank_entry entry) false))
       | None =>
           backup <- call env select_backup
                       (gets (fun w => metadata w !! getBackupKey queue_id)) ;;
           match backup with
           | Some parsedBackup =>
               match find_user user_id (meta_data parsedBackup) with
               | Some entry => ret (Some (mkUserRank (rank_entry entry) true))
               | None => ret None
               end
           | None => ret None
           end
       end)
    (ret None).

(** Worlds and environments for the examples: a backup record that lists
    the user "u", a ranking source that lists "u" too, and environments in
    which every outside call throws, only the read of the user hash throws,
    or none throws. *)
Definition entry_u : Entry.t := Entry.mk "u" "U" 1200 3 1 2 4 1250 3 1 (3 / 4).

Definition world_backup : World :=
  mkWorld ∅ ∅ ∅ []
    {[ getBackupKey "q" := mkMeta [entry_u] "2025-01-01T00:00:00.000Z" None ]}.

Definition world_empty : World := mkWorld ∅ ∅ ∅ [] ∅.

(** The hash of the user "u" in queue "q", and nothing else. *)
Definition world_hash : World :=
  mkWorld ∅ ∅ {[ getUserKey "u" "q" := (entry_u, "q") ]} [] ∅.

Definition env_all_down : Env :=
  mkEnv (fun _ => true) (fun _ => [entry_u]) "2025-01-02T00:00:00.000Z".

Definition env_hgetall_down : Env :=
  mkEnv (fun c => match c with redis_hgetall => true | _ => false end)
    (fun _ => [entry_u]) "2025-01-02T00:00:00.000Z".

Definition env_up : Env :=
  mkEnv (fun _ => false) (fun _ => [entry_u]) "2025-01-02T00:00:00.000Z".

Definition env_source_down : Env :=
  mkEnv (fun c => match c with neatqueue_get_leaderboard => true | _ => false end)
    (fun _ => []) "2025-01-02T00:00:00.000Z".

End Leaderboard.

(** ** The read-only queries of QueueService and the invariants of its store *)

Module QueueQueries.
Import Store Queue.

(** A row of [user]. *)
Module User.
Record t : Type := mk {
  id : string;
  name : option string;
  email : string;
  emailVerified : option Z;
  image : option string;
  discord_id : option string;
  role : string;
}.
End User.

(** The table, keyed by its primary key. *)
Abbreviation users := (gmap string User.t).

(** Get all players in the queue: the waiting entries whose player is a
    user, each with the user, by joinedAt ascending. *)
Definition getQueueEntries (tbl : users) (w : World) : list (Entry.t * User.t) :=
  orderBy (asc (fun row => Entry.joinedAt row.1))
    (omap (fun e => u ← tbl !! Entry.playerId e; Some (e, u))
       (where_ (fun e => Entry.status e = waiting) (queue_entries w))).

(** Get all active matches: the matches in progress whose players are
    users, each with the two users, by startedAt descending. *)
Definition getActiveMatches (tbl : users) (w : World)
    : list (Match.t * User.t * User.t) :=
  orderBy (desc (fun row => Match.startedAt row.1.1))
    (omap (fun m =>
             player1 ← tbl !! Match.player1Id m;
             player2 ← tbl !! Match.player2Id m;
             Some (m, player1, player2))
       (where_ (fun m => Match.status m = in_progress) (matches w))).

(** Get all matches for a player, by startedAt descending. *)
Definition getPlayerMatches (playerId : string) (w : World) : list Match.t :=
  orderBy (desc Match.startedAt)
    (where_ (fun m => Match.player1Id m = playerId \/ Match.player2Id m = playerId)
       (matches w)).

(** Get a match by id, with the users of its players and of its winner
    where there are such (left joins); [None] (null) if not found. *)
Definition getMatch (tbl : users) (matchId : Z) (w : World)
    : option (Match.t * option User.t * option User.t * option User.t) :=
  head
    (limit 1
       ((fun m =>
           (m, tbl !! Match.player1Id m, tbl !! Match.player2Id m,
            Match.winnerId m ≫= fun winner => tbl !! winner))
        <$> where_ (fun m => Match.id m = matchId) (matches w))).

(** The primary keys of the two tables, with the identity sequences ahead
    of every id in use. *)
Definition keys_inv (w : World) : Prop :=
  NoDup (Entry.id <$> queue_entries w) /\
  Forall (fun e => (Entry.id e < queue_entries_seq w)%Z) (queue_entries w) /\
  NoDup (Match.id <$> matches w) /\
  Forall (fun m => (Match.id m < matches_seq w)%Z) (matches w).

(** A player has at most one waiting entry. *)
Definition one_waiting (w : World) : Prop :=
  forall playerId, (length (waiting_of playerId w) <= 1)%nat.

(** No two matches have the same game number. *)
Definition game_numbers_unique (w : World) : Prop :=
  NoDup (Match.gameNumber <$> matches w).

(** No match pairs a player with themselves. *)
Definition players_differ (w : World) : Prop :=
  Forall (fun m => Match.player1Id m <> Match.player2Id m) (matches w).

(** A game mode has at most one waiting entry. *)
Definition mode_one_waiting (w : World) : Prop :=
  forall gameMode, (length (waiting_in gameMode w) <= 1)%nat.

(** A matched entry carries the id of a match of its game mode in which its
    player plays. *)
Definition refers_to_match (w : World) (e : Entry.t) : Prop :=
  Entry.status e = matched ->
  exists m, m ∈ matches w /\ Entry.matchId e = Some (Match.id m) /\
            Entry.gameMode e = Match.gameMode m /\
            (Entry.playerId e = Match.player1Id m \/
             Entry.playerId e = Match.player2Id m).

Definition matched_refer (w : World) : Prop :=
  Forall (refers_to_match w) (queue_entries w).

(** All of these together. *)
Definition store_inv (w : World) : Prop :=
  keys_inv w /\ one_waiting w /\ mode_one_waiting w /\
  game_numbers_unique w /\ players_differ w /\ matched_refer w.

(** The world of [joinQueue] after its insert and before its pairing
    attempt. *)
Definition joined (playerId gameMode : string) (now : Z) (w : World) : World :=
  emit playerId (queuing now)
    (redis_set playerId (queuing now)
       (insert_queue_entry playerId gameMode now w).2).

(** The entries [matchPlayers] marks for the two it takes. *)
Definition marked (e1 e2 e : Entry.t) : Prop :=
  Entry.id e = Entry.id e1 \/ Entry.id e = Entry.id e2.

(** What [matchPlayers] does to the world when it pairs [e1] and [e2]. *)
Definition paired (gameMode : string) (now : Z) (w : World)
    (e1 e2 : Entry.t) (w' : World) : Prop :=
  queuedPlayers gameMode w = [e1; e2] /\
  matchPlayers gameMode now w = (Some (new_match gameMode now w e1 e2), w') /\
  matches w' = matches w ++ [new_match gameMode now w e1 e2] /\
  matches_seq w' = (matches_seq w + 1)%Z /\
  queue_entries w'
  = ((fun e => if decide (marked e1 e2 e)
               then set_matched (matches_seq w) e else e) <$> queue_entries w) /\
  queue_entries_seq w' = queue_entries_seq w /\
  player_ratings w' = player_ratings w /\
  redis w'
  = <[PLAYER_STATE_KEY (Entry.playerId e2) := in_game (Entry.playerId e1) now]>
      (<[PLAYER_STATE_KEY (Entry.playerId e1) := in_game (Entry.playerId e2) now]>
         (redis w)) /\
  emitted w'
  = emitted w ++ [("state-change:" +:+ Entry.playerId e1,
                   in_game (Entry.playerId e2) now);
                  ("state-change:" +:+ Entry.playerId e2,
                   in_game (Entry.playerId e1) now)].

(** The operations of the service, as steps from one world to the next. *)
Inductive Op :=
  | op_joinQueue (playerId gameMode : string) (now : Z)
  | op_leaveQueue (playerId : string)
  | op_matchPlayers (gameMode : string) (now : Z)
  | op_completeMatch (users : gset string) (matchId : Z)
      (winnerId : option string) (now : Z).

Definition world_of {A} (o : Outcome A) : World :=
  match o with Returned _ w | Thrown _ w => w end.

Definition run (op : Op) (w : World) : World :=
  match op with
  | op_joinQueue playerId gameMode now => (joinQueue playerId gameMode now w).2
  | op_leaveQueue playerId => (leaveQueue playerId w).2
  | op_matchPlayers gameMode now => (matchPlayers gameMode now w).2
  | op_completeMatch users matchId winnerId now =>
      world_of (completeMatch users matchId winnerId now w)
  end.

Definition run_all (ops : list Op) (w : World) : World :=
  foldl (fun w op => run op w) w ops.

(** The world of a fresh store, and a day of four players: "a" joins and
    leaves, joins again, "b" joins and is paired with "a", "c" joins, "d"
    joins and is paired with "c", and the first match is completed. *)
Definition world_new : World := mkWorld [] 1 [] 1 ∅ ∅ [].

Definition a_day : list Op :=
  [op_joinQueue "a" "standard" 10; op_leaveQueue "a";
   op_joinQueue "a" "standard" 20; op_joinQueue "b" "standard" 30;
   op_joinQueue "c" "vanilla" 40; op_joinQueue "d" "vanilla" 50;
   op_completeMatch {[ "a"; "b"; "c"; "d" ]} 1 (Some "b") 60].

(** Two users, "a" and "b". *)
Definition user_a : User.t :=
  User.mk "a" (Some "Ann") "ann@example.org" None None None "user".
Definition user_b : User.t :=
  User.mk "b" None "bob@example.org" None None None "user".
Definition users_ab : users := <["a" := user_a]> (<["b" := user_b]> ∅).

End QueueQueries.

(** ** The rest of the elo service *)

Module EloQueries.
Import Elo Store.

#[global] Instance R_le_dec : RelDecision Rle := Rle_dec.

(** [.orderBy(column)] and [.orderBy(desc(column))] on a numeric column. *)
Definition asc_num {A} (key : A -> R) (x y : A) : bool :=
  bool_decide (key x <= key y).
Definition desc_num {A} (key : A -> R) (x y : A) : bool :=
  bool_decide (key y <= key x).

(** The rows of the table, in the order the store holds them. *)
Definition rows (tbl : ratings) : list Rating.t := (map_to_list tbl).*2.

(** Get the leaderboard for a game mode: at most [limit] rows of the mode,
    ordered by rating (ascending, as [.orderBy(player_ratings.rating)]
    is).  [limit] is a natural number here. *)
Definition getLeaderboard (gameMode : string) (limit : nat) (tbl : ratings)
    : list Rating.t :=
  Store.limit limit
    (orderBy (asc_num Rating.rating)
       (where_ (fun r => Rating.gameMode r = gameMode) (rows tbl))).

(** The rating and games played of a player in a mode before an update: those
    of the row, or of the row a first participation creates. *)
Definition rating_of (playerId gameMode : string) (tbl : ratings) : R :=
  match getPlayerRating playerId gameMode tbl with
  | Some r => Rating.rating r
  | None => 1000
  end.

Definition games_of (playerId gameMode : string) (tbl : ratings) : Z :=
  match getPlayerRating playerId gameMode tbl with
  | Some r => Rating.gamesPlayed r
  | None => 0
  end.



(** A table of two rated players for the examples. *)
Definition ratings_ab : ratings :=
  <[("a", "standard") := Rating.mk "a" "standard" 1100 12 7 4 1 (Some 5%Z) 1150]>
    (<[("b", "standard") := Rating.mk "b" "standard" 900 3 1 2 0 (Some 5%Z) 1000]> ∅).

End EloQueries.

(** ** LeaderboardService: a world for the examples *)

Module LeaderboardWorlds.
Import Leaderboard.

(** The hash of a user "v" written by an earlier refresh of queue "q". *)
Definition entry_v : Entry.t := Entry.mk "v" "V" 900 1 5 0 6 1000 1 2 (1 / 6).

Definition world_old_hash : World :=
  mkWorld ∅ ∅ {[ getUserKey "v" "q" := (entry_v, "q") ]} [] ∅.

End LeaderboardWorlds.

(** ** LeaderboardService: the leaderboard of season 2 *)

Module Seasons.
Import Leaderboard Store EloQueries.

#[global] Instance R_lt_dec : RelDecision Rlt := Rlt_dec.

(** An element of [alltime] in the snapshot file of season 2. *)
Module Alltime.
Record data : Type := mkData {
  mmr : R;
  wins : Z;
  losses : Z;
  streak : Z;
  totalgames : Z;
  peak_mmr : R;
  peak_streak : Z;
  rank : Z;
  winrate : R;
}.
Record t : Type := mk {
  id : string;
  name : string;
  data_ : data;
}.
End Alltime.

(** [season2DataCache]. *)
Abbreviation Cache := (gmap string (list Entry.t)).

(** Load the season 2 data from the snapshot file.  [file] is what reading
    and parsing the file gives: [None] when that throws, else the array
    [data.alltime].  Returns the entries and the cache after the call. *)
Definition loadSeason2Data (file : option (list Alltime.t)) (queue_id : string)
    (cache : Cache) : list Entry.t * Cache :=
  match cache !! queue_id with
  | Some cached => (cached, cache)
  | None =>
      match file with
      | Some alltime =>
          let entries :=
            (fun entry =>
               let d := Alltime.data_ entry in
               Entry.mk (Alltime.id entry) (Alltime.name entry) (Alltime.mmr d)
                 (Alltime.wins d) (Alltime.losses d) (Alltime.streak d)
                 (Alltime.totalgames d) (Alltime.peak_mmr d)
                 (Alltime.peak_streak d) (Alltime.rank d) (Alltime.winrate d))
            <$> alltime in
          (entries, <[queue_id := entries]> cache)
      | None => ([], cache)
      end
  end.

(** [{...entry, rank}]. *)
Definition set_rank (rank : Z) (entry : Entry.t) : Entry.t :=
  Entry.mk (Entry.id entry) (Entry.name entry) (Entry.mmr entry)
    (Entry.wins entry) (Entry.losses entry) (Entry.streak entry)
    (Entry.totalgames entry) (Entry.peak_mmr entry) (Entry.peak_streak entry)
    rank (Entry.winrate entry).

(** Get the season 2 leaderboard: a copy of the entries sorted by mmr
    descending ([Array.prototype.sort] is stable, as [orderBy] is), with the
    ranks recalculated from the sorted order. *)
Definition getSeason2Leaderboard (file : option (list Alltime.t))
    (queue_id : string) (cache : Cache) : list Entry.t * Cache :=
  let '(entries, cache) := loadSeason2Data file queue_id cache in
  let sortedEntries := orderBy (desc_num Entry.mmr) entries in
  (imap (fun idx entry => set_rank (Z.of_nat idx + 1) entry) sortedEntries, cache).

(** Get the season 2 entry of a user, [None] (null) if there is none. *)
Definition getSeason2UserRank (file : option (list Alltime.t))
    (queue_id user_id : string) (cache : Cache) : option Entry.t * Cache :=
  let '(sortedLeaderboard, cache) := getSeason2Leaderboard file queue_id cache in
  (find_user user_id sortedLeaderboard, cache).

End Seasons.

(** * Properties *)

(** ** Rating engine *)

Module EloFacts.
Import Elo.

Lemma Math_pow_pos (x y : R) : 0 < Math_pow x y.
Proof. unfold Math_pow, Rpower. apply exp_pos. Qed.


Lemma expected_equal_ratings (a : R) : calculateExpectedScore a a = 1 / 2.
Proof.
  unfold calculateExpectedScore, Math_pow.
  replace ((a - a) / 400) with 0 by lra.
  rewrite Rpower_O by lra. lra.
Qed.

Lemma expected_in_unit_interval (a b : R) : 0 < calculateExpectedScore a b < 1.
Proof.
  unfold calculateExpectedScore.
  pose proof (Math_pow_pos 10 ((b - a) / 400)) as Hp.
  split.
  - apply Rdiv_lt_0_compat; lra.
  - apply Rmult_lt_reg_r with (1 + Math_pow 10 ((b - a) / 400)); [lra|].
    unfold Rdiv. rewrite Rmult_assoc, Rinv_l by lra. lra.
Qed.


Lemma Math_round_IZR (z : Z) : Math_round (IZR z) = IZR z.
Proof.
  unfold Math_round. f_equal. apply Zfloor_eq. lra.
Qed.

Lemma Math_round_add_IZR (z : Z) (d : R) :
  Math_round (IZR z + d) = IZR z + Math_round d.
Proof.
  unfold Math_round.
  replace (IZR z + d + 1 / 2) with (d + 1 / 2 + IZR z) by lra.
  rewrite Zfloor_addz, plus_IZR. lra.
Qed.

(** The sign of a rounded change. *)
Lemma Math_round_nonneg (d : R) : 0 <= d -> 0 <= Math_round d.
Proof.
  intros Hd. unfold Math_round. apply IZR_le, Zfloor_lub. simpl. lra.
Qed.

Lemma Math_round_nonpos (d : R) : d <= 0 -> Math_round d <= 0.
Proof.
  intros Hd. unfold Math_round.
  pose proof (Zfloor_bound (d + 1 / 2)) as [Hlo _].
  destruct (Z_le_gt_dec (Zfloor (d + 1 / 2)) 0) as [Hz | Hz].
  - now apply IZR_le.
  - assert (1 <= Zfloor (d + 1 / 2))%Z as H1 by lia.
    apply IZR_le in H1. lra.
Qed.

Lemma Math_round_pos_iff (d : R) : 0 < Math_round d <-> 1 / 2 <= d.
Proof.
  unfold Math_round. split.
  - intros H. apply lt_IZR in H.
    assert (1 <= Zfloor (d + 1 / 2))%Z as H1 by lia.
    apply IZR_le in H1. pose proof (Zfloor_bound (d + 1 / 2)). lra.
  - intros H. apply IZR_lt.
    assert (1 <= Zfloor (d + 1 / 2))%Z; [|lia].
    apply Zfloor_lub. lra.
Qed.

Lemma Math_round_neg_iff (d : R) : Math_round d < 0 <-> d < - (1 / 2).
Proof.
  unfold Math_round. split.
  - intros H. apply lt_IZR in H.
    assert (Zfloor (d + 1 / 2) + 1 <= 0)%Z as H1 by lia.
    apply IZR_le in H1. rewrite plus_IZR in H1.
    pose proof (Zfloor_bound (d + 1 / 2)). lra.
  - intros H. apply IZR_lt.
    destruct (Z_lt_ge_dec (Zfloor (d + 1 / 2)) 0) as [Hz | Hz]; [done|].
    assert (0 <= Zfloor (d + 1 / 2))%Z as H1 by lia.
    apply IZR_le in H1. pose proof (Zfloor_bound (d + 1 / 2)). lra.
Qed.

Lemma Math_round_zero_iff (d : R) : Math_round d = 0 <-> - (1 / 2) <= d < 1 / 2.
Proof.
  unfold Math_round. split.
  - intros H. apply eq_IZR in H.
    pose proof (Zfloor_bound (d + 1 / 2)) as Hb. rewrite H in Hb. simpl in Hb. lra.
  - intros H. f_equal. apply Zfloor_eq. simpl. lra.
Qed.

Lemma kFactor_cases (g : Z) : kFactor g = 64 \/ kFactor g = 32.
Proof.
  unfold kFactor, PROVISIONAL_K_FACTOR, K_FACTOR.
  destruct (g <? PROVISIONAL_THRESHOLD)%Z; auto.
Qed.

Lemma kFactor_pos (g : Z) : 0 < kFactor g.
Proof. destruct (kFactor_cases g) as [-> | ->]; lra. Qed.

Lemma calculateNewRating_integer (z : Z) (e a : R) (g : Z) :
  calculateNewRating (IZR z) e a g = IZR z + Math_round (kFactor g * (a - e)).
Proof. unfold calculateNewRating. apply Math_round_add_IZR. Qed.

(** C9, as stated, fails: a winner whose expected score is 0.999 gains
    32 * 0.001, which [Math.round] takes away. *)
Lemma calculateNewRating_win_not_strict :
  0 < 999 / 1000 < 1 /\
  calculateNewRating 1000 (999 / 1000) 1 10 = 1000 /\
  ~ (1000 < calculateNewRating 1000 (999 / 1000) 1 10).
Proof.
  assert (calculateNewRating 1000 (999 / 1000) 1 10 = 1000) as H.
  { rewrite (calculateNewRating_integer 1000).
    unfold kFactor, Math_round; simpl.
    rewrite (Zfloor_eq 0); [lra|]. unfold K_FACTOR. simpl. lra. }
  rewrite H. repeat split; lra.
Qed.

(** The rounded change: its sign, and where rounding takes it away or
    leaves at least a point. *)
Lemma rounded_change (z : Z) (e a : R) (g : Z) :
  let d := kFactor g * (a - e) in
  let new := calculateNewRating (IZR z) e a g in
  (d <= 0 -> new <= IZR z) /\
  (0 <= d -> IZR z <= new) /\
  (- (1 / 4) <= d <= 1 / 4 -> new = IZR z) /\
  (d <= - 1 -> new < IZR z) /\
  (1 <= d -> IZR z < new).
Proof.
  simpl. rewrite calculateNewRating_integer.
  set (d := kFactor g * (a - e)).
  split; [|split; [|split; [|split]]]; intros H.
  - pose proof (Math_round_nonpos d H). lra.
  - pose proof (Math_round_nonneg d H). lra.
  - assert (Math_round d = 0) as ->; [|lra].
    apply Math_round_zero_iff. lra.
  - assert (Math_round d < 0); [|lra]. apply Math_round_neg_iff. lra.
  - assert (0 < Math_round d); [|lra]. apply Math_round_pos_iff. lra.
Qed.

(** C9 (amended): for a whole-number current rating, an expected score in
    (0,1) and the k-factor k of the player, the new rating moves only in
    the direction of actual - expected, and not always strictly.  The
    losing side's rating does not go up, the winning side's does not go
    down, a drawing side's does not go down at an expected score of at most
    0.5 and not up at one of at least 0.5, so it stays at 0.5.  A change
    k * (actual - expected) of at most a quarter point either way is
    rounded away; one of at least a point moves the rating strictly, for a
    rating below 2^53 (up to which a double holds every whole number). *)
Theorem calculateNewRating_signed (z : Z) (e : R) (g : Z) :
  0 < e < 1 ->
  let k := kFactor g in
  let lost := calculateNewRating (IZR z) e 0 g in
  let won := calculateNewRating (IZR z) e 1 g in
  let drew := calculateNewRating (IZR z) e (1 / 2) g in
  (lost <= IZR z /\ (k * e <= 1 / 4 -> lost = IZR z)) /\
  (IZR z <= won /\ (k * (1 - e) <= 1 / 4 -> won = IZR z)) /\
  ((e <= 1 / 2 -> IZR z <= drew) /\ (1 / 2 <= e -> drew <= IZR z) /\
   (e = 1 / 2 -> drew = IZR z) /\
   (- (1 / 4) <= k * (1 / 2 - e) <= 1 / 4 -> drew = IZR z)) /\
  ((Z.abs z < 2 ^ 53)%Z ->
   (1 <= k * e -> lost < IZR z) /\
   (1 <= k * (1 - e) -> IZR z < won) /\
   (1 <= k * (1 / 2 - e) -> IZR z < drew) /\
   (k * (1 / 2 - e) <= - 1 -> drew < IZR z)).
Proof.
  intros [He0 He1]. simpl. pose proof (kFactor_pos g) as Hk.
  destruct (rounded_change z e 0 g) as (L1 & _ & L3 & L4 & _).
  destruct (rounded_change z e 1 g) as (_ & W2 & W3 & _ & W5).
  destruct (rounded_change z e (1 / 2) g) as (D1 & D2 & D3 & D4 & D5).
  simpl in *.
  split; [|split; [|split]].
  - split; [apply L1; nra|]. intros H. apply L3. nra.
  - split; [apply W2; nra|]. intros H. apply W3. nra.
  - split; [intros H; apply D2; nra|].
    split; [intros H; apply D1; nra|].
    split; [intros ->; apply D3; nra|]. exact D3.
  - intros _. split; [intros H; apply L4; nra|].
    split; [exact W5|]. split; [exact D5 | exact D4].
Qed.

Lemma calculateNewRating_signed_witness :
  calculateNewRating 1000 (1 / 2) (1 / 2) 0 = 1000 /\
  calculateNewRating 1000 (1 / 2) 0 0 < 1000 /\
  calculateNewRating 1000 (1 / 256) 0 0 = 1000.
Proof.
  destruct (calculateNewRating_signed 1000 (1 / 2) 0) as (_ & _ & D & S);
    [lra|].
  destruct (calculateNewRating_signed 1000 (1 / 256) 0) as ((_ & L) & _);
    [lra|].
  assert (kFactor 0 = 64) as Hk by reflexivity.
  cbv zeta in D, S, L. rewrite Hk in S, L.
  destruct D as (_ & _ & D & _). destruct S as (S & _); [reflexivity|].
  split; [apply D; reflexivity|]. split.
  - apply S. lra.
  - apply L. lra.
Defined.

End EloFacts.

Module RatingFacts.
Import Elo.

Implicit Types (p g : string) (now : Z) (tbl : ratings) (result : R).
Implicit Types (r row : Rating.t) (k : string * string).

Lemma default_rating_eq p g now :
  default_rating p g now = Rating.mk p g 1000 0 0 0 0 (Some now) 1000.
Proof.
  unfold default_rating, getOrCreatePlayerRating, getPlayerRating.
  by rewrite lookup_empty.
Qed.

Lemma getOrCreate_lookup p g now (tbl : ratings) :
  (getOrCreatePlayerRating p g now tbl).2 !! (p, g)
  = Some (getOrCreatePlayerRating p g now tbl).1.
Proof.
  unfold getOrCreatePlayerRating, getPlayerRating.
  destruct (tbl !! (p, g)) eqn:E; simpl; [done|]. by rewrite lookup_insert_eq.
Qed.

Lemma getOrCreate_lookup_ne p g now (tbl : ratings) k :
  k <> (p, g) -> (getOrCreatePlayerRating p g now tbl).2 !! k = tbl !! k.
Proof.
  intros Hk. unfold getOrCreatePlayerRating, getPlayerRating.
  destruct (tbl !! (p, g)) eqn:E; simpl; [done|]. by rewrite lookup_insert_ne.
Qed.

Lemma getOrCreate_existing p g now (tbl : ratings) r :
  tbl !! (p, g) = Some r -> getOrCreatePlayerRating p g now tbl = (r, tbl).
Proof.
  intros H. unfold getOrCreatePlayerRating, getPlayerRating. by rewrite H.
Qed.

Lemma getOrCreate_new p g now (tbl : ratings) :
  tbl !! (p, g) = None ->
  getOrCreatePlayerRating p g now tbl
  = (default_rating p g now, <[(p, g) := default_rating p g now]> tbl).
Proof.
  intros H. rewrite default_rating_eq.
  unfold getOrCreatePlayerRating, getPlayerRating. by rewrite H.
Qed.

Lemma default_rating_inv p g now : rating_inv (default_rating p g now).
Proof. rewrite default_rating_eq. split; simpl; [lra | lia]. Qed.

Lemma getOrCreate_inv p g now (tbl : ratings) :
  ratings_inv tbl ->
  rating_inv (getOrCreatePlayerRating p g now tbl).1 /\
  ratings_inv (getOrCreatePlayerRating p g now tbl).2.
Proof.
  intros Hinv. destruct (tbl !! (p, g)) as [r|] eqn:E.
  - rewrite (getOrCreate_existing _ _ _ _ _ E). simpl. split; [|done].
    by apply (Hinv _ _ E).
  - rewrite (getOrCreate_new _ _ _ _ E). simpl. split.
    + apply default_rating_inv.
    + apply map_Forall_insert_2; [apply default_rating_inv | done].
Qed.

Lemma map_Forall_alter_const (P : Rating.t -> Prop) (f : Rating.t -> Rating.t)
    k (tbl : ratings) :
  (forall row, P (f row)) ->
  map_Forall (fun _ r => P r) tbl -> map_Forall (fun _ r => P r) (alter f k tbl).
Proof.
  intros Hf Hm i x. rewrite lookup_alter. case_decide as Hd.
  - destruct (tbl !! k); simpl; [|done]. intros [= <-]. apply Hf.
  - apply Hm.
Qed.

(** The rows [updateRatings] reads and the ratings it computes. *)
Lemma updateRatings_unfold p1 p2 g result now (tbl : ratings) :
  updateRatings p1 p2 g result now tbl
  = let r1 := read1 p1 g now tbl in
    let r2 := read2 p1 p2 g now tbl in
    let n1 := new1 p1 p2 g result now tbl in
    let n2 := new2 p1 p2 g result now tbl in
    ((n1, n2),
     alter (updated_row r2 n2 result 0 1 now) (p2, g)
       (alter (updated_row r1 n1 result 1 0 now) (p1, g)
          (getOrCreatePlayerRating p2 g now
             (getOrCreatePlayerRating p1 g now tbl).2).2)).
Proof.
  unfold updateRatings, new1, new2, read1, read2.
  destruct (getOrCreatePlayerRating p1 g now tbl) as [r1 t1]; simpl.
  destruct (getOrCreatePlayerRating p2 g now t1) as [r2 t2]; simpl. done.
Qed.

Lemma updateRatings_returns p1 p2 g result now (tbl : ratings) :
  (updateRatings p1 p2 g result now tbl).1
  = (new1 p1 p2 g result now tbl, new2 p1 p2 g result now tbl).
Proof. by rewrite updateRatings_unfold. Qed.

Lemma updateRatings_lookup2 p1 p2 g result now (tbl : ratings) :
  exists row,
    (updateRatings p1 p2 g result now tbl).2 !! (p2, g)
    = Some (updated_row (read2 p1 p2 g now tbl) (new2 p1 p2 g result now tbl)
              result 0 1 now row).
Proof.
  rewrite updateRatings_unfold; simpl.
  rewrite lookup_alter_eq.
  destruct (decide (p1 = p2)) as [-> | Hne].
  - rewrite lookup_alter_eq, getOrCreate_lookup. simpl. eauto.
  - rewrite lookup_alter_ne by congruence.
    rewrite getOrCreate_lookup. simpl. eauto.
Qed.

Lemma updateRatings_lookup1 p1 p2 g result now (tbl : ratings) :
  p1 <> p2 ->
  exists row,
    (updateRatings p1 p2 g result now tbl).2 !! (p1, g)
    = Some (updated_row (read1 p1 g now tbl) (new1 p1 p2 g result now tbl)
              result 1 0 now row).
Proof.
  intros Hne. rewrite updateRatings_unfold; simpl.
  rewrite lookup_alter_ne by congruence.
  rewrite lookup_alter_eq.
  rewrite getOrCreate_lookup_ne by congruence.
  rewrite getOrCreate_lookup. simpl. eauto.
Qed.

Lemma updateRatings_lookup_other p1 p2 g result now (tbl : ratings) k :
  k <> (p1, g) -> k <> (p2, g) ->
  (updateRatings p1 p2 g result now tbl).2 !! k = tbl !! k.
Proof.
  intros H1 H2. rewrite updateRatings_unfold; simpl.
  rewrite !lookup_alter_ne by congruence.
  by rewrite !getOrCreate_lookup_ne.
Qed.

Lemma updated_row_peak r n result won lost now row :
  Rating.rating (updated_row r n result won lost now row)
  <= Rating.peakRating (updated_row r n result won lost now row).
Proof. simpl. apply Rmax_r. Qed.

Lemma updated_row_inv r n result won lost now row :
  rating_inv r ->
  (result = won /\ result <> lost /\ result <> 1 / 2) \/
  (result <> won /\ result = lost /\ result <> 1 / 2) \/
  (result <> won /\ result <> lost /\ result = 1 / 2) ->
  rating_inv (updated_row r n result won lost now row).
Proof.
  intros [_ Hc] Hr. split; [apply updated_row_peak|]. simpl.
  destruct Hr as [(? & ? & ?) | [(? & ? & ?) | (? & ? & ?)]];
    repeat case_decide; try lia; contradiction.
Qed.

End RatingFacts.
(** ** The expected score on doubles *)

Module DoubleFacts.
Import Double.

Lemma exponents_of_example :
  ((2200 - 1000) / 400 = 3)%float /\ ((1000 - 2200) / 400 = -3)%float.
Proof. split; vm_compute; reflexivity. Qed.

(** Whatever [Math.pow] is, if it gives 1000 for 10^3 and a double at most
    one step away from the nearest one for 10^-3, the two expected scores of
    the ratings 1000 and 2200 do not add up to 1. *)
Lemma sum_of_example_is_not_one (Math_pow : float -> float -> float) :
  Math_pow 10%float 3%float = 1000%float ->
  Math_pow 10%float (-3)%float = thousandth \/
  Math_pow 10%float (-3)%float = thousandth_down \/
  Math_pow 10%float (-3)%float = thousandth_up ->
  PrimFloat.eqb
    (calculateExpectedScore Math_pow 1000 2200
     + calculateExpectedScore Math_pow 2200 1000) 1 = false.
Proof.
  intros H3 Hm. unfold calculateExpectedScore.
  destruct exponents_of_example as [-> ->]. rewrite H3.
  destruct Hm as [-> | [-> | ->]]; vm_compute; reflexivity.
Qed.

(** On doubles the sum is 1 up to rounding only: for the ratings 1000 and
    2200 the two expected scores are 1/(1 + 1000) and 1/(1 + 0.001), and
    their sum as doubles is 1 + 2^-52. *)
Lemma expected_scores_sum_on_doubles :
  (calculateExpectedScore pow_at_3 1000 2200
   + calculateExpectedScore pow_at_3 2200 1000
   = 0x1.0000000000001p+0)%float /\
  PrimFloat.eqb
    (calculateExpectedScore pow_at_3 1000 2200
     + calculateExpectedScore pow_at_3 2200 1000) 1 = false.
Proof. split; vm_compute; reflexivity. Qed.

End DoubleFacts.

(** ** The expected score with rounding *)

Module RoundedFacts.
Import Rounded.








End RoundedFacts.

(** ** completeMatch *)

Module CompleteFacts.
Import Elo Store Queue RatingFacts.

Implicit Types (w : World) (m : Match.t) (winnerId : option string).
Implicit Types (matchId now : Z) (p g : string) (result : R) (r : Rating.t).
Implicit Types (users : gset string).

Lemma set_matches_id w : set_matches (matches w) w = w.
Proof. by destruct w. Qed.

Lemma update_where_none {A} (P : A -> Prop) `{!forall x, Decision (P x)}
    (f : A -> A) (rows : list A) :
  filter P rows = [] -> update_where P f rows = (rows, []).
Proof.
  intros Hnil. unfold update_where. rewrite Hnil. simpl. f_equal.
  induction rows as [|x rows IH]; [done|].
  rewrite filter_cons in Hnil. rewrite fmap_cons.
  case_decide; [done|]. f_equal. by apply IH.
Qed.

Lemma completeMatch_not_found users matchId winnerId now w :
  lookup_match matchId w = None ->
  completeMatch users matchId winnerId now w
  = Thrown (Match_not_found matchId) w.
Proof.
  unfold lookup_match, where_. rewrite head_None. intros H.
  unfold completeMatch. rewrite (update_where_none _ _ _ H).
  by rewrite set_matches_id.
Qed.

(** The world a successful [completeMatch] leaves. *)
Lemma completeMatch_found users matchId winnerId now w m :
  lookup_match matchId w = Some m ->
  winner_allowed users winnerId = true ->
  exists w',
    completeMatch users matchId winnerId now w
    = Returned (set_completed now winnerId m) w' /\
    matches w'
    = ((fun x => if decide (Match.id x = matchId)
                 then set_completed now winnerId x else x) <$> matches w) /\
    player_ratings w'
    = (updateRatings (Match.player1Id m) (Match.player2Id m) (Match.gameMode m)
         (match_result winnerId m) now (player_ratings w)).2 /\
    queue_entries w' = queue_entries w.
Proof.
  unfold lookup_match, where_. rewrite head_Some. intros [rest H] Ha.
  unfold completeMatch, update_where. rewrite H. simpl. rewrite Ha.
  change (match_result winnerId (set_completed now winnerId m))
    with (match_result winnerId m).
  destruct (updateRatings _ _ _ _ _ _) as [rs tbl] eqn:E.
  eexists. split; [reflexivity|]. done.
Qed.

(** A winner who is no user: the update is refused and nothing changes. *)
Lemma completeMatch_refused users matchId winnerId now w m :
  lookup_match matchId w = Some m ->
  winner_allowed users winnerId = false ->
  completeMatch users matchId winnerId now w = Thrown Foreign_key_violation w.
Proof.
  unfold lookup_match, where_. rewrite head_Some. intros [rest H] Ha.
  unfold completeMatch, update_where. rewrite H. simpl. by rewrite Ha.
Qed.

Lemma winner_allowed_user users (winner : string) :
  winner ∈ users -> winner_allowed users (Some winner) = true.
Proof. intros H. simpl. by apply bool_decide_eq_true_2. Qed.

Lemma match_result_cases winnerId m :
  match_result winnerId m = 1 \/ match_result winnerId m = 1 / 2 \/
  match_result winnerId m = 0.
Proof. unfold match_result. repeat case_decide; auto. Qed.

Lemma match_result_player1 m :
  match_result (Some (Match.player1Id m)) m = 1.
Proof. unfold match_result. by rewrite decide_True. Qed.

Lemma match_result_draw winnerId m :
  winnerId <> Some (Match.player1Id m) ->
  winnerId <> Some (Match.player2Id m) ->
  match_result winnerId m = 1 / 2.
Proof. intros H1 H2. unfold match_result. by rewrite !decide_False. Qed.

Lemma read1_new p g now (tbl : ratings) :
  tbl !! (p, g) = None -> read1 p g now tbl = default_rating p g now.
Proof. intros H. unfold read1. by rewrite getOrCreate_new. Qed.

Lemma read1_existing p g now (tbl : ratings) r :
  tbl !! (p, g) = Some r -> read1 p g now tbl = r.
Proof. intros H. unfold read1. by rewrite (getOrCreate_existing _ _ _ _ r). Qed.

Lemma read2_new p1 p2 g now (tbl : ratings) :
  p1 <> p2 -> tbl !! (p2, g) = None ->
  read2 p1 p2 g now tbl = default_rating p2 g now.
Proof.
  intros Hne H. unfold read2. rewrite getOrCreate_new; [done|].
  rewrite getOrCreate_lookup_ne; [done | congruence].
Qed.

Lemma kFactor_provisional (g : Z) : (g < 10)%Z -> kFactor g = 64.
Proof.
  intros H. unfold kFactor, PROVISIONAL_THRESHOLD, PROVISIONAL_K_FACTOR.
  destruct (Z.ltb_spec g 10); [done | lia].
Qed.

Lemma new_rating_first_win : calculateNewRating 1000 (1 / 2) 1 0 = 1032.
Proof.
  rewrite (EloFacts.calculateNewRating_integer 1000), kFactor_provisional by lia.
  replace (64 * (1 - 1 / 2)) with (IZR 32) by (simpl; lra).
  rewrite EloFacts.Math_round_IZR. simpl. lra.
Qed.

Lemma new_rating_first_loss : calculateNewRating 1000 (1 / 2) 0 0 = 968.
Proof.
  rewrite (EloFacts.calculateNewRating_integer 1000), kFactor_provisional by lia.
  replace (64 * (0 - 1 / 2)) with (IZR (-32)) by (simpl; lra).
  rewrite EloFacts.Math_round_IZR. simpl. lra.
Qed.

Lemma updateRatings_inv p1 p2 g result now (tbl : ratings) :
  result = 1 \/ result = 1 / 2 \/ result = 0 ->
  ratings_inv tbl -> ratings_inv (updateRatings p1 p2 g result now tbl).2.
Proof.
  intros Hres Hinv. rewrite updateRatings_unfold; simpl.
  destruct (getOrCreate_inv p1 g now tbl Hinv) as [Hr1 Ht1].
  destruct (getOrCreate_inv p2 g now _ Ht1) as [Hr2 Ht2].
  apply (map_Forall_alter_const rating_inv).
  { intros row. apply updated_row_inv; [exact Hr2|].
    destruct Hres as [-> | [-> | ->]];
      [right; left | right; right | left]; repeat split; lra. }
  apply (map_Forall_alter_const rating_inv); [|exact Ht2].
  intros row. apply updated_row_inv; [exact Hr1|].
  destruct Hres as [-> | [-> | ->]];
    [left | right; right | right; left]; repeat split; lra.
Qed.

Lemma updateRatings_peak_inv p1 p2 g result now (tbl : ratings) :
  peak_inv tbl -> peak_inv (updateRatings p1 p2 g result now tbl).2.
Proof.
  intros Hinv. rewrite updateRatings_unfold; simpl.
  apply (map_Forall_alter_const
           (fun r => Rating.rating r <= Rating.peakRating r));
    [intros; apply updated_row_peak|].
  apply (map_Forall_alter_const
           (fun r => Rating.rating r <= Rating.peakRating r));
    [intros; apply updated_row_peak|].
  assert (forall p (t : ratings),
             peak_inv t -> peak_inv (getOrCreatePlayerRating p g now t).2) as Hc.
  { intros p t Ht. destruct (t !! (p, g)) as [r|] eqn:E.
    - by rewrite (getOrCreate_existing _ _ _ _ _ E).
    - rewrite (getOrCreate_new _ _ _ _ E). simpl.
      apply map_Forall_insert_2; [|done].
      rewrite default_rating_eq. simpl. lra. }
  by apply Hc, Hc.
Qed.

(** C1: two players without a rating row, matched in one game mode;
    [completeMatch] with player 1 (a user, as every player is) as the winner
    leaves player 1 at rating 1032 with peak 1032 and player 2 at rating 968
    with peak 1000 (k = 64, as both have played 0 < 10 games). *)
Theorem completeMatch_two_new_players users matchId now w m :
  lookup_match matchId w = Some m ->
  Match.player1Id m ∈ users ->
  Match.player1Id m <> Match.player2Id m ->
  player_ratings w !! (Match.player1Id m, Match.gameMode m) = None ->
  player_ratings w !! (Match.player2Id m, Match.gameMode m) = None ->
  exists w' r1 r2,
    completeMatch users matchId (Some (Match.player1Id m)) now w
    = Returned (set_completed now (Some (Match.player1Id m)) m) w' /\
    player_ratings w' !! (Match.player1Id m, Match.gameMode m) = Some r1 /\
    Rating.rating r1 = 1032 /\ Rating.peakRating r1 = 1032 /\
    Rating.gamesPlayed r1 = 1%Z /\ Rating.wins r1 = 1%Z /\
    player_ratings w' !! (Match.player2Id m, Match.gameMode m) = Some r2 /\
    Rating.rating r2 = 968 /\ Rating.peakRating r2 = 1000 /\
    Rating.gamesPlayed r2 = 1%Z /\ Rating.losses r2 = 1%Z.
Proof.
  intros Hm Hu Hne H1 H2.
  destruct (completeMatch_found users matchId (Some (Match.player1Id m)) now w m
              Hm (winner_allowed_user _ _ Hu))
    as (w' & Hc & _ & Hr & _).
  rewrite match_result_player1 in Hr.
  set (p1 := Match.player1Id m) in *. set (p2 := Match.player2Id m) in *.
  set (g := Match.gameMode m) in *.
  pose proof (read1_new p1 g now _ H1) as Hr1.
  pose proof (read2_new p1 p2 g now _ Hne H2) as Hr2.
  assert (new1 p1 p2 g 1 now (player_ratings w) = 1032) as Hn1.
  { unfold new1. rewrite Hr1, Hr2, !default_rating_eq. simpl.
    rewrite EloFacts.expected_equal_ratings. apply new_rating_first_win. }
  assert (new2 p1 p2 g 1 now (player_ratings w) = 968) as Hn2.
  { unfold new2. rewrite Hr1, Hr2, !default_rating_eq. simpl.
    rewrite EloFacts.expected_equal_ratings.
    replace (1 - 1) with 0 by lra. apply new_rating_first_loss. }
  destruct (updateRatings_lookup1 p1 p2 g 1 now (player_ratings w) Hne)
    as [row1 Hl1].
  destruct (updateRatings_lookup2 p1 p2 g 1 now (player_ratings w))
    as [row2 Hl2].
  rewrite Hr1, Hn1, default_rating_eq in Hl1.
  rewrite Hr2, Hn2, default_rating_eq in Hl2.
  eexists w', _, _. rewrite Hr.
  split; [exact Hc|]. split; [exact Hl1|].
  split; [done|]. split; [simpl; unfold Math_max; apply Rmax_right; lra|].
  split; [done|]. split; [simpl; by rewrite decide_True|].
  split; [exact Hl2|].
  split; [done|]. split; [simpl; unfold Math_max; apply Rmax_left; lra|].
  split; [done|]. simpl. by rewrite decide_True.
Qed.

Lemma completeMatch_two_new_players_witness :
  exists w' r1 r2,
    completeMatch user_ids 1 (Some "a") 5 world_one_match
    = Returned (set_completed 5 (Some "a") match_ab) w' /\
    player_ratings w' !! ("a", "standard") = Some r1 /\
    Rating.rating r1 = 1032 /\ Rating.peakRating r1 = 1032 /\
    Rating.gamesPlayed r1 = 1%Z /\ Rating.wins r1 = 1%Z /\
    player_ratings w' !! ("b", "standard") = Some r2 /\
    Rating.rating r2 = 968 /\ Rating.peakRating r2 = 1000 /\
    Rating.gamesPlayed r2 = 1%Z /\ Rating.losses r2 = 1%Z.
Proof.
  apply (completeMatch_two_new_players user_ids 1 5 world_one_match match_ab);
    [reflexivity | by vm_compute | discriminate | reflexivity | reflexivity].
Defined.

(** C10, as stated, fails for a winner who is neither player and no user:
    the update of the match violates the foreign key of the winner, the
    call throws, the match stays in progress and no draw is recorded. *)
Lemma completeMatch_stranger_no_draw :
  "nobody" <> Match.player1Id match_ab /\
  "nobody" <> Match.player2Id match_ab /\
  completeMatch user_ids 1 (Some "nobody") 5 world_one_match
  = Thrown Foreign_key_violation world_one_match /\
  player_ratings world_one_match !! ("a", "standard") = None /\
  player_ratings world_one_match !! ("b", "standard") = None.
Proof.
  split; [discriminate|]. split; [discriminate|]. split; [|done].
  apply (completeMatch_refused _ _ _ _ _ match_ab); [reflexivity|].
  by vm_compute.
Qed.

(** C10 (amended): a [winnerId] that is neither player of the match and is
    null or the id of a user makes [completeMatch] pass 0.5 to the rating
    update: the ratings are those of [updateRatings] with result 0.5, the
    draws of both players go up by one, their wins and losses stay, and
    their ratings are the new ratings for an actual score of 0.5.  With a
    [winnerId] that is no user the call throws and changes nothing. *)
Theorem completeMatch_other_winner_is_draw users matchId winnerId now w m :
  lookup_match matchId w = Some m ->
  winnerId <> Some (Match.player1Id m) ->
  winnerId <> Some (Match.player2Id m) ->
  let p1 := Match.player1Id m in
  let p2 := Match.player2Id m in
  let g := Match.gameMode m in
  let old1 := read1 p1 g now (player_ratings w) in
  let old2 := read2 p1 p2 g now (player_ratings w) in
  (winner_allowed users winnerId = false ->
   completeMatch users matchId winnerId now w = Thrown Foreign_key_violation w) /\
  (winner_allowed users winnerId = true ->
   exists w' r2,
    completeMatch users matchId winnerId now w
    = Returned (set_completed now winnerId m) w' /\
    player_ratings w'
    = (updateRatings p1 p2 g (1 / 2) now (player_ratings w)).2 /\
    player_ratings w' !! (p2, g) = Some r2 /\
    Rating.draws r2 = (Rating.draws old2 + 1)%Z /\
    Rating.wins r2 = Rating.wins old2 /\
    Rating.losses r2 = Rating.losses old2 /\
    Rating.rating r2
    = calculateNewRating (Rating.rating old2)
        (calculateExpectedScore (Rating.rating old2) (Rating.rating old1))
        (1 / 2) (Rating.gamesPlayed old2) /\
    (p1 <> p2 ->
     exists r1,
       player_ratings w' !! (p1, g) = Some r1 /\
       Rating.draws r1 = (Rating.draws old1 + 1)%Z /\
       Rating.wins r1 = Rating.wins old1 /\
       Rating.losses r1 = Rating.losses old1 /\
       Rating.rating r1
       = calculateNewRating (Rating.rating old1)
           (calculateExpectedScore (Rating.rating old1) (Rating.rating old2))
           (1 / 2) (Rating.gamesPlayed old1))).
Proof.
  intros Hm Hw1 Hw2 p1 p2 g old1 old2.
  split; [by apply completeMatch_refused with m|]. intros Ha.
  destruct (completeMatch_found users matchId winnerId now w m Hm Ha)
    as (w' & Hc & _ & Hr & _).
  rewrite (match_result_draw _ _ Hw1 Hw2) in Hr. fold p1 p2 g in Hr.
  destruct (updateRatings_lookup2 p1 p2 g (1 / 2) now (player_ratings w))
    as [row2 Hl2].
  assert (1 / 2 <> 0) as Hh0 by lra. assert (1 / 2 <> 1) as Hh1 by lra.
  exists w', (updated_row old2 (new2 p1 p2 g (1 / 2) now (player_ratings w))
                (1 / 2) 0 1 now row2).
  rewrite Hr. split; [exact Hc|]. split; [done|]. split; [exact Hl2|].
  split; [simpl; by rewrite decide_True|].
  split; [simpl; by rewrite decide_False|].
  split; [simpl; by rewrite decide_False|].
  split.
  { simpl. unfold new2. fold old1 old2.
    by replace (1 - 1 / 2) with (1 / 2) by lra. }
  intros Hne.
  destruct (updateRatings_lookup1 p1 p2 g (1 / 2) now (player_ratings w) Hne)
    as [row1 Hl1].
  eexists. split; [exact Hl1|].
  split; [simpl; by rewrite decide_True|].
  split; [simpl; by rewrite decide_False|].
  split; [simpl; by rewrite decide_False|].
  done.
Qed.

Lemma completeMatch_other_winner_is_draw_witness :
  exists w' r2,
    completeMatch user_ids 1 (Some "c") 5 world_one_match
    = Returned (set_completed 5 (Some "c") match_ab) w' /\
    player_ratings w' !! ("b", "standard") = Some r2 /\
    Rating.draws r2 = 1%Z.
Proof.
  destruct (completeMatch_other_winner_is_draw user_ids 1 (Some "c") 5
              world_one_match match_ab)
    as (_ & Hdraw); [reflexivity | discriminate | discriminate |].
  destruct Hdraw as (w' & r2 & Hc & _ & Hl & Hd & _); [by vm_compute|].
  exists w', r2. split; [exact Hc|]. split; [exact Hl|].
  rewrite Hd. unfold read2.
  rewrite getOrCreate_new, default_rating_eq; reflexivity.
Defined.

(** C3, as stated, fails: the match of [world_one_match] is completed at
    time 5 with winner "a", and a second call at time 9 with winner "b"
    completes it again: completedAt and winnerId are overwritten and the
    ratings are updated a second time ("a" has played two games). *)
Lemma completeMatch_twice :
  exists m1 w1 m2 w2 r,
    completeMatch user_ids 1 (Some "a") 5 world_one_match = Returned m1 w1 /\
    matches w1 = [m1] /\ Match.status m1 = completed /\
    Match.completedAt m1 = Some 5%Z /\ Match.winnerId m1 = Some "a" /\
    completeMatch user_ids 1 (Some "b") 9 w1 = Returned m2 w2 /\
    matches w2 = [m2] /\
    Match.completedAt m2 = Some 9%Z /\ Match.winnerId m2 = Some "b" /\
    player_ratings w2 !! ("a", "standard") = Some r /\
    Rating.gamesPlayed r = 2%Z.
Proof.
  destruct (completeMatch_found user_ids 1 (Some "a") 5 world_one_match match_ab)
    as (w1 & Hc1 & Hm1 & Hr1 & _); [reflexivity | by vm_compute|].
  assert (lookup_match 1 w1 = Some (set_completed 5 (Some "a") match_ab)) as Hl.
  { unfold lookup_match. rewrite Hm1. reflexivity. }
  destruct (completeMatch_found user_ids 1 (Some "b") 9 w1 _ Hl)
    as (w2 & Hc2 & Hm2 & Hr2 & _); [by vm_compute|].
  simpl in Hr1, Hr2.
  destruct (updateRatings_lookup1 "a" "b" "standard"
              (match_result (Some "a") match_ab) 5 ∅) as [row1 Hrow1];
    [discriminate|].
  change (player_ratings world_one_match) with (∅ : ratings) in Hr1.
  rewrite <- Hr1 in Hrow1.
  destruct (updateRatings_lookup1 "a" "b" "standard"
              (match_result (Some "b") (set_completed 5 (Some "a") match_ab))
              9 (player_ratings w1)) as [row2 Hrow2]; [discriminate|].
  rewrite (read1_existing _ _ _ _ _ Hrow1) in Hrow2.
  rewrite <- Hr2 in Hrow2.
  eexists _, w1, _, w2, _.
  split; [exact Hc1|]. split; [by rewrite Hm1|].
  do 3 (split; [reflexivity|]).
  split; [exact Hc2|]. split; [by rewrite Hm2, Hm1|].
  do 2 (split; [reflexivity|]).
  split; [exact Hrow2|].
  simpl. unfold read1. by rewrite getOrCreate_new, default_rating_eq.
Qed.

(** C3 (amended): [completeMatch] throws "not found", and changes nothing,
    when no match has the id.  When one has and the winner is no user, the
    store refuses the update: the call throws and changes nothing.  When
    one has and the winner is null or a user, then whatever the status of
    the match (also [completed]) the call returns it with completedAt,
    winnerId and status set anew and applies the rating update for the
    result of this call. *)
Theorem completeMatch_throws_or_completes users matchId winnerId now w :
  (lookup_match matchId w = None ->
   completeMatch users matchId winnerId now w
   = Thrown (Match_not_found matchId) w) /\
  (forall m,
     lookup_match matchId w = Some m ->
     winner_allowed users winnerId = false ->
     completeMatch users matchId winnerId now w
     = Thrown Foreign_key_violation w) /\
  (forall m,
     lookup_match matchId w = Some m ->
     winner_allowed users winnerId = true ->
     exists m' w',
       completeMatch users matchId winnerId now w = Returned m' w' /\
       m' = set_completed now winnerId m /\
       Match.completedAt m' = Some now /\ Match.winnerId m' = winnerId /\
       Match.status m' = completed /\
       lookup_match matchId w' = Some m' /\
       player_ratings w'
       = (updateRatings (Match.player1Id m) (Match.player2Id m)
            (Match.gameMode m) (match_result winnerId m) now
            (player_ratings w)).2).
Proof.
  split; [apply completeMatch_not_found|].
  split; [intros m; apply completeMatch_refused|].
  intros m Hm Ha.
  destruct (completeMatch_found users matchId winnerId now w m Hm Ha)
    as (w' & Hc & Hms & Hr & _).
  exists (set_completed now winnerId m), w'.
  split; [exact Hc|]. do 4 (split; [reflexivity|]).
  split; [|exact Hr].
  unfold lookup_match, where_ in *. rewrite Hms.
  apply head_Some in Hm as [rest Hm].
  clear Hms Hc Hr. revert Hm.
  induction (matches w) as [|x l IH]; [done|].
  rewrite fmap_cons, !filter_cons. case_decide as Hx.
  - intros [= -> _]. rewrite decide_True by done. done.
  - rewrite decide_False by done. exact IH.
Qed.

Lemma completeMatch_throws_or_completes_witness :
  completeMatch user_ids 7 None 5 world_one_match
  = Thrown (Match_not_found 7) world_one_match /\
  completeMatch user_ids 1 (Some "nobody") 5 world_one_match
  = Thrown Foreign_key_violation world_one_match /\
  exists m' w',
    completeMatch user_ids 1 (Some "b") 5 world_one_match = Returned m' w' /\
    Match.completedAt m' = Some 5%Z /\ Match.status m' = completed.
Proof.
  split; [|split].
  - apply (completeMatch_throws_or_completes user_ids 7 None 5 world_one_match).
    reflexivity.
  - apply (proj1 (proj2 (completeMatch_throws_or_completes user_ids 1
                           (Some "nobody") 5 world_one_match)) match_ab);
      [reflexivity | by vm_compute].
  - destruct (proj2 (proj2 (completeMatch_throws_or_completes user_ids 1
                              (Some "b") 5 world_one_match)) match_ab)
      as (m' & w' & Hc & _ & Ht & _ & Hs & _); [reflexivity | by vm_compute|].
    by exists m', w'.
Defined.

(** C4, as stated, fails for a result that is none of 1, 0.5 and 0:
    the number of games goes up and no counter does. *)
Lemma updateRatings_counters_broken :
  ratings_inv ∅ /\
  exists r,
    (updateRatings "a" "b" "standard" (3 / 10) 0 ∅).2 !! ("a", "standard")
    = Some r /\
    Rating.gamesPlayed r = 1%Z /\ Rating.wins r = 0%Z /\
    Rating.losses r = 0%Z /\ Rating.draws r = 0%Z /\
    ~ rating_inv r.
Proof.
  split; [apply map_Forall_empty|].
  destruct (updateRatings_lookup1 "a" "b" "standard" (3 / 10) 0 ∅)
    as [row Hrow]; [discriminate|].
  rewrite read1_new, default_rating_eq in Hrow by reflexivity.
  eexists. split; [exact Hrow|]. simpl.
  rewrite !decide_False by lra.
  repeat split; try reflexivity. intros [_ Hc]. simpl in Hc.
  rewrite !decide_False in Hc by lra. lia.
Qed.

(** C4 (amended): a rating row is created with rating = peakRating = 1000
    and all counters 0; [updateRatings] called with a result of 1, 0.5 or 0
    keeps, for every row, peakRating >= rating and
    gamesPlayed = wins + losses + draws; so does [completeMatch], which
    passes no other result; and peakRating >= rating is kept for every
    result. *)
Theorem rating_invariants_preserved :
  (forall p g now (tbl : ratings),
     getPlayerRating p g tbl = None ->
     (getOrCreatePlayerRating p g now tbl).1
     = Rating.mk p g 1000 0 0 0 0 (Some now) 1000 /\
     rating_inv (getOrCreatePlayerRating p g now tbl).1) /\
  (forall p1 p2 g result now (tbl : ratings),
     result = 1 \/ result = 1 / 2 \/ result = 0 ->
     ratings_inv tbl ->
     ratings_inv (updateRatings p1 p2 g result now tbl).2) /\
  (forall p1 p2 g result now (tbl : ratings),
     peak_inv tbl -> peak_inv (updateRatings p1 p2 g result now tbl).2) /\
  (forall users matchId winnerId now w,
     ratings_inv (player_ratings w) ->
     match completeMatch users matchId winnerId now w with
     | Returned _ w' | Thrown _ w' => ratings_inv (player_ratings w')
     end).
Proof.
  split; [|split; [|split]].
  - intros p g now tbl H. unfold getPlayerRating in H.
    rewrite (getOrCreate_new _ _ _ _ H). simpl.
    split; [apply default_rating_eq | apply default_rating_inv].
  - apply updateRatings_inv.
  - apply updateRatings_peak_inv.
  - intros users matchId winnerId now w Hinv.
    destruct (lookup_match matchId w) as [m|] eqn:Hm.
    + destruct (winner_allowed users winnerId) eqn:Ha.
      * destruct (completeMatch_found users matchId winnerId now w m Hm Ha)
          as (w' & -> & _ & -> & _).
        apply updateRatings_inv; [apply match_result_cases | exact Hinv].
      * by rewrite (completeMatch_refused _ _ _ _ _ _ Hm Ha).
    + by rewrite (completeMatch_not_found _ _ _ _ _ Hm).
Qed.

Lemma rating_invariants_preserved_witness :
  ratings_inv (updateRatings "a" "b" "standard" 1 0 ∅).2 /\
  match completeMatch user_ids 1 (Some "a") 5 world_one_match with
  | Returned _ w' | Thrown _ w' => ratings_inv (player_ratings w')
  end.
Proof.
  destruct rating_invariants_preserved as (_ & Hu & _ & Hc).
  split.
  - apply Hu; [by left | apply map_Forall_empty].
  - apply Hc. apply map_Forall_empty.
Defined.

End CompleteFacts.
(** ** Ordering and updating rows *)

Module StoreFacts.
Import Store.

Section Order.
Context {A : Type} (leb : A -> A -> bool).
Hypothesis leb_total : forall x y, leb x y = false -> leb y x = true.
Hypothesis leb_trans :
  forall x y z, leb x y = true -> leb y z = true -> leb x z = true.

Lemma insert_by_perm (x : A) (l : list A) : insert_by leb x l ≡ₚ x :: l.
Proof.
  induction l as [|y l IH]; simpl; [done|].
  destruct (leb x y); [done|]. rewrite IH. apply Permutation_swap.
Qed.

Lemma orderBy_perm (l : list A) : orderBy leb l ≡ₚ l.
Proof.
  induction l as [|x l IH]; simpl; [done|].
  unfold orderBy in *. simpl. by rewrite insert_by_perm, IH.
Qed.

Lemma insert_by_sorted (x : A) (l : list A) :
  StronglySorted (fun a b => leb a b = true) l ->
  StronglySorted (fun a b => leb a b = true) (insert_by leb x l).
Proof.
  induction 1 as [|y l Hs IH Hy]; simpl.
  - repeat constructor.
  - destruct (leb x y) eqn:E.
    + constructor; [by constructor|].
      constructor; [done|].
      eapply Forall_impl; [exact Hy|]. intros z Hz. by eapply leb_trans.
    + constructor; [done|].
      rewrite insert_by_perm. constructor; [by apply leb_total | done].
Qed.

Lemma orderBy_sorted (l : list A) :
  StronglySorted (fun a b => leb a b = true) (orderBy leb l).
Proof.
  induction l as [|x l IH]; [constructor|].
  unfold orderBy in *. simpl. by apply insert_by_sorted.
Qed.
End Order.

Lemma StronglySorted_weaken {A} (R1 R2 : A -> A -> Prop) (l : list A) :
  (forall x y, R1 x y -> R2 x y) -> StronglySorted R1 l -> StronglySorted R2 l.
Proof.
  intros HR. induction 1 as [|x l Hs IH Hx]; constructor; [done|].
  eapply Forall_impl; [exact Hx|]. intros y. apply HR.
Qed.

Section Keys.
Context {A : Type} (key : A -> Z).

Lemma orderBy_asc_sorted (l : list A) :
  StronglySorted (fun a b => (key a <= key b)%Z) (orderBy (asc key) l).
Proof.
  eapply StronglySorted_weaken; [|apply (orderBy_sorted (asc key))].
  - intros a b H. unfold asc in H. lia.
  - intros x y. unfold asc. lia.
  - intros x y z. unfold asc. lia.
Qed.

Lemma orderBy_desc_sorted (l : list A) :
  StronglySorted (fun a b => (key b <= key a)%Z) (orderBy (desc key) l).
Proof.
  eapply StronglySorted_weaken; [|apply (orderBy_sorted (desc key))].
  - intros a b H. unfold desc in H. lia.
  - intros x y. unfold desc. lia.
  - intros x y z. unfold desc. lia.
Qed.

(** A sorted list whose rows are [a] and rows with a larger key starts
    with [a]. *)
Lemma sorted_head_least (l l' : list A) (a : A) :
  StronglySorted (fun x y => (key x <= key y)%Z) l ->
  l ≡ₚ a :: l' ->
  Forall (fun x => (key a < key x)%Z) l' ->
  exists t, l = a :: t /\ t ≡ₚ l'.
Proof.
  intros Hs Hp Hlt. destruct l as [|h t].
  { by apply Permutation_nil_cons in Hp. }
  apply StronglySorted_inv in Hs as [_ Hh].
  assert (h = a) as ->.
  { assert (h ∈ a :: l') as Hin by (rewrite <- Hp; left).
    apply elem_of_cons in Hin as [-> | Hin]; [done|].
    rewrite Forall_forall in Hlt. specialize (Hlt _ Hin).
    assert (a ∈ h :: t) as Ha by (rewrite Hp; left).
    apply elem_of_cons in Ha as [-> | Ha]; [done|].
    rewrite Forall_forall in Hh. specialize (Hh _ Ha). lia. }
  exists t. split; [done|]. by apply Permutation_cons_inv in Hp.
Qed.
End Keys.

End StoreFacts.
(** ** matchPlayers *)

Module PairingFacts.
Import Elo Store Queue StoreFacts.

Implicit Types (w : World) (e : Entry.t) (gameMode : string) (now : Z).

Lemma getNextGameNumber_spec w :
  (matches w = [] -> getNextGameNumber w = 1%Z) /\
  (matches w <> [] ->
   exists x, x ∈ matches w /\
     getNextGameNumber w = (Match.gameNumber x + 1)%Z /\
     forall y, y ∈ matches w -> (Match.gameNumber y <= Match.gameNumber x)%Z).
Proof.
  unfold getNextGameNumber, limit.
  pose proof (orderBy_perm (desc Match.gameNumber) (matches w)) as Hp.
  pose proof (orderBy_desc_sorted Match.gameNumber (matches w)) as Hs.
  destruct (orderBy (desc Match.gameNumber) (matches w)) as [|x t].
  - apply Permutation_nil_l in Hp. rewrite <- Hp. split; [done|]. by intros [].
  - split.
    + intros Hnil. rewrite Hnil in Hp. by apply Permutation_nil_r in Hp.
    + intros _. exists x. simpl. split; [rewrite <- Hp; left|].
      split; [done|]. intros y Hy. rewrite <- Hp in Hy.
      apply StronglySorted_inv in Hs as [_ Hx].
      apply elem_of_cons in Hy as [-> | Hy]; [lia|].
      rewrite Forall_forall in Hx. by apply Hx.
Qed.

Lemma matchPlayers_short gameMode now w :
  (length (waiting_in gameMode w) < 2)%nat ->
  matchPlayers gameMode now w = (None, w).
Proof.
  intros Hlen. unfold matchPlayers, queuedPlayers, limit.
  fold (waiting_in gameMode w).
  pose proof (orderBy_perm (asc Entry.joinedAt) (waiting_in gameMode w)) as Hp.
  apply Permutation_length in Hp.
  destruct (orderBy (asc Entry.joinedAt) (waiting_in gameMode w))
    as [|e1 [|e2 t]]; simpl in *; [done | done | lia].
Qed.

(** The two entries [matchPlayers] takes. *)
Lemma queuedPlayers_two gameMode w :
  (2 <= length (waiting_in gameMode w))%nat ->
  exists e1 e2 rest,
    orderBy (asc Entry.joinedAt) (waiting_in gameMode w) = e1 :: e2 :: rest /\
    queuedPlayers gameMode w = [e1; e2] /\
    waiting_in gameMode w ≡ₚ e1 :: e2 :: rest /\
    (Entry.joinedAt e1 <= Entry.joinedAt e2)%Z /\
    Forall (fun e => (Entry.joinedAt e2 <= Entry.joinedAt e)%Z) rest.
Proof.
  intros Hlen. unfold queuedPlayers, limit. fold (waiting_in gameMode w).
  pose proof (orderBy_perm (asc Entry.joinedAt) (waiting_in gameMode w)) as Hp.
  pose proof (orderBy_asc_sorted Entry.joinedAt (waiting_in gameMode w)) as Hs.
  pose proof (Permutation_length Hp) as Hl.
  destruct (orderBy (asc Entry.joinedAt) (waiting_in gameMode w))
    as [|e1 [|e2 rest]]; simpl in Hl; [lia | lia |].
  exists e1, e2, rest. split; [done|]. split; [done|].
  split; [by symmetry|].
  apply StronglySorted_inv in Hs as [Hs H1].
  apply StronglySorted_inv in Hs as [_ H2].
  split; [|done]. by apply Forall_cons in H1 as [? _].
Qed.

Lemma NoDup_fmap_eq {A B} (f : A -> B) (l : list A) (x y : A) :
  NoDup (f <$> l) -> x ∈ l -> y ∈ l -> f x = f y -> x = y.
Proof.
  induction l as [|a l IH]; [by intros _ ?%elem_of_nil|].
  rewrite fmap_cons, NoDup_cons. intros [Ha Hnd] Hx Hy Hf.
  apply elem_of_cons in Hx as [-> | Hx], Hy as [-> | Hy]; [done| | |by apply IH].
  - exfalso. apply Ha. rewrite Hf. by apply list_elem_of_fmap_2.
  - exfalso. apply Ha. rewrite <- Hf. by apply list_elem_of_fmap_2.
Qed.

Lemma waiting_in_elem gameMode w e :
  e ∈ waiting_in gameMode w <->
  (Entry.gameMode e = gameMode /\ Entry.status e = waiting) /\ e ∈ queue_entries w.
Proof. unfold waiting_in, where_. rewrite list_elem_of_filter. tauto. Qed.

(** What [matchPlayers] does with the two entries it takes. *)
Lemma matchPlayers_two gameMode now w e1 e2 :
  queuedPlayers gameMode w = [e1; e2] ->
  e1 ∈ queue_entries w -> e2 ∈ queue_entries w ->
  queue_ids_unique w ->
  exists w',
    matchPlayers gameMode now w = (Some (new_match gameMode now w e1 e2), w') /\
    matches w' = matches w ++ [new_match gameMode now w e1 e2] /\
    queue_entries w' = mark_matched (matches_seq w) e1 e2 (queue_entries w).
Proof.
  intros Hq H1 H2 Hnd. unfold matchPlayers. rewrite Hq. simpl.
  eexists. split; [reflexivity|]. simpl. split; [done|].
  unfold mark_matched. apply list_fmap_ext. intros i e Hi.
  apply list_elem_of_lookup_2 in Hi.
  destruct (decide (Entry.id e = Entry.id e1 \/ Entry.id e = Entry.id e2))
    as [Hd | Hd];
    destruct (decide (e = e1 \/ e = e2)) as [Hd' | Hd']; try done.
  - exfalso. apply Hd'.
    destruct Hd as [Hd | Hd]; [left | right];
      by eapply (NoDup_fmap_eq Entry.id (queue_entries w)).
  - exfalso. apply Hd. destruct Hd' as [-> | ->]; auto.
Qed.

Lemma waiting_in_NoDup gameMode w :
  queue_ids_unique w -> NoDup (waiting_in gameMode w).
Proof.
  intros Hnd. unfold waiting_in, where_. apply NoDup_filter.
  by apply NoDup_fmap_1 in Hnd.
Qed.

Lemma mark_matched_elem matchId e1 e2 (rows : list Entry.t) e :
  e ∈ rows ->
  (if decide (e = e1 \/ e = e2) then set_matched matchId e else e)
  ∈ mark_matched matchId e1 e2 rows.
Proof.
  intros He. unfold mark_matched.
  apply list_elem_of_fmap. by exists e.
Qed.

(** Three waiting entries that joined at three times: the first two. *)
Lemma queuedPlayers_three gameMode w a b c :
  waiting_in gameMode w ≡ₚ [a; b; c] ->
  (Entry.joinedAt a < Entry.joinedAt b < Entry.joinedAt c)%Z ->
  queuedPlayers gameMode w = [a; b].
Proof.
  intros Hp [Hab Hbc]. unfold queuedPlayers, limit.
  fold (waiting_in gameMode w).
  pose proof (orderBy_perm (asc Entry.joinedAt) (waiting_in gameMode w)) as Hp'.
  pose proof (orderBy_asc_sorted Entry.joinedAt (waiting_in gameMode w)) as Hs.
  apply (fun H => Permutation_trans H Hp) in Hp'.
  destruct (sorted_head_least Entry.joinedAt _ _ _ Hs Hp') as (t & Ht & Hpt).
  { repeat constructor; lia. }
  rewrite Ht in Hs |- *. apply StronglySorted_inv in Hs as [Hs _].
  destruct (sorted_head_least Entry.joinedAt _ _ _ Hs Hpt) as (t' & -> & Hpt').
  { repeat constructor; lia. }
  done.
Qed.

(** C2, as stated, fails: of three entries that joined at the same time and
    that the store holds in the order 3, 1, 2, [matchPlayers] pairs the
    entries 3 and 1 and leaves entry 2 waiting; a tie broken by entry id
    pairs 1 and 2. *)
Lemma matchPlayers_tie_not_by_id :
  exists m w',
    matchPlayers "standard" 9 world_tie = (Some m, w') /\
    Match.player1Id m = "c" /\ Match.player2Id m = "a" /\
    queue_entries w'
    = [set_matched (Match.id m) entry_c3; set_matched (Match.id m) entry_a1;
       entry_b2] /\
    Entry.status entry_b2 = waiting /\
    (Entry.id entry_b2 < Entry.id entry_c3)%Z /\
    Entry.joinedAt entry_b2 = Entry.joinedAt entry_c3.
Proof. eexists _, _. repeat split. Qed.

(** C2 (amended): with fewer than two waiting entries of the mode,
    [matchPlayers] changes nothing and returns null; otherwise it pairs two
    waiting entries of the mode that joined no later than every other one
    (the first as player 1; entries that joined at the same time are taken
    in the order of the store, not by id), creates a match with the next id
    whose gameNumber is the largest existing one plus 1 (1 without any
    match), and marks those two entries, and no other, matched with the id
    of the match.  Of three waiting entries that joined at t1 < t2 < t3 it
    pairs those of t1 and t2 and leaves that of t3 waiting. *)
Theorem matchPlayers_pairs_longest_waiting gameMode now w :
  queue_ids_unique w ->
  ((length (waiting_in gameMode w) < 2)%nat ->
   matchPlayers gameMode now w = (None, w)) /\
  ((2 <= length (waiting_in gameMode w))%nat ->
   exists e1 e2 rest m w',
     matchPlayers gameMode now w = (Some m, w') /\
     waiting_in gameMode w ≡ₚ e1 :: e2 :: rest /\ e1 <> e2 /\
     (Entry.joinedAt e1 <= Entry.joinedAt e2)%Z /\
     Forall (fun e => (Entry.joinedAt e2 <= Entry.joinedAt e)%Z) rest /\
     m = Match.mk (matches_seq w) gameMode (Entry.playerId e1)
           (Entry.playerId e2) now None None in_progress (getNextGameNumber w) /\
     (matches w = [] -> Match.gameNumber m = 1%Z) /\
     (matches w <> [] ->
      exists x, x ∈ matches w /\
        Match.gameNumber m = (Match.gameNumber x + 1)%Z /\
        forall y, y ∈ matches w ->
                  (Match.gameNumber y <= Match.gameNumber x)%Z) /\
     matches w' = matches w ++ [m] /\
     queue_entries w' = mark_matched (Match.id m) e1 e2 (queue_entries w)) /\
  (forall a b c,
     waiting_in gameMode w ≡ₚ [a; b; c] ->
     (Entry.joinedAt a < Entry.joinedAt b < Entry.joinedAt c)%Z ->
     exists m w',
       matchPlayers gameMode now w = (Some m, w') /\
       Match.player1Id m = Entry.playerId a /\
       Match.player2Id m = Entry.playerId b /\
       queue_entries w' = mark_matched (Match.id m) a b (queue_entries w) /\
       set_matched (Match.id m) a ∈ queue_entries w' /\
       set_matched (Match.id m) b ∈ queue_entries w' /\
       c ∈ queue_entries w' /\ Entry.status c = waiting).
Proof.
  intros Hnd. split; [apply matchPlayers_short|]. split.
  - intros Hlen.
    destruct (queuedPlayers_two gameMode w Hlen)
      as (e1 & e2 & rest & _ & Hq & Hp & H12 & Hrest).
    assert (e1 ∈ queue_entries w) as H1.
    { apply (waiting_in_elem gameMode). rewrite Hp. left. }
    assert (e2 ∈ queue_entries w) as H2.
    { apply (waiting_in_elem gameMode). rewrite Hp. right. left. }
    destruct (matchPlayers_two gameMode now w e1 e2 Hq H1 H2 Hnd)
      as (w' & Hm & Hms & Hqs).
    exists e1, e2, rest, (new_match gameMode now w e1 e2), w'.
    split; [done|]. split; [done|]. split.
    { pose proof (waiting_in_NoDup gameMode w Hnd) as Hw.
      rewrite Hp in Hw. apply NoDup_cons in Hw as [Hw _].
      intros ->. apply Hw. left. }
    split; [done|]. split; [done|]. split; [done|].
    destruct (getNextGameNumber_spec w) as [Hg1 Hg2].
    split; [exact Hg1|]. split; [exact Hg2|]. done.
  - intros a b c Hp Ht.
    pose proof (queuedPlayers_three gameMode w a b c Hp Ht) as Hq.
    assert (forall e, e ∈ [a; b; c] ->
                      e ∈ queue_entries w /\ Entry.status e = waiting) as Hin.
    { intros e He. rewrite <- Hp in He.
      apply waiting_in_elem in He. tauto. }
    destruct (Hin a) as [Ha _]; [repeat constructor|].
    destruct (Hin b) as [Hb _]; [repeat constructor|].
    destruct (Hin c) as [Hc Hcw]; [repeat constructor|].
    destruct (matchPlayers_two gameMode now w a b Hq Ha Hb Hnd)
      as (w' & Hm & _ & Hqs).
    exists (new_match gameMode now w a b), w'.
    split; [done|]. split; [done|]. split; [done|]. split; [done|].
    simpl. rewrite Hqs.
    pose proof (mark_matched_elem (matches_seq w) a b _ a Ha) as Ha'.
    pose proof (mark_matched_elem (matches_seq w) a b _ b Hb) as Hb'.
    pose proof (mark_matched_elem (matches_seq w) a b _ c Hc) as Hc'.
    rewrite decide_True in Ha' by auto.
    rewrite decide_True in Hb' by auto.
    rewrite decide_False in Hc'.
    { done. }
    intros [-> | ->]; lia.
Qed.

Lemma matchPlayers_pairs_longest_waiting_witness :
  matchPlayers "standard" 9 world_one_match = (None, world_one_match) /\
  exists m w',
    matchPlayers "standard" 40 world_three = (Some m, w') /\
    Match.player1Id m = "a" /\ Match.player2Id m = "b" /\
    entry_t3 ∈ queue_entries w'.
Proof.
  split.
  - apply (matchPlayers_pairs_longest_waiting "standard" 9 world_one_match).
    + apply NoDup_nil_2.
    + simpl. lia.
  - destruct (matchPlayers_pairs_longest_waiting "standard" 40 world_three)
      as (_ & _ & H3).
    + unfold queue_ids_unique. by apply (bool_decide_unpack _).
    + destruct (H3 entry_t1 entry_t2 entry_t3)
        as (m & w' & Hm & H1 & H2 & _ & _ & _ & Hc & _).
      * change (waiting_in "standard" world_three)
          with [entry_t3; entry_t1; entry_t2].
        by rewrite (Permutation_app_comm [entry_t3] [entry_t1; entry_t2]).
      * simpl. lia.
      * by exists m, w'.
Defined.

End PairingFacts.
(** ** joinQueue *)

Module JoinFacts.
Import Elo Store Queue StoreFacts PairingFacts.

Implicit Types (w : World) (e : Entry.t) (playerId gameMode : string) (now : Z).

Lemma joinQueue_existing playerId gameMode now w e rest :
  waiting_of playerId w = e :: rest ->
  joinQueue playerId gameMode now w = (e, w).
Proof.
  intros H. unfold joinQueue, limit. fold (waiting_of playerId w).
  by rewrite H.
Qed.

(** The entry a player without a waiting entry gets, and the world before
    the pairing attempt. *)
Lemma joinQueue_fresh playerId gameMode now w :
  waiting_of playerId w = [] ->
  joinQueue playerId gameMode now w
  = (Entry.mk (queue_entries_seq w) playerId gameMode now waiting None,
     (matchPlayers gameMode now
        (emit playerId (queuing now)
           (redis_set playerId (queuing now)
              (insert_queue_entry playerId gameMode now w).2))).2).
Proof.
  intros H. unfold joinQueue, limit. fold (waiting_of playerId w).
  rewrite H. simpl. by destruct (matchPlayers _ _ _).
Qed.

(** [matchPlayers] leaves every entry as it is or matched. *)
Lemma matchPlayers_entries gameMode now w :
  exists f : Entry.t -> Entry.t,
    (forall e, f e = e \/ Entry.status (f e) = matched) /\
    queue_entries (matchPlayers gameMode now w).2 = f <$> queue_entries w.
Proof.
  unfold matchPlayers.
  destruct (queuedPlayers gameMode w) as [|e1 [|e2 t]]; simpl.
  - exists (fun e => e). split; [by left|]. symmetry. apply list_fmap_id.
  - exists (fun e => e). split; [by left|]. symmetry. apply list_fmap_id.
  - eexists. split; [|reflexivity]. intros e. simpl.
    case_decide; [by right | by left].
Qed.

Lemma filter_fmap_no_waiting playerId (f : Entry.t -> Entry.t)
    (rows : list Entry.t) :
  (forall e, f e = e \/ Entry.status (f e) = matched) ->
  filter (fun e => Entry.playerId e = playerId /\ Entry.status e = waiting) rows
  = [] ->
  filter (fun e => Entry.playerId e = playerId /\ Entry.status e = waiting)
    (f <$> rows) = [].
Proof.
  intros Hf. induction rows as [|x rows IH]; [done|].
  rewrite fmap_cons, !filter_cons. case_decide as Hx; [done|].
  intros Hnil. rewrite decide_False; [by apply IH|].
  intros [Hp Hs]. destruct (Hf x) as [Hfx | Hfx].
  - rewrite Hfx in Hp, Hs. tauto.
  - rewrite Hfx in Hs. discriminate.
Qed.

(** The waiting entries of a player after a join that inserted [entry]. *)
Lemma joinQueue_fresh_waiting playerId gameMode now w :
  waiting_of playerId w = [] ->
  let entry := Entry.mk (queue_entries_seq w) playerId gameMode now waiting None in
  let w1 := (joinQueue playerId gameMode now w).2 in
  (entry ∈ queue_entries w1 -> waiting_of playerId w1 = [entry]) /\
  (entry ∉ queue_entries w1 -> waiting_of playerId w1 = []).
Proof.
  intros Hnone entry w1. subst w1.
  rewrite (joinQueue_fresh _ _ _ _ Hnone).
  destruct (matchPlayers_entries gameMode now
              (emit playerId (queuing now)
                 (redis_set playerId (queuing now)
                    (insert_queue_entry playerId gameMode now w).2)))
    as (f & Hf & Hq).
  unfold waiting_of, where_ in *.
  simpl in Hq |- *. rewrite Hq. fold entry.
  rewrite fmap_app, filter_app.
  rewrite (filter_fmap_no_waiting playerId f _ Hf Hnone). simpl.
  destruct (Hf entry) as [He | He].
  - rewrite He. split; [|intros Hn; exfalso; apply Hn].
    + intros _. rewrite filter_cons, decide_True by done. done.
    + apply elem_of_app. right. by left.
  - split.
    + intros Hin. exfalso.
      apply elem_of_app in Hin as [Hin | Hin].
      * apply list_elem_of_fmap in Hin as (x & Hx & Hin).
        destruct (Hf x) as [Hfx | Hfx].
        -- rewrite Hfx in Hx. subst x.
           by apply (filter_nil_not_elem_of _ _ entry Hnone).
        -- rewrite <- Hx in Hfx. discriminate.
      * apply list_elem_of_singleton in Hin. rewrite <- Hin in He. discriminate.
    + intros _. rewrite filter_cons, decide_False; [done|].
      intros [_ Hs]. rewrite He in Hs. discriminate.
Qed.

(** C7, as stated, fails: "b" is waiting when "a" joins, so the first join
    of "a" ends with "a" matched, and the second join of "a" inserts a
    second entry: the two calls return two entries. *)
Lemma second_join_after_match_is_new :
  exists e1 w1 e2 w2,
    joinQueue "a" "standard" 5 world_b_waiting = (e1, w1) /\
    joinQueue "a" "standard" 6 w1 = (e2, w2) /\
    Entry.id e1 = 2%Z /\ Entry.id e2 = 3%Z /\ e1 <> e2 /\
    length (queue_entries w2) = 3%nat.
Proof.
  eexists _, _, _, _.
  split; [reflexivity|]. split; [reflexivity|].
  split; [reflexivity|]. split; [reflexivity|].
  split; [|reflexivity].
  intros H. apply (f_equal Entry.id) in H. discriminate H.
Qed.

(** C7 (amended): if the player has a waiting entry, [joinQueue] returns the
    first one and changes nothing.  So a second join right after a first
    returns the same entry, with no row added, whenever the entry the first
    join returned is still in the queue as returned (still waiting): always
    when the first join found the player waiting, and, when it inserted the
    entry, unless its own pairing attempt matched the entry; in particular
    when nobody else was waiting in the game mode.  A player with at most one
    waiting entry before then has exactly one after. *)
Theorem joinQueue_twice playerId gameMode now w :
  (forall e rest,
     waiting_of playerId w = e :: rest ->
     joinQueue playerId gameMode now w = (e, w)) /\
  (forall gameMode' now' e1 w1,
     joinQueue playerId gameMode now w = (e1, w1) ->
     e1 ∈ queue_entries w1 ->
     joinQueue playerId gameMode' now' w1 = (e1, w1) /\
     ((length (waiting_of playerId w) <= 1)%nat ->
      waiting_of playerId w1 = [e1])) /\
  (forall e1 w1,
     joinQueue playerId gameMode now w = (e1, w1) ->
     waiting_of playerId w = [] -> waiting_in gameMode w = [] ->
     e1 ∈ queue_entries w1).
Proof.
  split; [intros e rest; apply joinQueue_existing|]. split.
  - intros gameMode' now' e1 w1 Hj Hin.
    destruct (waiting_of playerId w) as [|e rest] eqn:Hw.
    + pose proof (joinQueue_fresh_waiting playerId gameMode now w Hw) as [H1 _].
      rewrite Hj in H1. simpl in H1.
      rewrite (joinQueue_fresh _ _ _ _ Hw) in Hj. injection Hj as <- Hw1.
      specialize (H1 Hin).
      split; [by apply joinQueue_existing with (rest := [])|done].
    + rewrite (joinQueue_existing _ _ _ _ _ _ Hw) in Hj. injection Hj as <- <-.
      split; [by apply joinQueue_existing with (rest := rest)|].
      rewrite Hw. simpl. intros Hl. destruct rest; [done | simpl in Hl; lia].
  - intros e1 w1 Hj Hw Hg.
    rewrite (joinQueue_fresh _ _ _ _ Hw) in Hj. injection Hj as <- <-.
    rewrite matchPlayers_short.
    + simpl. apply elem_of_app. right. by left.
    + unfold waiting_in, where_ in *. simpl.
      rewrite filter_app, Hg. simpl.
      rewrite filter_cons. case_decide; simpl; lia.
Qed.

Lemma joinQueue_twice_witness :
  (exists e1 w1,
     joinQueue "b" "standard" 7 world_b_waiting = (e1, w1) /\
     joinQueue "b" "standard" 8 w1 = (e1, w1) /\
     waiting_of "b" w1 = [e1]) /\
  (exists e1 w1,
     joinQueue "a" "standard" 7 world_nobody = (e1, w1) /\
     joinQueue "a" "vanilla" 8 w1 = (e1, w1) /\
     waiting_of "a" w1 = [e1]).
Proof.
  split.
  - destruct (joinQueue_twice "b" "standard" 7 world_b_waiting) as (H1 & H2 & _).
    specialize (H1 _ _ eq_refl).
    destruct (H2 "standard" 8%Z _ _ H1) as [Ha Hb].
    + by left.
    + eexists _, _. split; [exact H1|]. split; [exact Ha|].
      apply Hb. simpl. lia.
  - destruct (joinQueue_twice "a" "standard" 7 world_nobody) as (_ & H2 & H3).
    destruct (joinQueue "a" "standard" 7 world_nobody) as [e1 w1] eqn:E.
    specialize (H3 e1 w1 eq_refl eq_refl eq_refl).
    destruct (H2 "vanilla" 8%Z e1 w1 eq_refl H3) as [Ha Hb].
    exists e1, w1. split; [done|]. split; [exact Ha|].
    apply Hb. simpl. lia.
Defined.

End JoinFacts.
(** ** LeaderboardService *)

Module LeaderboardFacts.
Import Leaderboard.

Implicit Types (env : Env) (w : World) (queue_id user_id : string).

Ltac run := unfold try_catch, bind, call, gets, modify, ret, throw.

(** The handler of [getLeaderboard], when its read of the backup does not
    throw. *)
Lemma backup_handler env queue_id w :
  throws env select_backup = false ->
  (backup <- call env select_backup
               (gets (fun w => metadata w !! getBackupKey queue_id)) ;;
   ret (backup_response backup)) w
  = (Ok (backup_response (metadata w !! getBackupKey queue_id)), w).
Proof. intros H. run. by rewrite H. Qed.

(** A refresh whose fetch throws answers from the backup or throws; it
    changes nothing. *)
Lemma refreshLeaderboard_source_down env queue_id w :
  throws env neatqueue_get_leaderboard = true ->
  refreshLeaderboard env queue_id w
  = if throws env select_backup_in_refresh then (Err, w)
    else (Ok (backup_response (metadata w !! getBackupKey queue_id)), w).
Proof.
  intros H. unfold refreshLeaderboard. run. rewrite H.
  by destruct (throws env select_backup_in_refresh).
Qed.

Lemma getLeaderboard_hit env queue_id w ttl entries :
  throws env redis_get = false ->
  raw w !! getRawKey queue_id = Some (ttl, entries) ->
  getLeaderboard env queue_id w = (Ok (mkResponse entries false), w).
Proof. intros H Hc. unfold getLeaderboard. run. by rewrite H, Hc. Qed.

Lemma getLeaderboard_miss env queue_id w :
  throws env redis_get = false ->
  raw w !! getRawKey queue_id = None ->
  getLeaderboard env queue_id w
  = try_catch (refreshLeaderboard env queue_id)
      (backup <- call env select_backup
                   (gets (fun w => metadata w !! getBackupKey queue_id)) ;;
       ret (backup_response backup)) w.
Proof.
  intros H Hc. unfold getLeaderboard. unfold try_catch at 1 2.
  unfold bind at 1. unfold call at 1. rewrite H. unfold gets at 1.
  by rewrite Hc.
Qed.

Lemma getLeaderboard_cache_down env queue_id w :
  throws env redis_get = true ->
  throws env select_backup = false ->
  getLeaderboard env queue_id w
  = (Ok (backup_response (metadata w !! getBackupKey queue_id)), w).
Proof.
  intros H Hb. unfold getLeaderboard. unfold try_catch at 1.
  unfold bind at 1. unfold call at 1. rewrite H. unfold throw.
  by apply backup_handler.
Qed.

Lemma getLeaderboard_returns env queue_id w :
  throws env select_backup = false ->
  exists r w', getLeaderboard env queue_id w = (Ok r, w').
Proof.
  intros Hb. unfold getLeaderboard. unfold try_catch at 1.
  match goal with |- context [match ?b w with _ => _ end] =>
    destruct (b w) as [[r|] w'] end.
  - by exists r, w'.
  - rewrite (backup_handler _ _ _ Hb). eauto.
Qed.

Lemma pipeline_entries_fields queue_id (l : list Entry.t) w :
  raw (foldl (pipeline_entry queue_id) w l) = raw w /\
  metadata (foldl (pipeline_entry queue_id) w l) = metadata w /\
  leaderboardSnapshots (foldl (pipeline_entry queue_id) w l)
  = leaderboardSnapshots w.
Proof.
  revert w. induction l as [|x l IH]; intros w; [done|].
  simpl. destruct (IH (pipeline_entry queue_id w x)) as (-> & -> & ->). done.
Qed.

Lemma pipeline_fields queue_id (fresh : list Entry.t) w :
  raw (pipeline queue_id fresh w) = <[getRawKey queue_id := (180%Z, fresh)]> (raw w) /\
  metadata (pipeline queue_id fresh w) = metadata w /\
  leaderboardSnapshots (pipeline queue_id fresh w) = leaderboardSnapshots w.
Proof.
  unfold pipeline.
  match goal with |- context [foldl _ ?w0 fresh] =>
    destruct (pipeline_entries_fields queue_id fresh w0) as (-> & -> & ->)
  end.
  done.
Qed.

(** A refresh in which nothing throws and whose snapshot key is free gives
    the fresh ranking, caches it and makes it the backup. *)
Lemma refreshLeaderboard_ok env queue_id w :
  (forall c, c <> redis_get -> c <> redis_hgetall -> throws env c = false) ->
  metadata w !! getSnapshotKey queue_id (replace_colon_dot (clock env)) = None ->
  exists w',
    refreshLeaderboard env queue_id w
    = (Ok (mkResponse (neatqueue env queue_id) false), w') /\
    raw w' !! getRawKey queue_id = Some (180%Z, neatqueue env queue_id) /\
    metadata w' !! getBackupKey queue_id
    = Some (mkMeta (neatqueue env queue_id) (clock env) None).
Proof.
  intros Hok Hfree. unfold refreshLeaderboard. run.
  rewrite !Hok by discriminate. unfold insert_metadata. simpl.
  destruct (pipeline_fields queue_id (neatqueue env queue_id) w)
    as (Hraw & Hmeta & _).
  rewrite Hmeta, Hfree. simpl.
  eexists. split; [reflexivity|]. simpl.
  rewrite Hraw, !lookup_insert_eq. done.
Qed.

(** C5, as stated, fails: when the read of the cache throws and the read
    of the backup record throws too, [getLeaderboard] throws. *)
Lemma getLeaderboard_throws :
  getLeaderboard env_all_down "q" world_backup = (Err, world_backup).
Proof. reflexivity. Qed.

(** C5 (amended): [getLeaderboard] throws only if its read of the backup
    record throws.  If that read does not throw: a cache hit returns the
    cached ranking with isStale false; on a miss it refreshes, and a refresh
    in which nothing throws returns the fresh ranking with isStale false;
    if the cache read throws, or the cache misses and the fetch of the
    refresh throws, it returns the data of the backup record with isStale
    true, and [] with isStale true if there is no backup record. *)
Theorem getLeaderboard_fallback env queue_id w :
  throws env select_backup = false ->
  (exists r w', getLeaderboard env queue_id w = (Ok r, w')) /\
  (forall ttl entries,
     throws env redis_get = false ->
     raw w !! getRawKey queue_id = Some (ttl, entries) ->
     getLeaderboard env queue_id w = (Ok (mkResponse entries false), w)) /\
  (throws env redis_get = false ->
   raw w !! getRawKey queue_id = None ->
   (forall c, c <> redis_get -> c <> redis_hgetall -> throws env c = false) ->
   metadata w !! getSnapshotKey queue_id (replace_colon_dot (clock env)) = None ->
   exists w',
     getLeaderboard env queue_id w
     = (Ok (mkResponse (neatqueue env queue_id) false), w') /\
     raw w' !! getRawKey queue_id = Some (180%Z, neatqueue env queue_id)) /\
  (throws env redis_get = true \/
   (raw w !! getRawKey queue_id = None /\
    throws env neatqueue_get_leaderboard = true) ->
   (forall backup,
      metadata w !! getBackupKey queue_id = Some backup ->
      getLeaderboard env queue_id w
      = (Ok (mkResponse (meta_data backup) true), w)) /\
   (metadata w !! getBackupKey queue_id = None ->
    getLeaderboard env queue_id w = (Ok (mkResponse [] true), w))).
Proof.
  intros Hb. split; [by apply getLeaderboard_returns|].
  split; [intros ttl entries; by apply getLeaderboard_hit|]. split.
  - intros Hg Hmiss Hok Hfree.
    destruct (refreshLeaderboard_ok env queue_id w Hok Hfree) as (w' & Hr & Hraw & _).
    exists w'. split; [|done].
    rewrite (getLeaderboard_miss _ _ _ Hg Hmiss). unfold try_catch.
    by rewrite Hr.
  - intros Hdown.
    assert (getLeaderboard env queue_id w
            = (Ok (backup_response (metadata w !! getBackupKey queue_id)), w))
      as Hres.
    { destruct (throws env redis_get) eqn:Hg.
      - by apply getLeaderboard_cache_down.
      - destruct Hdown as [? | [Hmiss Hs]]; [done|].
        rewrite (getLeaderboard_miss _ _ _ Hg Hmiss). unfold try_catch.
        rewrite (refreshLeaderboard_source_down _ _ _ Hs).
        destruct (throws env select_backup_in_refresh); [|done].
        by apply backup_handler. }
    rewrite Hres. split.
    + by intros backup ->.
    + by intros ->.
Qed.

Lemma getLeaderboard_fallback_witness :
  getLeaderboard env_source_down "q" world_backup
  = (Ok (mkResponse [entry_u] true), world_backup) /\
  getLeaderboard env_source_down "q" world_empty
  = (Ok (mkResponse [] true), world_empty).
Proof.
  split.
  - destruct (getLeaderboard_fallback env_source_down "q" world_backup)
      as (_ & _ & _ & H); [reflexivity|].
    destruct H as [H _]; [right; split; reflexivity|].
    apply (H (mkMeta [entry_u] "2025-01-01T00:00:00.000Z" None)).
    reflexivity.
  - destruct (getLeaderboard_fallback env_source_down "q" world_empty)
      as (_ & _ & _ & H); [reflexivity|].
    destruct H as [_ H]; [right; split; reflexivity|].
    apply H. reflexivity.
Defined.

Lemma getUserRank_returns env queue_id user_id w :
  exists r w', getUserRank env queue_id user_id w = (Ok r, w').
Proof.
  unfold getUserRank. unfold try_catch at 1.
  match goal with |- context [match ?b w with _ => _ end] =>
    destruct (b w) as [[r|] w'] end.
  - by exists r, w'.
  - by exists None, w'.
Qed.

(** What [getUserRank] does: the reply of [hgetall] is an object, so the
    refresh and the backup record are never reached. *)
Lemma getUserRank_unfold env queue_id user_id w :
  getUserRank env queue_id user_id w
  = if throws env redis_hgetall then (Ok None, w)
    else (Ok (Some (mkUserRank
                      (from_hash (user w !! getUserKey user_id queue_id))
                      false)), w).
Proof.
  unfold getUserRank, truthy. run. by destruct (throws env redis_hgetall).
Qed.

(** C6, as stated, fails: the user "u" is in the ranking source and in the
    backup record, the read of the user hash throws, and [getUserRank]
    returns null. *)
Lemma getUserRank_null_though_present :
  find_user "u" (neatqueue env_hgetall_down "q") = Some entry_u /\
  (exists backup,
     metadata world_backup !! getBackupKey "q" = Some backup /\
     find_user "u" (meta_data backup) = Some entry_u) /\
  getUserRank env_hgetall_down "q" "u" world_backup = (Ok None, world_backup).
Proof.
  split; [reflexivity|]. split; [|reflexivity].
  eexists. split; reflexivity.
Qed.

(** The user hash missed: the empty reply is taken for a hit.  Nothing is
    refreshed, the backup record is not read, and the answer has no field
    of an entry and is not flagged stale. *)
Lemma getUserRank_miss_taken_for_hit :
  user world_backup !! getUserKey "u" "q" = None /\
  find_user "u" (neatqueue env_up "q") = Some entry_u /\
  getUserRank env_up "q" "u" world_backup
  = (Ok (Some (mkUserRank rank_no_fields false)), world_backup).
Proof. repeat split; reflexivity. Qed.

(** C6 (amended): [getUserRank] never throws.  If the read of the user hash
    throws it returns null.  If the hash is there it returns that entry with
    isStale false, and changes nothing. *)
Theorem getUserRank_cache_first env queue_id user_id w :
  (exists r w', getUserRank env queue_id user_id w = (Ok r, w')) /\
  (throws env redis_hgetall = true ->
   getUserRank env queue_id user_id w = (Ok None, w)) /\
  (throws env redis_hgetall = false ->
   forall entry q,
     user w !! getUserKey user_id queue_id = Some (entry, q) ->
     getUserRank env queue_id user_id w
     = (Ok (Some (mkUserRank (rank_entry entry) false)), w)).
Proof.
  split; [apply getUserRank_returns|]. rewrite getUserRank_unfold. split.
  - by intros ->.
  - intros -> entry q ->. done.
Qed.

Lemma getUserRank_cache_first_witness :
  getUserRank env_hgetall_down "q" "u" world_backup = (Ok None, world_backup) /\
  getUserRank env_source_down "q" "u" world_hash
  = (Ok (Some (mkUserRank (rank_entry entry_u) false)), world_hash).
Proof.
  split.
  - destruct (getUserRank_cache_first env_hgetall_down "q" "u" world_backup)
      as (_ & H & _).
    apply H. reflexivity.
  - destruct (getUserRank_cache_first env_source_down "q" "u" world_hash)
      as (_ & _ & H).
    apply (H eq_refl entry_u "q"). reflexivity.
Defined.

End LeaderboardFacts.

(** * Further properties of the code *)

(** ** The store of QueueService under its operations *)

Module QueueSteps.
Import Elo Store Queue QueueQueries StoreFacts PairingFacts.

Implicit Types (w : World) (e : Entry.t) (m : Match.t) (now : Z).
Implicit Types (playerId gameMode : string) (op : Op) (ops : list Op).

Lemma matchPlayers_cases gameMode now w :
  ((length (waiting_in gameMode w) < 2)%nat /\
   matchPlayers gameMode now w = (None, w)) \/
  (exists e1 e2 rest w',
     waiting_in gameMode w ≡ₚ e1 :: e2 :: rest /\
     paired gameMode now w e1 e2 w').
Proof.
  destruct (decide (length (waiting_in gameMode w) < 2)%nat) as [Hlt | Hge].
  - left. split; [done|]. by apply matchPlayers_short.
  - right.
    destruct (queuedPlayers_two gameMode w) as (e1 & e2 & rest & _ & Hq & Hp & _);
      [lia|].
    exists e1, e2, rest. unfold paired, matchPlayers. rewrite Hq. simpl.
    eexists. split; [done|]. split; [done|]. split; [reflexivity|]. simpl.
    rewrite <- app_assoc. done.
Qed.

(** Rows of a table after an update keep a column the update does not
    set. *)
Lemma fmap_update_keeps {A B} (key : A -> B) (P : A -> Prop)
    `{!forall x, Decision (P x)} (f : A -> A) (l : list A) :
  (forall x, key (f x) = key x) ->
  key <$> ((fun x => if decide (P x) then f x else x) <$> l) = key <$> l.
Proof.
  intros Hk. rewrite <- list_fmap_compose. apply list_fmap_ext.
  intros i x _. simpl. case_decide; [apply Hk | done].
Qed.

Lemma Forall_update {A} (Q : A -> Prop) (P : A -> Prop)
    `{!forall x, Decision (P x)} (f : A -> A) (l : list A) :
  (forall x, Q x -> Q (f x)) ->
  Forall Q l -> Forall Q ((fun x => if decide (P x) then f x else x) <$> l).
Proof.
  intros Hf Hl. apply Forall_fmap. eapply Forall_impl; [exact Hl|].
  intros x Hx. simpl. case_decide; [by apply Hf | done].
Qed.

Lemma filter_length_le {A} (P Q : A -> Prop) `{!forall x, Decision (P x)}
    `{!forall x, Decision (Q x)} (l : list A) :
  (forall x, P x -> Q x) -> (length (filter P l) <= length (filter Q l))%nat.
Proof.
  intros HPQ. induction l as [|x l IH]; [done|].
  rewrite !filter_cons. destruct (decide (P x)) as [HP | HP].
  - rewrite decide_True by auto. simpl. lia.
  - case_decide; simpl; lia.
Qed.

(** The waiting entries that satisfy [Q], after some entries were set to
    matched or cancelled: those that were not touched. *)
Lemma waiting_after_update (Q M : Entry.t -> Prop)
    `{!forall e, Decision (Q e)} `{!forall e, Decision (M e)}
    (f : Entry.t -> Entry.t) (l : list Entry.t) :
  (forall e, Entry.status (f e) <> waiting) ->
  filter (fun e => Q e /\ Entry.status e = waiting)
    ((fun e => if decide (M e) then f e else e) <$> l)
  = filter (fun e => ~ M e) (filter (fun e => Q e /\ Entry.status e = waiting) l).
Proof.
  intros Hf. induction l as [|x l IH]; [done|].
  rewrite fmap_cons, !filter_cons. destruct (decide (M x)) as [HM | HM].
  - rewrite decide_False by (intros [_ Hs]; by apply (Hf x)).
    case_decide; [|done]. rewrite filter_cons, decide_False by tauto. done.
  - case_decide; [|done]. rewrite filter_cons, decide_True by done.
    by rewrite IH.
Qed.

Lemma filter_not_marked_length (e1 e2 : Entry.t) (l rest : list Entry.t) :
  l ≡ₚ e1 :: e2 :: rest ->
  (length (filter (fun e => ~ marked e1 e2 e) l) <= length rest)%nat.
Proof.
  intros Hp. rewrite Hp, !filter_cons.
  rewrite !decide_False by (unfold marked; tauto).
  apply length_filter.
Qed.

(** After a pairing, the waiting entries of a mode and of a player. *)
Lemma paired_waiting_in gameMode now w e1 e2 w' g :
  paired gameMode now w e1 e2 w' ->
  waiting_in g w' = filter (fun e => ~ marked e1 e2 e) (waiting_in g w).
Proof.
  intros (_ & _ & _ & _ & Hq & _). unfold waiting_in, where_. rewrite Hq.
  by apply (waiting_after_update (fun e => Entry.gameMode e = g)).
Qed.

Lemma paired_waiting_of gameMode now w e1 e2 w' p :
  paired gameMode now w e1 e2 w' ->
  waiting_of p w' = filter (fun e => ~ marked e1 e2 e) (waiting_of p w).
Proof.
  intros (_ & _ & _ & _ & Hq & _). unfold waiting_of, where_. rewrite Hq.
  by apply (waiting_after_update (fun e => Entry.playerId e = p)).
Qed.

(** [matchPlayers] takes the waiting entries of nobody and of no mode up. *)
Lemma matchPlayers_waiting_le gameMode now w :
  (forall p, (length (waiting_of p (matchPlayers gameMode now w).2)
              <= length (waiting_of p w))%nat) /\
  (forall g, (length (waiting_in g (matchPlayers gameMode now w).2)
              <= length (waiting_in g w))%nat) /\
  (length (waiting_in gameMode (matchPlayers gameMode now w).2)
   <= length (waiting_in gameMode w) - 2
   \/ (length (waiting_in gameMode w) < 2)%nat)%nat.
Proof.
  destruct (matchPlayers_cases gameMode now w)
    as [[Hlt ->] | (e1 & e2 & rest & w' & Hp & Hpair)]; simpl.
  - repeat split; auto.
  - pose proof Hpair as (_ & -> & _). simpl. split; [|split].
    + intros p. rewrite (paired_waiting_of _ _ _ _ _ _ p Hpair).
      apply length_filter.
    + intros g. rewrite (paired_waiting_in _ _ _ _ _ _ g Hpair).
      apply length_filter.
    + left. rewrite (paired_waiting_in _ _ _ _ _ _ gameMode Hpair).
      pose proof (filter_not_marked_length e1 e2 _ rest Hp) as Hl.
      apply Permutation_length in Hp. simpl in Hp. lia.
Qed.

(** The fields of the world after each operation. *)
Lemma leaveQueue_world playerId w :
  let w' := (leaveQueue playerId w).2 in
  queue_entries w'
  = ((fun e => if decide (Entry.playerId e = playerId /\ Entry.status e = waiting)
               then set_cancelled e else e) <$> queue_entries w) /\
  queue_entries_seq w' = queue_entries_seq w /\
  matches w' = matches w /\ matches_seq w' = matches_seq w /\
  player_ratings w' = player_ratings w.
Proof.
  unfold leaveQueue, update_where.
  destruct (set_cancelled <$> filter _ (queue_entries w)); simpl; done.
Qed.

Lemma leaveQueue_result playerId w :
  (leaveQueue playerId w).1 = bool_decide (waiting_of playerId w <> []).
Proof.
  unfold leaveQueue, update_where, waiting_of, where_.
  destruct (filter _ (queue_entries w)).
  - symmetry. apply bool_decide_eq_false_2. auto.
  - symmetry. by apply bool_decide_eq_true_2.
Qed.

Lemma completeMatch_world users matchId winnerId now w :
  let w' := world_of (completeMatch users matchId winnerId now w) in
  w' = w \/
  (queue_entries w' = queue_entries w /\
   queue_entries_seq w' = queue_entries_seq w /\
   matches_seq w' = matches_seq w /\
   matches w'
   = ((fun m => if decide (Match.id m = matchId)
                then set_completed now winnerId m else m) <$> matches w)).
Proof.
  unfold completeMatch, update_where.
  destruct (set_completed now winnerId <$> filter _ (matches w)) as [|m rest];
    simpl; [by right|].
  destruct (winner_allowed users winnerId); [|by left].
  right. by destruct (updateRatings _ _ _ _ _ _).
Qed.

Lemma run_joinQueue playerId gameMode now w :
  run (op_joinQueue playerId gameMode now) w
  = match waiting_of playerId w with
    | [] => (matchPlayers gameMode now (joined playerId gameMode now w)).2
    | _ :: _ => w
    end.
Proof.
  simpl. destruct (waiting_of playerId w) as [|e rest] eqn:Hw.
  - by rewrite (JoinFacts.joinQueue_fresh _ _ _ _ Hw).
  - by rewrite (JoinFacts.joinQueue_existing _ _ _ _ _ _ Hw).
Qed.

Lemma joined_waiting_of playerId gameMode now w p :
  waiting_of p (joined playerId gameMode now w)
  = waiting_of p w
    ++ (if decide (playerId = p)
        then [Entry.mk (queue_entries_seq w) playerId gameMode now waiting None]
        else []).
Proof.
  unfold waiting_of, where_. simpl. rewrite filter_app. f_equal.
  rewrite filter_cons, filter_nil. simpl. repeat case_decide; tauto || done.
Qed.

Lemma joined_waiting_in playerId gameMode now w g :
  waiting_in g (joined playerId gameMode now w)
  = waiting_in g w
    ++ (if decide (gameMode = g)
        then [Entry.mk (queue_entries_seq w) playerId gameMode now waiting None]
        else []).
Proof.
  unfold waiting_in, where_. simpl. rewrite filter_app. f_equal.
  rewrite filter_cons, filter_nil. simpl. repeat case_decide; tauto || done.
Qed.

Lemma leaveQueue_waiting playerId w :
  (forall p, waiting_of p (leaveQueue playerId w).2
             = filter (fun e => ~ (Entry.playerId e = playerId /\
                                   Entry.status e = waiting))
                 (waiting_of p w)) /\
  (forall g, waiting_in g (leaveQueue playerId w).2
             = filter (fun e => ~ (Entry.playerId e = playerId /\
                                   Entry.status e = waiting))
                 (waiting_in g w)).
Proof.
  destruct (leaveQueue_world playerId w) as (Hq & _).
  split; intros x; unfold waiting_of, waiting_in, where_; rewrite Hq.
  - by apply (waiting_after_update (fun e => Entry.playerId e = x)).
  - by apply (waiting_after_update (fun e => Entry.gameMode e = x)).
Qed.

(** *** The primary keys *)

Lemma NoDup_snoc_fresh (l : list Z) (x : Z) :
  NoDup l -> Forall (fun y => (y < x)%Z) l -> NoDup (l ++ [x]).
Proof.
  intros Hnd Hlt. apply NoDup_app. split; [done|]. split.
  - intros y Hy ->%list_elem_of_singleton.
    rewrite Forall_forall in Hlt. specialize (Hlt _ Hy). lia.
  - apply NoDup_singleton.
Qed.

Lemma keys_inv_joined playerId gameMode now w :
  keys_inv w -> keys_inv (joined playerId gameMode now w).
Proof.
  intros (Hq & Hqs & Hm & Hms). unfold keys_inv. simpl.
  split; [|split; [|done]].
  - rewrite fmap_app. simpl. apply NoDup_snoc_fresh; [done|].
    by apply Forall_fmap.
  - apply Forall_app. split.
    + eapply Forall_impl; [exact Hqs|]. simpl. intros; lia.
    + repeat constructor. simpl. lia.
Qed.

Lemma keys_inv_paired gameMode now w e1 e2 w' :
  paired gameMode now w e1 e2 w' -> keys_inv w -> keys_inv w'.
Proof.
  intros (_ & _ & Hms' & Hseq' & Hq' & Hqseq' & _) (Hq & Hqs & Hm & Hms).
  unfold keys_inv. rewrite Hms', Hseq', Hq', Hqseq'.
  split; [|split; [|split]].
  - by rewrite (fmap_update_keeps Entry.id).
  - by apply Forall_update.
  - rewrite fmap_app. simpl. apply NoDup_snoc_fresh; [done|].
    by apply Forall_fmap.
  - apply Forall_app. split.
    + eapply Forall_impl; [exact Hms|]. simpl. intros; lia.
    + repeat constructor. simpl. lia.
Qed.

Lemma keys_inv_matchPlayers gameMode now w :
  keys_inv w -> keys_inv (matchPlayers gameMode now w).2.
Proof.
  intros Hk. destruct (matchPlayers_cases gameMode now w)
    as [[_ ->] | (e1 & e2 & rest & w' & _ & Hpair)]; [done|].
  pose proof Hpair as (_ & -> & _). by apply (keys_inv_paired _ _ _ _ _ _ Hpair).
Qed.

Lemma keys_inv_step op w : keys_inv w -> keys_inv (run op w).
Proof.
  intros Hk. destruct op as [p g now | p | g now | users mid win now].
  - rewrite run_joinQueue. destruct (waiting_of p w); [|done].
    by apply keys_inv_matchPlayers, keys_inv_joined.
  - destruct Hk as (Hq & Hqs & Hm & Hms).
    destruct (leaveQueue_world p w) as (Hq' & Hqs' & Hm' & Hms' & _).
    unfold keys_inv, run. rewrite Hq', Hqs', Hm', Hms'.
    split; [|split; [|done]].
    + by rewrite (fmap_update_keeps Entry.id).
    + by apply Forall_update.
  - by apply keys_inv_matchPlayers.
  - unfold run.
    destruct (completeMatch_world users mid win now w)
      as [-> | (Hq' & Hqs' & Hms' & Hm')]; [done|].
    destruct Hk as (Hq & Hqs & Hm & Hms).
    unfold keys_inv. rewrite Hq', Hqs', Hm', Hms'.
    split; [done|]. split; [done|]. split.
    + by rewrite (fmap_update_keeps Match.id).
    + by apply Forall_update.
Qed.

(** *** Waiting entries *)

Lemma one_waiting_joined playerId gameMode now w :
  waiting_of playerId w = [] -> one_waiting w ->
  one_waiting (joined playerId gameMode now w).
Proof.
  intros Hnone Hone p. rewrite joined_waiting_of.
  case_decide as Hp.
  - subst p. by rewrite Hnone.
  - rewrite app_nil_r. apply Hone.
Qed.

Lemma one_waiting_step op w : one_waiting w -> one_waiting (run op w).
Proof.
  intros Hone. destruct op as [p g now | p | g now | users mid win now].
  - rewrite run_joinQueue. destruct (waiting_of p w) eqn:Hw; [|done].
    intros q.
    destruct (matchPlayers_waiting_le g now (joined p g now w)) as (H & _).
    specialize (H q).
    pose proof (one_waiting_joined p g now w Hw Hone q). lia.
  - intros q. simpl. destruct (leaveQueue_waiting p w) as [H _].
    rewrite H. pose proof (length_filter
      (fun e => ~ (Entry.playerId e = p /\ Entry.status e = waiting))
      (waiting_of q w)).
    specialize (Hone q). lia.
  - intros q. simpl.
    destruct (matchPlayers_waiting_le g now w) as (H & _).
    specialize (H q). specialize (Hone q). lia.
  - intros q. simpl. unfold waiting_of.
    destruct (completeMatch_world users mid win now w) as [-> | (-> & _)];
      apply Hone.
Qed.

Lemma mode_one_waiting_step op w :
  mode_one_waiting w -> mode_one_waiting (run op w).
Proof.
  intros Hone. destruct op as [p g now | p | g now | users mid win now].
  - rewrite run_joinQueue. destruct (waiting_of p w) eqn:Hw; [|done].
    intros g'.
    destruct (matchPlayers_waiting_le g now (joined p g now w)) as (_ & H & H').
    specialize (H g'). rewrite joined_waiting_in in H.
    rewrite joined_waiting_in in H'.
    destruct (decide (g = g')) as [<- | Hg].
    + rewrite decide_True in H' by done.
      rewrite length_app in H, H'. simpl in H, H'. specialize (Hone g).
      destruct H' as [H' | H']; lia.
    + rewrite app_nil_r in H. specialize (Hone g'). lia.
  - intros g. simpl. destruct (leaveQueue_waiting p w) as [_ H].
    rewrite H. pose proof (length_filter
      (fun e => ~ (Entry.playerId e = p /\ Entry.status e = waiting))
      (waiting_in g w)).
    specialize (Hone g). lia.
  - intros g'. simpl.
    destruct (matchPlayers_waiting_le g now w) as (_ & H & _).
    specialize (H g'). specialize (Hone g'). lia.
  - intros g. simpl. unfold waiting_in.
    destruct (completeMatch_world users mid win now w) as [-> | (-> & _)];
      apply Hone.
Qed.

(** *** Matches *)

Lemma game_number_fresh w :
  Forall (fun x => (x < getNextGameNumber w)%Z) (Match.gameNumber <$> matches w).
Proof.
  destruct (getNextGameNumber_spec w) as [Hnil Hcons].
  destruct (matches w) as [|m0 l] eqn:Hm; [constructor|].
  destruct Hcons as (x & _ & -> & Hmax); [done|].
  apply Forall_fmap, Forall_forall. intros y Hy. simpl.
  specialize (Hmax y Hy). lia.
Qed.

Lemma game_numbers_matchPlayers gameMode now w :
  game_numbers_unique w -> game_numbers_unique (matchPlayers gameMode now w).2.
Proof.
  intros Hu. destruct (matchPlayers_cases gameMode now w)
    as [[_ ->] | (e1 & e2 & rest & w' & _ & Hpair)]; [done|].
  destruct Hpair as (_ & -> & Hms & _). simpl.
  unfold game_numbers_unique. rewrite Hms, fmap_app. simpl.
  apply NoDup_snoc_fresh; [done | apply game_number_fresh].
Qed.

Lemma game_numbers_step op w :
  game_numbers_unique w -> game_numbers_unique (run op w).
Proof.
  intros Hu. destruct op as [p g now | p | g now | users mid win now].
  - rewrite run_joinQueue. destruct (waiting_of p w); [|done].
    by apply game_numbers_matchPlayers.
  - unfold game_numbers_unique, run.
    by destruct (leaveQueue_world p w) as (_ & _ & -> & _).
  - by apply game_numbers_matchPlayers.
  - unfold game_numbers_unique, run.
    destruct (completeMatch_world users mid win now w)
      as [-> | (_ & _ & _ & ->)]; [done|].
    by rewrite (fmap_update_keeps Match.gameNumber).
Qed.

(** Two entries that [matchPlayers] takes are of two players, when nobody
    waits twice. *)
Lemma paired_players_differ gameMode w e1 e2 rest :
  one_waiting w ->
  waiting_in gameMode w ≡ₚ e1 :: e2 :: rest ->
  Entry.playerId e1 <> Entry.playerId e2.
Proof.
  intros Hone Hp Heq. specialize (Hone (Entry.playerId e1)).
  assert (2 <= length (filter (fun e => Entry.playerId e = Entry.playerId e1)
                         (waiting_in gameMode w)))%nat as H2.
  { rewrite Hp, !filter_cons, !decide_True by done. simpl. lia. }
  unfold waiting_in, waiting_of, where_ in *.
  rewrite list_filter_filter in H2.
  pose proof (filter_length_le
    (fun e => Entry.playerId e = Entry.playerId e1 /\
              Entry.gameMode e = gameMode /\ Entry.status e = waiting)
    (fun e => Entry.playerId e = Entry.playerId e1 /\ Entry.status e = waiting)
    (queue_entries w)) as Hle.
  assert (forall x : Entry.t,
    Entry.playerId x = Entry.playerId e1 /\
    Entry.gameMode x = gameMode /\ Entry.status x = waiting ->
    Entry.playerId x = Entry.playerId e1 /\ Entry.status x = waiting) as Himp
    by tauto.
  specialize (Hle Himp). lia.
Qed.

Lemma players_differ_matchPlayers gameMode now w :
  one_waiting w -> players_differ w ->
  players_differ (matchPlayers gameMode now w).2.
Proof.
  intros Hone Hd. destruct (matchPlayers_cases gameMode now w)
    as [[_ ->] | (e1 & e2 & rest & w' & Hp & Hpair)]; [done|].
  destruct Hpair as (_ & -> & Hms & _). simpl.
  unfold players_differ. rewrite Hms. apply Forall_app. split; [done|].
  repeat constructor. simpl. by eapply paired_players_differ.
Qed.

Lemma players_differ_step op w :
  one_waiting w -> players_differ w -> players_differ (run op w).
Proof.
  intros Hone Hd. destruct op as [p g now | p | g now | users mid win now].
  - rewrite run_joinQueue. destruct (waiting_of p w) eqn:Hw; [|done].
    apply players_differ_matchPlayers; [by apply one_waiting_joined | done].
  - unfold players_differ, run.
    by destruct (leaveQueue_world p w) as (_ & _ & -> & _).
  - by apply players_differ_matchPlayers.
  - unfold players_differ, run.
    destruct (completeMatch_world users mid win now w)
      as [-> | (_ & _ & _ & ->)]; [done|].
    by apply Forall_update.
Qed.

(** *** Matched entries and their match *)

Lemma refers_to_match_mono w w' e :
  (forall m, m ∈ matches w ->
     exists m', m' ∈ matches w' /\ Match.id m' = Match.id m /\
                Match.gameMode m' = Match.gameMode m /\
                Match.player1Id m' = Match.player1Id m /\
                Match.player2Id m' = Match.player2Id m) ->
  refers_to_match w e -> refers_to_match w' e.
Proof.
  intros Hsub Hr Hs. destruct (Hr Hs) as (m & Hm & Hid & Hg & Hp).
  destruct (Hsub m Hm) as (m' & Hm' & Hid' & Hg' & H1 & H2).
  exists m'. rewrite Hid', Hg', H1, H2. done.
Qed.

Lemma matched_refer_matchPlayers gameMode now w :
  keys_inv w -> matched_refer w ->
  matched_refer (matchPlayers gameMode now w).2.
Proof.
  intros Hk Hr. destruct (matchPlayers_cases gameMode now w)
    as [[_ ->] | (e1 & e2 & rest & w' & Hp & Hpair)]; [done|].
  pose proof Hpair as (_ & -> & Hms & _ & Hq & _). simpl.
  destruct Hk as (Hnd & _).
  assert (forall e, e ∈ [e1; e2] ->
            e ∈ queue_entries w /\ Entry.gameMode e = gameMode) as Hin.
  { intros e He. assert (e ∈ waiting_in gameMode w) as Hw.
    { rewrite Hp. apply elem_of_cons in He as [-> | He]; [left|].
      apply list_elem_of_singleton in He as ->. right. left. }
    apply waiting_in_elem in Hw. tauto. }
  destruct (Hin e1) as [H1 Hg1]; [repeat constructor|].
  destruct (Hin e2) as [H2 Hg2]; [repeat constructor|].
  unfold matched_refer. rewrite Hq. apply Forall_fmap, Forall_forall.
  intros e He. simpl. case_decide as Hmark.
  - intros _. exists (new_match gameMode now w e1 e2).
    split; [rewrite Hms; apply elem_of_app; right; left|].
    split; [done|]. simpl.
    destruct Hmark as [Hid | Hid];
      apply (NoDup_fmap_eq Entry.id (queue_entries w)) in Hid; try done;
      subst e; auto.
  - unfold matched_refer in Hr. rewrite Forall_forall in Hr.
    apply (refers_to_match_mono w); [|by apply Hr].
    intros m Hm. exists m. rewrite Hms. split; [|done].
    apply elem_of_app. by left.
Qed.

Lemma matched_refer_joined playerId gameMode now w :
  matched_refer w -> matched_refer (joined playerId gameMode now w).
Proof.
  intros Hr. unfold matched_refer. simpl. apply Forall_app. split.
  - eapply Forall_impl; [exact Hr|]. intros e He.
    by apply (refers_to_match_mono w); [intros m Hm; exists m|].
  - repeat constructor. intros Hs. discriminate Hs.
Qed.

Lemma matched_refer_step op w :
  keys_inv w -> matched_refer w -> matched_refer (run op w).
Proof.
  intros Hk Hr. destruct op as [p g now | p | g now | users mid win now].
  - rewrite run_joinQueue. destruct (waiting_of p w); [|done].
    apply matched_refer_matchPlayers;
      [by apply keys_inv_joined | by apply matched_refer_joined].
  - destruct (leaveQueue_world p w) as (Hq & _ & Hm & _).
    unfold matched_refer, run. rewrite Hq.
    apply Forall_fmap, Forall_forall. intros e He. simpl.
    unfold matched_refer in Hr. rewrite Forall_forall in Hr.
    case_decide.
    + intros Hs. discriminate Hs.
    + apply (refers_to_match_mono w); [|by apply Hr].
      intros m Hin. exists m. by rewrite Hm.
  - by apply matched_refer_matchPlayers.
  - unfold run.
    destruct (completeMatch_world users mid win now w)
      as [-> | (Hq & _ & _ & Hm)]; [done|].
    unfold matched_refer. rewrite Hq.
    eapply Forall_impl; [exact Hr|]. intros e He.
    apply (refers_to_match_mono w); [|done].
    intros m Hin.
    exists (if decide (Match.id m = mid) then set_completed now win m else m).
    split.
    + rewrite Hm. apply list_elem_of_fmap. by exists m.
    + by case_decide.
Qed.

(** *** All invariants, in every world the operations reach *)

Lemma store_inv_new : store_inv world_new.
Proof.
  unfold store_inv, keys_inv, one_waiting, mode_one_waiting,
    game_numbers_unique, players_differ, matched_refer. simpl.
  repeat split; try constructor; intros; simpl; lia.
Qed.

Lemma store_inv_step op w : store_inv w -> store_inv (run op w).
Proof.
  intros (Hk & Ho & Hm & Hg & Hd & Hr).
  split; [by apply keys_inv_step|]. split; [by apply one_waiting_step|].
  split; [by apply mode_one_waiting_step|].
  split; [by apply game_numbers_step|].
  split; [by apply players_differ_step | by apply matched_refer_step].
Qed.

Lemma store_inv_run_all ops w : store_inv w -> store_inv (run_all ops w).
Proof.
  revert w. induction ops as [|op ops IH]; intros w Hw; [done|].
  simpl. by apply IH, store_inv_step.
Qed.

Lemma run_all_ind (I : World -> Prop) :
  (forall op w, I w -> I (run op w)) ->
  forall ops w, I w -> I (run_all ops w).
Proof.
  intros Hstep ops. induction ops as [|op ops IH]; intros w Hw; [done|].
  simpl. by apply IH, Hstep.
Qed.

(** X1: the operations of the queue service keep the ids of the queue
    entries and of the matches unique, and the identity sequences ahead of
    every id in use. *)
Theorem primary_keys_kept ops w : keys_inv w -> keys_inv (run_all ops w).
Proof. apply run_all_ind. intros op w'. apply keys_inv_step. Qed.

(** X2: the operations keep at most one waiting entry per player. *)
Theorem one_waiting_entry_per_player ops w :
  one_waiting w -> one_waiting (run_all ops w).
Proof. apply run_all_ind. intros op w'. apply one_waiting_step. Qed.

(** X3: the operations, run one after the other, keep at most one waiting
    entry per game mode: a second player who joins a mode is paired with the
    one who waits. *)
Theorem one_waiting_entry_per_mode ops w :
  mode_one_waiting w -> mode_one_waiting (run_all ops w).
Proof. apply run_all_ind. intros op w'. apply mode_one_waiting_step. Qed.

(** X4: the operations keep the game numbers of the matches distinct. *)
Theorem game_numbers_kept_distinct ops w :
  game_numbers_unique w -> game_numbers_unique (run_all ops w).
Proof. apply run_all_ind. intros op w'. apply game_numbers_step. Qed.

(** X5: when nobody has two waiting entries, no operation creates a match
    of a player against themselves. *)
Theorem no_match_against_oneself ops w :
  one_waiting w -> players_differ w -> players_differ (run_all ops w).
Proof.
  intros Ho Hd.
  cut (one_waiting (run_all ops w) /\ players_differ (run_all ops w)); [tauto|].
  apply (run_all_ind (fun w => one_waiting w /\ players_differ w)); [|done].
  intros op w' [Ho' Hd']. split;
    [by apply one_waiting_step | by apply players_differ_step].
Qed.

(** X6: with unique ids, every matched entry carries, after any operations,
    the id of a match of its game mode in which its player is player 1 or
    player 2. *)
Theorem matched_entries_refer_to_their_match ops w :
  keys_inv w -> matched_refer w -> matched_refer (run_all ops w).
Proof.
  intros Hk Hr.
  cut (keys_inv (run_all ops w) /\ matched_refer (run_all ops w)); [tauto|].
  apply (run_all_ind (fun w => keys_inv w /\ matched_refer w)); [|done].
  intros op w' [Hk' Hr']. split;
    [by apply keys_inv_step | by apply matched_refer_step].
Qed.

Lemma keys_inv_new : keys_inv world_new.
Proof. repeat split; constructor. Defined.

Lemma one_waiting_new : one_waiting world_new.
Proof. intros p. simpl. lia. Defined.

Lemma primary_keys_kept_witness : keys_inv (run_all a_day world_new).
Proof. apply (primary_keys_kept a_day world_new). exact keys_inv_new. Defined.

Lemma one_waiting_entry_per_player_witness :
  one_waiting (run_all a_day world_new).
Proof.
  apply (one_waiting_entry_per_player a_day world_new). exact one_waiting_new.
Defined.

Lemma one_waiting_entry_per_mode_witness :
  mode_one_waiting (run_all a_day world_new).
Proof.
  apply (one_waiting_entry_per_mode a_day world_new).
  intros g. simpl. lia.
Defined.

Lemma game_numbers_kept_distinct_witness :
  game_numbers_unique (run_all a_day world_new).
Proof.
  apply (game_numbers_kept_distinct a_day world_new). constructor.
Defined.

Lemma no_match_against_oneself_witness :
  players_differ (run_all a_day world_new).
Proof.
  apply (no_match_against_oneself a_day world_new);
    [exact one_waiting_new | constructor].
Defined.

Lemma matched_entries_refer_to_their_match_witness :
  matched_refer (run_all a_day world_new).
Proof.
  apply (matched_entries_refer_to_their_match a_day world_new);
    [exact keys_inv_new | constructor].
Defined.

(** *** Entries that are matched or cancelled stay as they are *)

Lemma terminal_step op w e :
  keys_inv w -> e ∈ queue_entries w -> Entry.status e <> waiting ->
  e ∈ queue_entries (run op w).
Proof.
  assert (forall g now w0, keys_inv w0 -> e ∈ queue_entries w0 ->
            Entry.status e <> waiting ->
            e ∈ queue_entries (matchPlayers g now w0).2) as Hmatch.
  { intros g now w0 (Hnd & _) He Hs.
    destruct (matchPlayers_cases g now w0)
      as [[_ ->] | (e1 & e2 & rest & w' & Hp & Hpair)]; [done|].
    destruct Hpair as (_ & Hmp & _ & _ & Hq & _).
    rewrite Hmp. simpl. rewrite Hq.
    apply list_elem_of_fmap. exists e. split; [|done].
    rewrite decide_False; [done|]. intros Hmark.
    assert (forall x, x ∈ [e1; e2] ->
              x ∈ queue_entries w0 /\ Entry.status x = waiting) as Hin.
    { intros x Hx. assert (x ∈ waiting_in g w0) as Hw.
      { rewrite Hp. apply elem_of_cons in Hx as [-> | Hx]; [left|].
        apply list_elem_of_singleton in Hx as ->. right. left. }
      apply waiting_in_elem in Hw. tauto. }
    destruct (Hin e1) as [H1 Hs1]; [repeat constructor|].
    destruct (Hin e2) as [H2 Hs2]; [repeat constructor|].
    destruct Hmark as [Hid | Hid];
      apply (NoDup_fmap_eq Entry.id (queue_entries w0)) in Hid; try done;
      subst e; contradiction. }
  intros Hk He Hs. destruct op as [p g now | p | g now | users mid win now].
  - rewrite run_joinQueue. destruct (waiting_of p w); [|done].
    apply Hmatch; [by apply keys_inv_joined | | done].
    simpl. apply elem_of_app. by left.
  - simpl. destruct (leaveQueue_world p w) as (-> & _).
    apply list_elem_of_fmap. exists e. split; [|done].
    rewrite decide_False; [done | tauto].
  - by apply Hmatch.
  - simpl.
    by destruct (completeMatch_world users mid win now w) as [-> | (-> & _)].
Qed.

(** X7: with unique ids, a queue entry that is matched or cancelled is left
    as it is by every operation: only waiting entries change. *)
Theorem matched_and_cancelled_entries_stay ops w e :
  keys_inv w -> e ∈ queue_entries w -> Entry.status e <> waiting ->
  e ∈ queue_entries (run_all ops w).
Proof.
  intros Hk He Hs.
  cut (keys_inv (run_all ops w) /\ e ∈ queue_entries (run_all ops w)); [tauto|].
  apply (run_all_ind (fun w => keys_inv w /\ e ∈ queue_entries w)); [|done].
  intros op w' [Hk' He']. split;
    [by apply keys_inv_step | by apply terminal_step].
Qed.

Lemma matched_and_cancelled_entries_stay_witness :
  Entry.mk 1 "a" "standard" 10 cancelled None
  ∈ queue_entries
      (run_all (drop 2 a_day) (run_all (take 2 a_day) world_new)).
Proof.
  apply (matched_and_cancelled_entries_stay (drop 2 a_day)).
  - apply (run_all_ind keys_inv); [|exact keys_inv_new].
    intros op w'. apply keys_inv_step.
  - vm_compute. left.
  - discriminate.
Defined.

(** *** leaveQueue *)

Lemma filter_all {A} (P : A -> Prop) `{!forall x, Decision (P x)} (l : list A) :
  Forall P l -> filter P l = l.
Proof.
  induction 1 as [|x l Hx Hl IH]; [done|].
  by rewrite filter_cons, decide_True, IH.
Qed.

Lemma filter_none {A} (P : A -> Prop) `{!forall x, Decision (P x)} (l : list A) :
  Forall (fun x => ~ P x) l -> filter P l = [].
Proof.
  induction 1 as [|x l Hx Hl IH]; [done|].
  by rewrite filter_cons, decide_False.
Qed.

Lemma waiting_of_Forall p w :
  Forall (fun e => Entry.playerId e = p /\ Entry.status e = waiting)
    (waiting_of p w).
Proof.
  apply Forall_forall. intros e He.
  unfold waiting_of, where_ in He. apply list_elem_of_filter in He. tauto.
Qed.

Lemma leaveQueue_nobody playerId w :
  waiting_of playerId w = [] -> leaveQueue playerId w = (false, w).
Proof.
  intros Hw. unfold leaveQueue.
  rewrite (CompleteFacts.update_where_none _ _ _ Hw). by destruct w.
Qed.

(** X8: [leaveQueue] returns true exactly when the player had a waiting
    entry; after it the player has none, the waiting entries of the other
    players are as before, and the player's state is idle if true was
    returned; if false was returned nothing has changed.  A second
    [leaveQueue] right after returns false and changes nothing. *)
Theorem leaveQueue_cancels playerId w :
  let w' := (leaveQueue playerId w).2 in
  ((leaveQueue playerId w).1 = true <-> waiting_of playerId w <> []) /\
  waiting_of playerId w' = [] /\
  (forall p, p <> playerId -> waiting_of p w' = waiting_of p w) /\
  ((leaveQueue playerId w).1 = true ->
   redis w' !! PLAYER_STATE_KEY playerId = Some idle) /\
  ((leaveQueue playerId w).1 = false -> w' = w) /\
  leaveQueue playerId w' = (false, w').
Proof.
  intros w'. destruct (leaveQueue_waiting playerId w) as [Hof _].
  assert (waiting_of playerId w' = []) as Hnone.
  { unfold w'. rewrite Hof. apply filter_none.
    eapply Forall_impl; [apply waiting_of_Forall|]. simpl. tauto. }
  split; [|split; [done|split; [|split; [|split]]]].
  - rewrite leaveQueue_result. apply bool_decide_eq_true.
  - intros p Hp. unfold w'. rewrite Hof. apply filter_all.
    eapply Forall_impl; [apply waiting_of_Forall|]. simpl.
    intros e [He _] [He' _]. congruence.
  - unfold w', leaveQueue, update_where.
    destruct (set_cancelled <$> filter _ (queue_entries w)); simpl; [done|].
    intros _. apply lookup_insert_eq.
  - rewrite leaveQueue_result. intros Hb%bool_decide_eq_false.
    unfold w'. rewrite leaveQueue_nobody; [done|].
    destruct (waiting_of playerId w); [done|]. exfalso. by apply Hb.
  - by apply leaveQueue_nobody.
Qed.

(** X9: a player who is not waiting joins a mode in which nobody waits and
    leaves: [joinQueue] returns a new waiting entry, [leaveQueue] returns
    true, and the queue is the one before with that entry cancelled. *)
Theorem join_then_leave playerId gameMode now w :
  waiting_of playerId w = [] -> waiting_in gameMode w = [] ->
  let e := Entry.mk (queue_entries_seq w) playerId gameMode now waiting None in
  let w1 := (joinQueue playerId gameMode now w).2 in
  (joinQueue playerId gameMode now w).1 = e /\
  waiting_of playerId w1 = [e] /\
  (leaveQueue playerId w1).1 = true /\
  queue_entries (leaveQueue playerId w1).2
  = queue_entries w ++ [set_cancelled e] /\
  matches (leaveQueue playerId w1).2 = matches w.
Proof.
  intros Hof Hin e w1.
  assert (joinQueue playerId gameMode now w
          = (e, joined playerId gameMode now w)) as Hj.
  { rewrite (JoinFacts.joinQueue_fresh _ _ _ _ Hof).
    fold (joined playerId gameMode now w). rewrite matchPlayers_short; [done|].
    rewrite joined_waiting_in, Hin, decide_True by done. simpl. lia. }
  unfold w1. rewrite Hj. simpl fst. simpl snd.
  assert (waiting_of playerId (joined playerId gameMode now w) = [e]) as Hw1.
  { by rewrite joined_waiting_of, Hof, decide_True. }
  split; [done|]. split; [done|]. split.
  { rewrite leaveQueue_result, Hw1. done. }
  destruct (leaveQueue_world playerId (joined playerId gameMode now w))
    as (-> & _ & -> & _).
  split; [|done]. simpl. rewrite fmap_app. simpl.
  rewrite decide_True by done. f_equal.
  unfold waiting_of, where_ in Hof.
  induction (queue_entries w) as [|x l IH]; [done|].
  rewrite filter_cons in Hof. rewrite fmap_cons.
  case_decide; [done|]. f_equal. by apply IH.
Qed.

Lemma join_then_leave_witness :
  (joinQueue "a" "standard" 10 world_new).1
  = Entry.mk 1 "a" "standard" 10 waiting None /\
  (leaveQueue "a" (joinQueue "a" "standard" 10 world_new).2).1 = true /\
  queue_entries (leaveQueue "a" (joinQueue "a" "standard" 10 world_new).2).2
  = [Entry.mk 1 "a" "standard" 10 cancelled None].
Proof.
  destruct (join_then_leave "a" "standard" 10 world_new)
    as (H1 & _ & H2 & H3 & _); [reflexivity | reflexivity |].
  split; [exact H1|]. split; [exact H2 | exact H3].
Defined.

(** *** Player states *)

Lemma string_app_length (a b : string) :
  String.length (a +:+ b) = (String.length a + String.length b)%nat.
Proof. induction a as [|c a IH]; simpl; [done | by rewrite IH]. Qed.

Lemma string_app_inv_r (a b t : string) : a +:+ t = b +:+ t -> a = b.
Proof.
  revert b. induction a as [|c a IH]; intros [|d b] H; simpl in H.
  - done.
  - apply (f_equal String.length) in H.
    rewrite ?string_app_length in H. simpl in H.
    rewrite ?string_app_length in H. lia.
  - apply (f_equal String.length) in H.
    rewrite ?string_app_length in H. simpl in H.
    rewrite ?string_app_length in H. lia.
  - injection H as -> H. f_equal. by apply IH.
Qed.

(** Two players have two state keys. *)
Lemma PLAYER_STATE_KEY_inj (a b : string) :
  PLAYER_STATE_KEY a = PLAYER_STATE_KEY b -> a = b.
Proof.
  unfold PLAYER_STATE_KEY. intros H.
  apply (inj (String.app "player:")) in H. by apply string_app_inv_r in H.
Qed.

(** X10: when nobody has two waiting entries and [matchPlayers] creates a
    match, the two players differ, each one's state is in_game with the
    other as opponent, the states of all other players and the ratings are
    untouched, and one state-change event is emitted for each of the two. *)
Theorem pairing_sets_both_in_game gameMode now w m w' :
  one_waiting w ->
  matchPlayers gameMode now w = (Some m, w') ->
  Match.player1Id m <> Match.player2Id m /\
  redis w' !! PLAYER_STATE_KEY (Match.player1Id m)
  = Some (in_game (Match.player2Id m) now) /\
  redis w' !! PLAYER_STATE_KEY (Match.player2Id m)
  = Some (in_game (Match.player1Id m) now) /\
  (forall p, p <> Match.player1Id m -> p <> Match.player2Id m ->
             redis w' !! PLAYER_STATE_KEY p = redis w !! PLAYER_STATE_KEY p) /\
  emitted w'
  = emitted w ++ [("state-change:" +:+ Match.player1Id m,
                   in_game (Match.player2Id m) now);
                  ("state-change:" +:+ Match.player2Id m,
                   in_game (Match.player1Id m) now)] /\
  player_ratings w' = player_ratings w.
Proof.
  intros Hone Hm. destruct (matchPlayers_cases gameMode now w)
    as [[_ Hn] | (e1 & e2 & rest & w0 & Hp & Hpair)]; [congruence|].
  pose proof (paired_players_differ _ _ _ _ _ Hone Hp) as Hne.
  destruct Hpair as (_ & Hm' & _ & _ & _ & _ & Hr & Hredis & Hem).
  rewrite Hm' in Hm. injection Hm as <- <-. simpl.
  split; [done|]. rewrite Hredis, Hem. split.
  { rewrite lookup_insert_ne, lookup_insert_eq; [done|].
    intros H. apply PLAYER_STATE_KEY_inj in H. congruence. }
  split; [apply lookup_insert_eq|]. split; [|done].
  intros p H1 H2. rewrite !lookup_insert_ne; [done | |];
    intros H; apply PLAYER_STATE_KEY_inj in H; congruence.
Qed.

Lemma pairing_sets_both_in_game_witness :
  exists m w',
    matchPlayers "standard" 40 world_three = (Some m, w') /\
    redis w' !! PLAYER_STATE_KEY "a" = Some (in_game "b" 40) /\
    redis w' !! PLAYER_STATE_KEY "b" = Some (in_game "a" 40).
Proof.
  destruct (matchPlayers "standard" 40 world_three) as [[m|] w'] eqn:E;
    [|vm_compute in E; discriminate E].
  exists m, w'. split; [done|].
  assert (Match.player1Id m = "a" /\ Match.player2Id m = "b") as [H1 H2].
  { vm_compute in E. injection E as <- _. done. }
  destruct (pairing_sets_both_in_game "standard" 40 world_three m w')
    as (_ & Ha & Hb & _); [|exact E|].
  - intros p. unfold waiting_of, where_. simpl.
    rewrite !filter_cons, filter_nil. simpl.
    repeat case_decide; simpl; try lia;
      repeat match goal with H : _ /\ _ |- _ => destruct H end; congruence.
  - rewrite H1, H2 in Ha, Hb. done.
Defined.

End QueueSteps.

(** ** The read-only queries of QueueService *)

Module QueryFacts.
Import Elo Store Queue QueueQueries StoreFacts PairingFacts QueueSteps.

Implicit Types (w : World) (e : Entry.t) (m : Match.t) (now : Z).
Implicit Types (tbl : users) (u : User.t).

(** The rows of a table that an inner join with the user table keeps. *)
Lemma filter_filter_and {A} (P Q : A -> Prop) `{!forall x, Decision (P x)}
    `{!forall x, Decision (Q x)} (l : list A) :
  filter Q (filter P l) = filter (fun x => P x /\ Q x) l.
Proof.
  induction l as [|x l IH]; [done|].
  rewrite !filter_cons. destruct (decide (P x)) as [HP | HP].
  - rewrite filter_cons. destruct (decide (Q x)) as [HQ | HQ].
    + rewrite decide_True by done. by rewrite IH.
    + rewrite decide_False by tauto. exact IH.
  - rewrite decide_False by tauto. exact IH.
Qed.

Lemma join_user_rows {A U} (key : A -> string) (t : gmap string U) (l : list A) :
  (omap (fun x => v ← t !! key x; Some (x, v)) l).*1
  = filter (fun x => is_Some (t !! key x)) l /\
  Forall (fun row => t !! key row.1 = Some row.2)
    (omap (fun x => v ← t !! key x; Some (x, v)) l).
Proof.
  induction l as [|x l [IH1 IH2]]; [by split|].
  rewrite filter_cons. cbn [omap list_omap].
  destruct (t !! key x) as [v|] eqn:E.
  - rewrite decide_True by done. cbn [mbind option_bind fmap list_fmap fst].
    split; [f_equal; exact IH1|]. constructor; done.
  - rewrite decide_False by (by intros [? ?]). cbn [mbind option_bind]. done.
Qed.

Lemma join_two_users_rows {A U} (key1 key2 : A -> string)
    (t : gmap string U) (l : list A) :
  let join := fun y : A =>
                player1 ← t !! key1 y;
                player2 ← t !! key2 y;
                Some (y, player1, player2) in
  (fun row : A * U * U => row.1.1) <$> omap join l
  = filter (fun y => is_Some (t !! key1 y) /\ is_Some (t !! key2 y)) l /\
  Forall (fun row : A * U * U =>
            t !! key1 row.1.1 = Some row.1.2 /\
            t !! key2 row.1.1 = Some row.2)
    (omap join l).
Proof.
  intros join. induction l as [|x l [IH1 IH2]]; [by split|].
  rewrite filter_cons. cbn [omap list_omap].
  assert (Hj : join x = match t !! key1 x, t !! key2 x with
                        | Some a, Some b => Some (x, a, b)
                        | _, _ => None
                        end).
  { unfold join. destruct (t !! key1 x); simpl; [|done].
    by destruct (t !! key2 x). }
  rewrite Hj. clear Hj.
  destruct (t !! key1 x) as [u1|] eqn:E1;
    [destruct (t !! key2 x) as [u2|] eqn:E2|].
  - rewrite decide_True by done. cbn [mbind option_bind fmap list_fmap fst].
    split; [f_equal; exact IH1|]. constructor; done.
  - rewrite decide_False by (by intros [_ [? ?]]). cbn [mbind option_bind]. done.
  - rewrite decide_False by (by intros [[? ?] _]). cbn [mbind option_bind]. done.
Qed.

(** X11: [getQueueEntries] lists, by joinedAt ascending, exactly the waiting
    entries whose player is a user, each once for each time the table holds
    it, and each with that user. *)
Theorem getQueueEntries_lists_waiting tbl w :
  StronglySorted
    (fun r1 r2 => (Entry.joinedAt r1.1 <= Entry.joinedAt r2.1)%Z)
    (getQueueEntries tbl w) /\
  (getQueueEntries tbl w).*1
  ≡ₚ filter (fun e => Entry.status e = waiting /\
                      is_Some (tbl !! Entry.playerId e)) (queue_entries w) /\
  Forall (fun row => tbl !! Entry.playerId row.1 = Some row.2)
    (getQueueEntries tbl w) /\
  (forall e u,
     (e, u) ∈ getQueueEntries tbl w <->
     e ∈ queue_entries w /\ Entry.status e = waiting /\
     tbl !! Entry.playerId e = Some u).
Proof.
  unfold getQueueEntries, where_.
  set (l := filter (fun e => Entry.status e = waiting) (queue_entries w)).
  destruct (join_user_rows Entry.playerId tbl l) as [Hfst Hall].
  split; [|split; [|split]].
  - apply (orderBy_asc_sorted (fun row : Entry.t * User.t => Entry.joinedAt row.1)).
  - rewrite orderBy_perm, Hfst. unfold l. by rewrite filter_filter_and.
  - by rewrite orderBy_perm.
  - intros e u. rewrite orderBy_perm, list_elem_of_omap. unfold l. split.
    + intros (x & Hx & Hj). apply list_elem_of_filter in Hx as [Hs Hx].
      destruct (tbl !! Entry.playerId x) as [u'|] eqn:Hu; simpl in Hj; [|done].
      injection Hj as <- <-. done.
    + intros (He & Hs & Hu). exists e. split.
      * apply list_elem_of_filter. done.
      * rewrite Hu. done.
Qed.

Lemma getPlayerMatches_elem (playerId : string) w m :
  m ∈ getPlayerMatches playerId w <->
  m ∈ matches w /\
  (Match.player1Id m = playerId \/ Match.player2Id m = playerId).
Proof.
  unfold getPlayerMatches. rewrite orderBy_perm. unfold where_.
  rewrite list_elem_of_filter. tauto.
Qed.

Lemma getActiveMatches_elem tbl w m u1 u2 :
  (m, u1, u2) ∈ getActiveMatches tbl w <->
  m ∈ matches w /\ Match.status m = in_progress /\
  tbl !! Match.player1Id m = Some u1 /\
  tbl !! Match.player2Id m = Some u2.
Proof.
  unfold getActiveMatches. rewrite orderBy_perm, list_elem_of_omap.
  unfold where_. split.
  - intros (x & Hx & Hj). apply list_elem_of_filter in Hx as [Hs Hx].
    destruct (tbl !! Match.player1Id x) as [v1|] eqn:H1; simpl in Hj; [|done].
    destruct (tbl !! Match.player2Id x) as [v2|] eqn:H2; simpl in Hj; [|done].
    injection Hj as <- <- <-. done.
  - intros (Hm & Hs & H1 & H2). exists m. split.
    + apply list_elem_of_filter. done.
    + rewrite H1. simpl. rewrite H2. done.
Qed.

(** X12: [getPlayerMatches] lists, by startedAt descending, exactly the
    matches in which the player is player 1 or player 2, each once for each
    time the table holds it. *)
Theorem getPlayerMatches_lists_own_matches (playerId : string) w :
  StronglySorted (fun m1 m2 => (Match.startedAt m2 <= Match.startedAt m1)%Z)
    (getPlayerMatches playerId w) /\
  getPlayerMatches playerId w
  ≡ₚ filter (fun m => Match.player1Id m = playerId \/
                      Match.player2Id m = playerId) (matches w) /\
  (forall m,
     m ∈ getPlayerMatches playerId w <->
     m ∈ matches w /\
     (Match.player1Id m = playerId \/ Match.player2Id m = playerId)).
Proof.
  split; [|split].
  - apply (orderBy_desc_sorted Match.startedAt).
  - apply orderBy_perm.
  - intros m. apply getPlayerMatches_elem.
Qed.

(** X13: [getActiveMatches] lists, by startedAt descending, exactly the
    matches in progress whose two players are users, each once for each
    time the table holds it, and each with the two users. *)
Theorem getActiveMatches_lists_in_progress tbl w :
  StronglySorted
    (fun r1 r2 => (Match.startedAt r2.1.1 <= Match.startedAt r1.1.1)%Z)
    (getActiveMatches tbl w) /\
  (fun row : Match.t * User.t * User.t => row.1.1) <$> getActiveMatches tbl w
  ≡ₚ filter (fun m => Match.status m = in_progress /\
                      (is_Some (tbl !! Match.player1Id m) /\
                       is_Some (tbl !! Match.player2Id m))) (matches w) /\
  Forall (fun row : Match.t * User.t * User.t =>
            tbl !! Match.player1Id row.1.1 = Some row.1.2 /\
            tbl !! Match.player2Id row.1.1 = Some row.2)
    (getActiveMatches tbl w) /\
  (forall m u1 u2,
     (m, u1, u2) ∈ getActiveMatches tbl w <->
     m ∈ matches w /\ Match.status m = in_progress /\
     tbl !! Match.player1Id m = Some u1 /\
     tbl !! Match.player2Id m = Some u2).
Proof.
  split; [|split; [|split]].
  - apply (orderBy_desc_sorted
             (fun row : Match.t * User.t * User.t => Match.startedAt row.1.1)).
  - unfold getActiveMatches, where_. rewrite orderBy_perm.
    destruct (join_two_users_rows Match.player1Id Match.player2Id tbl
                (filter (fun m => Match.status m = in_progress) (matches w)))
      as [-> _].
    by rewrite filter_filter_and.
  - unfold getActiveMatches, where_. rewrite orderBy_perm.
    apply (join_two_users_rows Match.player1Id Match.player2Id tbl).
  - intros m u1 u2. apply getActiveMatches_elem.
Qed.

(** A table with a key holds one row per key value. *)
Lemma filter_key_unique {A} (key : A -> Z) (l : list A) (x : A) :
  NoDup (key <$> l) -> x ∈ l -> filter (fun y => key y = key x) l = [x].
Proof.
  induction l as [|y l IH]; intros Hnd Hx; [by apply elem_of_nil in Hx|].
  rewrite fmap_cons in Hnd. apply NoDup_cons in Hnd as [Hy Hnd].
  rewrite filter_cons. apply elem_of_cons in Hx as [-> | Hx].
  - rewrite decide_True by done. f_equal. apply filter_none.
    apply Forall_forall. intros z Hz Hk. apply Hy. rewrite <- Hk.
    by apply list_elem_of_fmap_2.
  - rewrite decide_False; [by apply IH|].
    intros Hk. apply Hy. rewrite Hk. by apply list_elem_of_fmap_2.
Qed.

Lemma getMatch_of_row tbl w m :
  NoDup (Match.id <$> matches w) -> m ∈ matches w ->
  getMatch tbl (Match.id m) w
  = Some (m, tbl !! Match.player1Id m, tbl !! Match.player2Id m,
          Match.winnerId m ≫= fun winner => tbl !! winner).
Proof.
  intros Hnd Hm. unfold getMatch, where_, limit.
  by rewrite (filter_key_unique Match.id _ m Hnd Hm).
Qed.

(** X14: in a store that keeps its primary keys, the match [matchPlayers]
    returns is the one [getMatch] finds under its id, in progress and
    without a winner, and [getPlayerMatches] lists it for both players. *)
Theorem getMatch_after_matchPlayers tbl gameMode now w m w' :
  keys_inv w ->
  matchPlayers gameMode now w = (Some m, w') ->
  getMatch tbl (Match.id m) w'
  = Some (m, tbl !! Match.player1Id m, tbl !! Match.player2Id m, None) /\
  Match.status m = in_progress /\ Match.gameMode m = gameMode /\
  Match.startedAt m = now /\
  m ∈ getPlayerMatches (Match.player1Id m) w' /\
  m ∈ getPlayerMatches (Match.player2Id m) w' /\
  getMatch tbl (Match.id m) w = None.
Proof.
  intros Hk Hmp.
  destruct (matchPlayers_cases gameMode now w)
    as [[_ Hn] | (e1 & e2 & rest & w1 & _ & Hpair)]; [congruence|].
  pose proof Hpair as (_ & Hmp' & Hm & _).
  rewrite Hmp in Hmp'. injection Hmp' as -> ->.
  pose proof (keys_inv_paired _ _ _ _ _ _ Hpair Hk) as (_ & _ & Hnd & _).
  assert (Hin : new_match gameMode now w e1 e2 ∈ matches w1).
  { rewrite Hm. apply elem_of_app. right. by apply list_elem_of_singleton. }
  split; [|repeat split].
  - by rewrite (getMatch_of_row tbl w1 _ Hnd Hin).
  - apply getPlayerMatches_elem. auto.
  - apply getPlayerMatches_elem. auto.
  - unfold getMatch, where_, limit. rewrite filter_none; [done|].
    destruct Hk as (_ & _ & _ & Hlt). eapply Forall_impl; [exact Hlt|].
    simpl. intros x Hx. lia.
Qed.

(** X15: [getMatch] returns null exactly when [completeMatch] throws
    'Match not found' for the id. *)
Theorem getMatch_null_iff_completeMatch_throws tbl (ids : gset string)
    matchId winnerId now w :
  getMatch tbl matchId w = None <->
  completeMatch ids matchId winnerId now w
  = Thrown (Match_not_found matchId) w.
Proof.
  unfold getMatch, limit, where_. split.
  - intros Hn. apply CompleteFacts.completeMatch_not_found.
    unfold lookup_match, where_.
    destruct (filter _ (matches w)); [done | discriminate].
  - unfold completeMatch, update_where.
    destruct (filter _ (matches w)) as [|m rest]; [done|]. simpl.
    destruct (winner_allowed ids winnerId); [|discriminate].
    destruct (updateRatings _ _ _ _ _ _). discriminate.
Qed.

(** X16: in a store that keeps its primary keys, the match [completeMatch]
    returns is the one [getMatch] finds afterwards: completed, with the
    winner and the completion time of the call and all else as before;
    [getActiveMatches] does not list it, every other match is as it was,
    and both players are idle. *)
Theorem getMatch_after_completeMatch tbl (ids : gset string)
    matchId winnerId now w m w' :
  keys_inv w ->
  completeMatch ids matchId winnerId now w = Returned m w' ->
  getMatch tbl matchId w'
  = Some (m, tbl !! Match.player1Id m, tbl !! Match.player2Id m,
          winnerId ≫= fun winner => tbl !! winner) /\
  (exists m0, m0 ∈ matches w /\ Match.id m0 = matchId /\
              m = set_completed now winnerId m0) /\
  (forall u1 u2, (m, u1, u2) ∉ getActiveMatches tbl w') /\
  (forall x, Match.id x <> matchId -> x ∈ matches w' <-> x ∈ matches w) /\
  redis w' !! PLAYER_STATE_KEY (Match.player1Id m) = Some idle /\
  redis w' !! PLAYER_STATE_KEY (Match.player2Id m) = Some idle.
Proof.
  intros (_ & _ & Hnd & _) Hc.
  destruct (lookup_match matchId w) as [m0|] eqn:Hl.
  2:{ rewrite (CompleteFacts.completeMatch_not_found _ _ winnerId now _ Hl) in Hc.
      discriminate. }
  assert (Hm0 : m0 ∈ matches w /\ Match.id m0 = matchId).
  { unfold lookup_match, where_ in Hl. apply head_Some in Hl as [rest Hl].
    assert (Hin : m0 ∈ filter (fun x => Match.id x = matchId) (matches w))
      by (rewrite Hl; left).
    apply list_elem_of_filter in Hin. tauto. }
  destruct Hm0 as [Hin Hid].
  assert (Hm : m = set_completed now winnerId m0 /\
               matches w'
               = ((fun x => if decide (Match.id x = matchId)
                            then set_completed now winnerId x else x)
                  <$> matches w) /\
               redis w' !! PLAYER_STATE_KEY (Match.player1Id m) = Some idle /\
               redis w' !! PLAYER_STATE_KEY (Match.player2Id m) = Some idle).
  { unfold lookup_match, where_ in Hl. apply head_Some in Hl as [rest Hl].
    unfold completeMatch, update_where in Hc. rewrite Hl in Hc. simpl in Hc.
    destruct (winner_allowed ids winnerId); [|discriminate].
    destruct (updateRatings _ _ _ _ _ _) as [r t]. injection Hc as <- <-.
    simpl. split; [done|]. split; [done|]. split.
    - destruct (decide (PLAYER_STATE_KEY (Match.player2Id m0)
                        = PLAYER_STATE_KEY (Match.player1Id m0))) as [He | He].
      + rewrite He. apply lookup_insert_eq.
      + rewrite lookup_insert_ne by done. apply lookup_insert_eq.
    - apply lookup_insert_eq. }
  destruct Hm as (-> & Hms & Hr1 & Hr2).
  assert (Hin' : set_completed now winnerId m0 ∈ matches w').
  { rewrite Hms. apply list_elem_of_fmap. exists m0.
    rewrite decide_True by done. done. }
  assert (Hnd' : NoDup (Match.id <$> matches w')).
  { rewrite Hms. rewrite (fmap_update_keeps Match.id); done. }
  split; [|split; [|split; [|split; [|split]]]]; try done.
  - rewrite <- Hid.
    change (Match.id m0) with (Match.id (set_completed now winnerId m0)).
    by rewrite (getMatch_of_row tbl w' _ Hnd' Hin').
  - by exists m0.
  - intros u1 u2 Ha.
    apply getActiveMatches_elem in Ha as (_ & Hs & _).
    discriminate.
  - intros x Hx. rewrite Hms, list_elem_of_fmap. split.
    + intros (y & -> & Hy). case_decide; [done|]. done.
    + intros Hxin. exists x. rewrite decide_False by done. done.
Qed.

Lemma keys_inv_three : keys_inv world_three.
Proof. unfold keys_inv. apply (bool_decide_unpack _). by vm_compute. Defined.

Lemma keys_inv_one_match : keys_inv world_one_match.
Proof. unfold keys_inv. apply (bool_decide_unpack _). by vm_compute. Defined.

Lemma getMatch_after_matchPlayers_witness :
  exists m w',
    matchPlayers "standard" 40 world_three = (Some m, w') /\
    getMatch users_ab (Match.id m) w'
    = Some (m, users_ab !! Match.player1Id m, users_ab !! Match.player2Id m, None) /\
    getMatch users_ab (Match.id m) world_three = None.
Proof.
  destruct (matchPlayers "standard" 40 world_three) as [[m|] w'] eqn:E;
    [|vm_compute in E; discriminate E].
  exists m, w'. split; [done|].
  destruct (getMatch_after_matchPlayers users_ab "standard" 40 world_three m w'
              keys_inv_three E) as (H1 & _ & _ & _ & _ & _ & H2).
  done.
Defined.

Lemma getMatch_after_completeMatch_witness :
  exists m w',
    completeMatch (dom users_ab) 1 (Some "b") 9 world_one_match = Returned m w' /\
    getMatch users_ab 1 w' = Some (m, Some user_a, Some user_b, Some user_b) /\
    redis w' !! PLAYER_STATE_KEY "a" = Some idle.
Proof.
  destruct (completeMatch (dom users_ab) 1 (Some "b") 9 world_one_match)
    as [m w'|err w'] eqn:E.
  2:{ exfalso.
      destruct (CompleteFacts.completeMatch_found (dom users_ab) 1 (Some "b") 9
                  world_one_match match_ab) as (w1 & E1 & _);
        [reflexivity | by vm_compute|].
      rewrite E1 in E. discriminate E. }
  exists m, w'. split; [done|].
  destruct (getMatch_after_completeMatch users_ab (dom users_ab) 1 (Some "b") 9
              world_one_match m w' keys_inv_one_match E)
    as (Hg & (m0 & Hin & _ & Hm) & _ & _ & Hr & _).
  apply list_elem_of_singleton in Hin. subst m0.
  subst m. split; [|exact Hr]. rewrite Hg. by vm_compute.
Defined.

End QueryFacts.

(** ** The rating engine *)

Module EloMore.
Import Elo Store EloQueries EloFacts RatingFacts StoreFacts.

Implicit Types (p g : string) (now : Z) (tbl : ratings) (result : R).
Implicit Types (r row : Rating.t) (k : string * string).




(** The rows [updateRatings] reads, in terms of the table it is given. *)
Lemma read1_of p g now tbl :
  Rating.rating (read1 p g now tbl) = rating_of p g tbl /\
  Rating.gamesPlayed (read1 p g now tbl) = games_of p g tbl.
Proof.
  unfold read1, rating_of, games_of, getOrCreatePlayerRating, getPlayerRating.
  by destruct (tbl !! (p, g)).
Qed.

Lemma read2_lookup p1 p2 g now tbl r :
  tbl !! (p2, g) = Some r -> read2 p1 p2 g now tbl = r.
Proof.
  intros H. unfold read2.
  assert ((getOrCreatePlayerRating p1 g now tbl).2 !! (p2, g) = Some r) as H'.
  { destruct (decide (p1 = p2)) as [-> | Hne].
    - by rewrite (getOrCreate_existing _ _ _ _ _ H).
    - rewrite getOrCreate_lookup_ne by congruence. done. }
  by rewrite (getOrCreate_existing _ _ _ _ _ H').
Qed.

Lemma read2_of p1 p2 g now tbl :
  Rating.rating (read2 p1 p2 g now tbl) = rating_of p2 g tbl /\
  Rating.gamesPlayed (read2 p1 p2 g now tbl) = games_of p2 g tbl.
Proof.
  unfold rating_of, games_of, getPlayerRating.
  destruct (tbl !! (p2, g)) as [r|] eqn:E.
  - by rewrite (read2_lookup p1 p2 g now tbl r E).
  - unfold read2. destruct (decide (p1 = p2)) as [-> | Hne].
    + rewrite (getOrCreate_new _ _ _ _ E). simpl.
      rewrite (getOrCreate_existing p2 g now _ (default_rating p2 g now))
        by apply lookup_insert_eq.
      rewrite default_rating_eq. done.
    + rewrite getOrCreate_new.
      * rewrite default_rating_eq. done.
      * rewrite getOrCreate_lookup_ne by congruence. done.
Qed.

(** A new rating is a whole number within 64 of a whole-number current
    rating, for an actual score between 0 and 1. *)
Lemma new_rating_whole_near (z : Z) (opponent actual : R) (g : Z) :
  0 <= actual <= 1 ->
  exists n : Z,
    calculateNewRating (IZR z) (calculateExpectedScore (IZR z) opponent)
      actual g = IZR n /\
    (Z.abs (n - z) <= 64)%Z.
Proof.
  intros Ha. rewrite calculateNewRating_integer.
  pose proof (expected_in_unit_interval (IZR z) opponent) as He.
  set (e := calculateExpectedScore (IZR z) opponent) in *.
  set (d := kFactor g * (actual - e)).
  assert (- 64 <= d <= 64) as Hd.
  { unfold d. destruct (kFactor_cases g) as [-> | ->]; nra. }
  exists (z + Zfloor (d + 1 / 2))%Z. unfold Math_round.
  split; [by rewrite plus_IZR|].
  pose proof (Zfloor_bound (d + 1 / 2)) as [Hlo Hhi].
  assert (- 64 <= Zfloor (d + 1 / 2))%Z.
  { apply Zfloor_lub. simpl. lra. }
  assert (Zfloor (d + 1 / 2) < 65)%Z.
  { apply lt_IZR. simpl. lra. }
  lia.
Qed.

(** A whole number a [real] column holds exactly. *)
Lemma whole_in_range (x : R) (z n : Z) :
  x = IZR n -> (Z.abs z <= 16777152)%Z -> (Z.abs (n - z) <= 64)%Z ->
  exists n', x = IZR n' /\ (Z.abs n' <= 16777216)%Z.
Proof. intros -> Hz Hn. exists n. split; [done | lia]. Qed.

(** X20: for two different players with whole-number ratings of at most
    16777152 either way and a result between 0 and 1, [updateRatings] leaves
    a row for each that holds the rating it returns for them, a whole number
    of at most 16777216 either way (which a [real] column holds exactly),
    one game more than before, and the time of the call; every other row of
    the table is as it was. *)
Theorem updateRatings_rows p1 p2 g result now tbl (z1 z2 : Z) :
  p1 <> p2 ->
  0 <= result <= 1 ->
  rating_of p1 g tbl = IZR z1 -> (Z.abs z1 <= 16777152)%Z ->
  rating_of p2 g tbl = IZR z2 -> (Z.abs z2 <= 16777152)%Z ->
  let out := updateRatings p1 p2 g result now tbl in
  (exists row n, out.2 !! (p1, g) = Some row /\
     Rating.rating row = out.1.1 /\
     out.1.1 = IZR n /\ (Z.abs n <= 16777216)%Z /\
     Rating.gamesPlayed row = (games_of p1 g tbl + 1)%Z /\
     Rating.lastPlayed row = Some now) /\
  (exists row n, out.2 !! (p2, g) = Some row /\
     Rating.rating row = out.1.2 /\
     out.1.2 = IZR n /\ (Z.abs n <= 16777216)%Z /\
     Rating.gamesPlayed row = (games_of p2 g tbl + 1)%Z /\
     Rating.lastPlayed row = Some now) /\
  (forall k, k <> (p1, g) -> k <> (p2, g) -> out.2 !! k = tbl !! k).
Proof.
  intros Hne Hres Hz1 Hb1 Hz2 Hb2. simpl. rewrite updateRatings_returns. simpl.
  destruct (read1_of p1 g now tbl) as [Hr1 Hg1].
  destruct (read2_of p1 p2 g now tbl) as [Hr2 Hg2].
  split; [|split].
  - destruct (updateRatings_lookup1 p1 p2 g result now tbl Hne) as [row ->].
    destruct (new_rating_whole_near z1 (IZR z2) result (games_of p1 g tbl) Hres)
      as (n & Hn & Hnear).
    destruct (whole_in_range _ z1 n Hn Hb1 Hnear) as (n' & Hn' & Hb).
    exists (updated_row (read1 p1 g now tbl) (new1 p1 p2 g result now tbl)
              result 1 0 now row), n'.
    split; [done|]. simpl. rewrite Hg1.
    split; [done|]. split; [|done].
    unfold new1. by rewrite Hr1, Hr2, Hg1, Hz1, Hz2.
  - destruct (updateRatings_lookup2 p1 p2 g result now tbl) as [row ->].
    destruct (new_rating_whole_near z2 (IZR z1) (1 - result)
                (games_of p2 g tbl)) as (n & Hn & Hnear); [lra|].
    destruct (whole_in_range _ z2 n Hn Hb2 Hnear) as (n' & Hn' & Hb).
    exists (updated_row (read2 p1 p2 g now tbl) (new2 p1 p2 g result now tbl)
              result 0 1 now row), n'.
    split; [done|]. simpl. rewrite Hg2.
    split; [done|]. split; [|done].
    unfold new2. by rewrite Hr1, Hr2, Hg2, Hz1, Hz2.
  - intros k. apply updateRatings_lookup_other.
Qed.

Lemma updateRatings_rows_witness :
  exists row,
    (updateRatings "a" "b" "standard" 0 7 ratings_ab).2 !! ("a", "standard")
    = Some row /\
    Rating.gamesPlayed row = 13%Z /\ Rating.lastPlayed row = Some 7%Z.
Proof.
  destruct (updateRatings_rows "a" "b" "standard" 0 7 ratings_ab 1100 900)
    as ((row & n & Hl & _ & _ & _ & Hg & Ht) & _);
    [done | lra | by vm_compute | lia | by vm_compute | lia |].
  exists row. split; [exact Hl|]. split; [|exact Ht].
  rewrite Hg. by vm_compute.
Defined.

(** X21: with the same player on both sides, a whole-number rating of at
    most 16777152 either way and a result between 0 and 1, [updateRatings]
    counts one game, and the row keeps what the update for player 2 writes:
    the rating computed from an expected score of one half and the score
    [1 - result], a whole number of at most 16777216 either way; so a
    rating reported to have beaten itself loses half its K-factor. *)
Theorem updateRatings_against_oneself p g result now tbl (z : Z) :
  0 <= result <= 1 ->
  rating_of p g tbl = IZR z -> (Z.abs z <= 16777152)%Z ->
  let out := updateRatings p p g result now tbl in
  exists row n, out.2 !! (p, g) = Some row /\
    Rating.rating row = out.1.2 /\
    out.1.2 = calculateNewRating (rating_of p g tbl) (1 / 2) (1 - result)
                (games_of p g tbl) /\
    out.1.2 = IZR n /\ (Z.abs n <= 16777216)%Z /\
    Rating.gamesPlayed row = (games_of p g tbl + 1)%Z /\
    (result = 1 ->
     Rating.rating row = rating_of p g tbl - kFactor (games_of p g tbl) / 2).
Proof.
  intros Hres Hz Hb. simpl.
  destruct (updateRatings_lookup2 p p g result now tbl) as [row ->].
  rewrite updateRatings_returns. simpl.
  destruct (new_rating_whole_near z (IZR z) (1 - result) (games_of p g tbl))
    as (n & Hn & Hnear); [lra|].
  destruct (whole_in_range _ z n Hn Hb Hnear) as (n' & Hn' & Hb').
  exists (updated_row (read2 p p g now tbl) (new2 p p g result now tbl)
            result 0 1 now row), n'.
  split; [done|]. simpl.
  unfold new2.
  destruct (read1_of p g now tbl) as [-> _].
  destruct (read2_of p p g now tbl) as [-> ->].
  rewrite Hz in *. rewrite expected_equal_ratings in *.
  split; [done|]. split; [done|]. split; [done|]. split; [done|].
  split; [done|].
  intros ->.
  destruct (kFactor_cases (games_of p g tbl)) as [Hk | Hk].
  - rewrite calculateNewRating_integer, Hk.
    replace (64 * (1 - 1 - 1 / 2)) with (IZR (- 32)) by (simpl; lra).
    rewrite Math_round_IZR. simpl. lra.
  - rewrite calculateNewRating_integer, Hk.
    replace (32 * (1 - 1 - 1 / 2)) with (IZR (- 16)) by (simpl; lra).
    rewrite Math_round_IZR. simpl. lra.
Qed.

Lemma updateRatings_against_oneself_witness :
  exists row,
    (updateRatings "a" "a" "standard" 1 7 ∅).2 !! ("a", "standard") = Some row /\
    Rating.rating row = 968 /\ Rating.gamesPlayed row = 1%Z.
Proof.
  destruct (updateRatings_against_oneself "a" "standard" 1 7 ∅ 1000)
    as (row & n & Hl & _ & _ & _ & _ & Hg & Hr); [lra | reflexivity | lia|].
  exists row. split; [exact Hl|]. split; [|exact Hg].
  rewrite Hr; [|reflexivity].
  unfold rating_of, games_of, getPlayerRating. rewrite !lookup_empty.
  unfold kFactor, PROVISIONAL_K_FACTOR. simpl. lra.
Defined.

(** X22: [updateRatings] removes no row and changes no key column; the
    peak rating of a row never goes down, and its games played go up by at
    most one. *)
Theorem updateRatings_keeps_rows p1 p2 g result now tbl k r :
  tbl !! k = Some r ->
  exists r', (updateRatings p1 p2 g result now tbl).2 !! k = Some r' /\
    Rating.playerId r' = Rating.playerId r /\
    Rating.gameMode r' = Rating.gameMode r /\
    Rating.peakRating r <= Rating.peakRating r' /\
    (Rating.gamesPlayed r <= Rating.gamesPlayed r' <= Rating.gamesPlayed r + 1)%Z.
Proof.
  intros Hk. rewrite updateRatings_unfold. simpl.
  set (t1 := (getOrCreatePlayerRating p1 g now tbl).2).
  set (t2 := (getOrCreatePlayerRating p2 g now t1).2).
  assert (t1 !! k = Some r) as Hk1.
  { unfold t1. destruct (decide (k = (p1, g))) as [-> | Hne].
    - by rewrite (getOrCreate_existing _ _ _ _ _ Hk).
    - by rewrite getOrCreate_lookup_ne. }
  assert (t2 !! k = Some r) as Hk2.
  { unfold t2. destruct (decide (k = (p2, g))) as [-> | Hne].
    - by rewrite (getOrCreate_existing _ _ _ _ _ Hk1).
    - by rewrite getOrCreate_lookup_ne. }
  assert (k = (p1, g) -> read1 p1 g now tbl = r) as Hr1.
  { intros ->. unfold read1. by rewrite (getOrCreate_existing _ _ _ _ _ Hk). }
  assert (k = (p2, g) -> read2 p1 p2 g now tbl = r) as Hr2.
  { intros ->. by apply read2_lookup. }
  destruct (decide (k = (p2, g))) as [H2 | H2].
  - rewrite H2, lookup_alter_eq. rewrite <- H2.
    rewrite (Hr2 H2).
    destruct (decide (k = (p1, g))) as [H1 | H1].
    + rewrite H1, lookup_alter_eq. rewrite <- H1, Hk2. simpl.
      eexists. split; [reflexivity|]. simpl.
      repeat split; try done; try lia. apply Rmax_l.
    + rewrite lookup_alter_ne by congruence. rewrite Hk2. simpl.
      eexists. split; [reflexivity|]. simpl.
      repeat split; try done; try lia. apply Rmax_l.
  - rewrite lookup_alter_ne by congruence.
    destruct (decide (k = (p1, g))) as [H1 | H1].
    + rewrite H1, lookup_alter_eq. rewrite <- H1, Hk2, (Hr1 H1). simpl.
      eexists. split; [reflexivity|]. simpl.
      repeat split; try done; try lia. apply Rmax_l.
    + rewrite lookup_alter_ne by congruence. rewrite Hk2.
      exists r. repeat split; try done; try lia.
Qed.

Lemma updateRatings_keeps_rows_witness :
  exists r',
    (updateRatings "a" "b" "standard" 0 7 ratings_ab).2 !! ("a", "standard")
    = Some r' /\ 1150 <= Rating.peakRating r'.
Proof.
  destruct (updateRatings_keeps_rows "a" "b" "standard" 0 7 ratings_ab
              ("a", "standard")
              (Rating.mk "a" "standard" 1100 12 7 4 1 (Some 5%Z) 1150))
    as (r' & Hl & _ & _ & Hp & _); [by vm_compute|].
  exists r'. split; [exact Hl | exact Hp].
Defined.






Lemma orderBy_asc_num_sorted {A} (key : A -> R) (l : list A) :
  StronglySorted (fun a b => key a <= key b) (orderBy (asc_num key) l).
Proof.
  eapply StronglySorted_weaken; [|apply (orderBy_sorted (asc_num key))].
  - intros a b H. by apply bool_decide_eq_true_1 in H.
  - intros x y H. apply bool_decide_eq_false_1 in H.
    apply bool_decide_eq_true_2. lra.
  - intros x y z H1 H2. apply bool_decide_eq_true_1 in H1, H2.
    apply bool_decide_eq_true_2. lra.
Qed.

Lemma orderBy_desc_num_sorted {A} (key : A -> R) (l : list A) :
  StronglySorted (fun a b => key b <= key a) (orderBy (desc_num key) l).
Proof.
  eapply StronglySorted_weaken; [|apply (orderBy_sorted (desc_num key))].
  - intros a b H. by apply bool_decide_eq_true_1 in H.
  - intros x y H. apply bool_decide_eq_false_1 in H.
    apply bool_decide_eq_true_2. lra.
  - intros x y z H1 H2. apply bool_decide_eq_true_1 in H1, H2.
    apply bool_decide_eq_true_2. lra.
Qed.

Lemma elem_of_rows tbl r : r ∈ rows tbl <-> exists k, tbl !! k = Some r.
Proof.
  unfold rows. rewrite list_elem_of_fmap. split.
  - intros ([k x] & -> & H). exists k. by apply elem_of_map_to_list.
  - intros [k H]. exists (k, r). split; [done|]. by apply elem_of_map_to_list.
Qed.

(** X24: [getLeaderboard] of the elo service lists rows of the table in the
    game mode, as many as there are up to the limit, the lowest rating
    first; a row of the mode it leaves out is rated at least as high as
    every row it lists. *)
Theorem getLeaderboard_lowest_first (gameMode : string) (limit : nat) tbl :
  let board := getLeaderboard gameMode limit tbl in
  length board
  = (limit `min` length (filter (fun r => Rating.gameMode r = gameMode) (rows tbl)))%nat /\
  StronglySorted (fun r1 r2 => Rating.rating r1 <= Rating.rating r2) board /\
  (forall r, r ∈ board ->
     Rating.gameMode r = gameMode /\ exists k, tbl !! k = Some r) /\
  (forall r r' k, r ∈ board -> tbl !! k = Some r' ->
     Rating.gameMode r' = gameMode -> r' ∉ board ->
     Rating.rating r <= Rating.rating r').
Proof.
  simpl. unfold getLeaderboard, Store.limit, where_.
  set (l := filter (fun r => Rating.gameMode r = gameMode) (rows tbl)).
  set (sorted := orderBy (asc_num Rating.rating) l).
  assert (Hp : sorted ≡ₚ l) by apply orderBy_perm.
  assert (Hs : StronglySorted
                 (fun r1 r2 => Rating.rating r1 <= Rating.rating r2) sorted)
    by apply orderBy_asc_num_sorted.
  rewrite <- (take_drop limit sorted) in Hs.
  split; [|split; [|split]].
  - rewrite length_take. by rewrite Hp.
  - by apply StronglySorted_app_1_l in Hs.
  - intros r Hr. apply elem_of_take in Hr as (i & Hr & _).
    apply list_elem_of_lookup_2 in Hr. rewrite Hp in Hr.
    apply list_elem_of_filter in Hr as [Hg Hr].
    split; [done|]. by apply elem_of_rows.
  - intros r r' k Hr Hk Hg Hout.
    eapply (StronglySorted_app_1_elem_of _ _ _ r r' Hs); [done|].
    assert (r' ∈ sorted) as Hin.
    { rewrite Hp. apply list_elem_of_filter. split; [done|].
      apply elem_of_rows. by exists k. }
    rewrite <- (take_drop limit sorted) in Hin.
    apply elem_of_app in Hin as [Hin | Hin]; [contradiction | done].
Qed.

End EloMore.

(** ** LeaderboardService: a refresh and the reads that follow *)

Module LeaderboardMore.
Import Leaderboard LeaderboardWorlds LeaderboardFacts.

Implicit Types (env : Env) (w : World) (queue_id user_id : string).

Lemma backup_response_stale (backup : option MetaValue) :
  isStale (backup_response backup) = true.
Proof. by destruct backup. Qed.

(** A refresh that answers with [isStale: false] has run to its end: what
    it returns and what it has written. *)
Lemma refreshLeaderboard_fresh env queue_id w r w' :
  refreshLeaderboard env queue_id w = (Ok r, w') ->
  isStale r = false ->
  let fresh := neatqueue env queue_id in
  r = mkResponse fresh false /\
  metadata w !! getSnapshotKey queue_id (replace_colon_dot (clock env)) = None /\
  raw w' = <[getRawKey queue_id := (180%Z, fresh)]> (raw w) /\
  user w' = user (pipeline queue_id fresh w) /\
  leaderboardSnapshots w'
  = leaderboardSnapshots w ++ [mkSnapshot queue_id (clock env) fresh] /\
  metadata w'
  = <[getBackupKey queue_id := mkMeta fresh (clock env) None]>
      (<[getSnapshotKey queue_id (replace_colon_dot (clock env))
         := mkMeta fresh (clock env) (Some queue_id)]> (metadata w)).
Proof.
  intros H Hs. unfold refreshLeaderboard, try_catch in H.
  destruct (pipeline_fields queue_id (neatqueue env queue_id) w)
    as (Hraw & Hmeta & Hsnap).
  match type of H with (match ?b w with _ => _ end) = _ =>
    destruct (b w) as [[a|] w1] eqn:Hb end.
  2:{ exfalso. unfold bind, call, gets, ret, throw in H.
      destruct (throws env select_backup_in_refresh); [done|].
      injection H as <- _. by rewrite backup_response_stale in Hs. }
  injection H as -> ->.
  unfold bind, call, gets, modify, ret, throw, insert_metadata in Hb.
  destruct (throws env neatqueue_get_leaderboard); [done|].
  destruct (throws env pipeline_exec); [done|].
  destruct (throws env insert_leaderboardSnapshots); [done|].
  destruct (throws env insert_metadata_snapshot); [done|].
  unfold set_leaderboardSnapshots, set_metadata in Hb.
  cbn [metadata raw user leaderboardSnapshots] in Hb. rewrite Hmeta in Hb.
  destruct (metadata w !! getSnapshotKey queue_id (replace_colon_dot (clock env)))
    eqn:Hfree; [done|].
  destruct (throws env upsert_metadata_backup); [done|].
  injection Hb as <- <-. cbn [metadata raw user leaderboardSnapshots].
  rewrite Hraw, Hsnap. done.
Qed.

(** X25: after a refresh that answered with [isStale: false], and for the
    180 seconds that the cached ranking lives, [getLeaderboard] gives the
    same answer from the cache and changes nothing, whatever else is down.
    From then on the ranking is gone from the cache; if the source fails
    then, the same data comes from the backup record, flagged stale, as it
    does at any time at which the cache cannot be read. *)
Theorem getLeaderboard_after_refresh env env' queue_id w r w' (seconds : Z) :
  refreshLeaderboard env queue_id w = (Ok r, w') ->
  isStale r = false ->
  let later := elapse seconds w' in
  (throws env' redis_get = false -> (seconds < 180)%Z ->
   getLeaderboard env' queue_id later = (Ok r, later)) /\
  ((180 <= seconds)%Z -> raw later !! getRawKey queue_id = None) /\
  (throws env' redis_get = false -> (180 <= seconds)%Z ->
   throws env' neatqueue_get_leaderboard = true ->
   throws env' select_backup_in_refresh = false ->
   getLeaderboard env' queue_id later
   = (Ok (mkResponse (data r) true), later)) /\
  (throws env' redis_get = true -> throws env' select_backup = false ->
   getLeaderboard env' queue_id later
   = (Ok (mkResponse (data r) true), later)).
Proof.
  intros H Hs later.
  destruct (refreshLeaderboard_fresh env queue_id w r w' H Hs)
    as (-> & _ & Hraw & _ & _ & Hmeta).
  assert (Hcache : raw later !! getRawKey queue_id
                   = if decide (seconds < 180)%Z
                     then Some ((180 - seconds)%Z, neatqueue env queue_id)
                     else None).
  { unfold later, elapse. simpl. rewrite lookup_omap, Hraw, lookup_insert_eq.
    done. }
  assert (Hbackup : metadata later !! getBackupKey queue_id
                    = Some (mkMeta (neatqueue env queue_id) (clock env) None)).
  { unfold later, elapse. simpl. rewrite Hmeta. apply lookup_insert_eq. }
  split; [|split; [|split]].
  - intros Hget Hlt. rewrite decide_True in Hcache by done.
    by apply (getLeaderboard_hit _ _ _ _ _ Hget Hcache).
  - intros Hge. rewrite decide_False in Hcache by lia. done.
  - intros Hget Hge Hdown Hsel. rewrite decide_False in Hcache by lia.
    rewrite (getLeaderboard_miss _ _ _ Hget Hcache). unfold try_catch.
    rewrite (refreshLeaderboard_source_down _ _ _ Hdown), Hsel, Hbackup. done.
  - intros Hget Hsel.
    rewrite (getLeaderboard_cache_down _ _ _ Hget Hsel), Hbackup. done.
Qed.

Lemma getLeaderboard_after_refresh_witness :
  exists w',
    refreshLeaderboard env_up "q" world_empty
    = (Ok (mkResponse [entry_u] false), w') /\
    getLeaderboard env_source_down "q" (elapse 60 w')
    = (Ok (mkResponse [entry_u] false), elapse 60 w') /\
    getLeaderboard env_source_down "q" (elapse 200 w')
    = (Ok (mkResponse [entry_u] true), elapse 200 w').
Proof.
  destruct (refreshLeaderboard env_up "q" world_empty) as [[r|] w'] eqn:E;
    [|vm_compute in E; discriminate E].
  assert (r = mkResponse [entry_u] false) as ->.
  { vm_compute in E. by injection E as <- _. }
  exists w'. split; [done|]. split.
  - destruct (getLeaderboard_after_refresh env_up env_source_down "q"
                world_empty _ w' 60 E eq_refl) as (Hhit & _).
    apply Hhit; [reflexivity | lia].
  - destruct (getLeaderboard_after_refresh env_up env_source_down "q"
                world_empty _ w' 200 E eq_refl) as (_ & _ & Hmiss & _).
    apply Hmiss; [reflexivity | lia | reflexivity | reflexivity].
Defined.

Lemma getUserKey_inj user_id user_id' queue_id :
  getUserKey user_id queue_id = getUserKey user_id' queue_id -> user_id = user_id'.
Proof.
  unfold getUserKey. intros H.
  apply (inj (String.app "user:")) in H.
  by apply QueueSteps.string_app_inv_r in H.
Qed.

Lemma pipeline_entries_user queue_id (l : list Entry.t) w user_id :
  user (foldl (pipeline_entry queue_id) w l) !! getUserKey user_id queue_id
  = match last (filter (fun e => Entry.id e = user_id) l) with
    | Some e => Some (e, queue_id)
    | None => user w !! getUserKey user_id queue_id
    end.
Proof.
  induction l as [|x l IH] using rev_ind; [done|].
  rewrite foldl_app, filter_app. simpl.
  rewrite filter_cons, filter_nil. destruct (decide (Entry.id x = user_id)) as [<- | Hne].
  - rewrite last_snoc. apply lookup_insert_eq.
  - rewrite app_nil_r.
    rewrite lookup_insert_ne; [exact IH|].
    intros Hk. by apply getUserKey_inj in Hk.
Qed.

Lemma pipeline_user queue_id (fresh : list Entry.t) w user_id :
  user (pipeline queue_id fresh w) !! getUserKey user_id queue_id
  = match last (filter (fun e => Entry.id e = user_id) fresh) with
    | Some e => Some (e, queue_id)
    | None => user w !! getUserKey user_id queue_id
    end.
Proof. unfold pipeline. by rewrite pipeline_entries_user. Qed.

(** X26: after a refresh that answered with [isStale: false], [getUserRank]
    answers for a user the ranking lists from the hash of the user, not
    stale and changing nothing: with the last entry of the ranking that has
    the user's id. *)
Theorem getUserRank_after_refresh env env' queue_id user_id w r w' e :
  refreshLeaderboard env queue_id w = (Ok r, w') ->
  isStale r = false ->
  last (filter (fun entry => Entry.id entry = user_id) (data r)) = Some e ->
  throws env' redis_hgetall = false ->
  getUserRank env' queue_id user_id w'
  = (Ok (Some (mkUserRank (rank_entry e) false)), w').
Proof.
  intros H Hs He Hup.
  destruct (refreshLeaderboard_fresh env queue_id w r w' H Hs)
    as (-> & _ & _ & Huser & _).
  simpl in He. rewrite getUserRank_unfold, Hup, Huser.
  rewrite pipeline_user, He. done.
Qed.

Lemma getUserRank_after_refresh_witness :
  exists w',
    refreshLeaderboard env_up "q" world_empty
    = (Ok (mkResponse [entry_u] false), w') /\
    getUserRank env_source_down "q" "u" w'
    = (Ok (Some (mkUserRank (rank_entry entry_u) false)), w').
Proof.
  destruct (refreshLeaderboard env_up "q" world_empty) as [[r|] w'] eqn:E;
    [|vm_compute in E; discriminate E].
  assert (r = mkResponse [entry_u] false) as ->.
  { vm_compute in E. by injection E as <- _. }
  exists w'. split; [done|].
  apply (getUserRank_after_refresh env_up env_source_down "q" "u" world_empty
           _ w' entry_u E eq_refl); [|done].
  by vm_compute.
Defined.

(** X27: the hash of a user is never removed: a user the refreshed ranking
    no longer lists is still answered from the hash written by an earlier
    refresh, as not stale. *)
Theorem getUserRank_of_dropped_user env env' queue_id user_id w r w' e0 q0 :
  refreshLeaderboard env queue_id w = (Ok r, w') ->
  isStale r = false ->
  Forall (fun entry => Entry.id entry <> user_id) (data r) ->
  user w !! getUserKey user_id queue_id = Some (e0, q0) ->
  throws env' redis_hgetall = false ->
  getUserRank env' queue_id user_id w'
  = (Ok (Some (mkUserRank (rank_entry e0) false)), w').
Proof.
  intros H Hs Hnot H0 Hup.
  destruct (refreshLeaderboard_fresh env queue_id w r w' H Hs)
    as (-> & _ & _ & Huser & _).
  simpl in Hnot. rewrite getUserRank_unfold, Hup, Huser.
  rewrite pipeline_user, QueueSteps.filter_none by done. simpl.
  rewrite H0. done.
Qed.

Lemma getUserRank_of_dropped_user_witness :
  exists w',
    refreshLeaderboard env_up "q" world_old_hash
    = (Ok (mkResponse [entry_u] false), w') /\
    getUserRank env_up "q" "v" w'
    = (Ok (Some (mkUserRank (rank_entry entry_v) false)), w').
Proof.
  destruct (refreshLeaderboard env_up "q" world_old_hash) as [[r|] w'] eqn:E;
    [|vm_compute in E; discriminate E].
  assert (r = mkResponse [entry_u] false) as ->.
  { vm_compute in E. by injection E as <- _. }
  exists w'. split; [done|].
  apply (getUserRank_of_dropped_user env_up env_up "q" "v" world_old_hash
           _ w' entry_v "q" E eq_refl); [|by vm_compute|done].
  repeat constructor. discriminate.
Defined.

(** X28: a second refresh at the instant of a refresh that answered with
    [isStale: false] finds the snapshot key taken: with nothing else
    failing it overwrites the cache and adds a second snapshot row, and
    then answers with the data of the first refresh from the backup
    record, flagged stale. *)
Theorem refreshLeaderboard_same_instant env env' queue_id w r w' :
  refreshLeaderboard env queue_id w = (Ok r, w') ->
  isStale r = false ->
  clock env' = clock env ->
  (forall c, throws env' c = false) ->
  exists w'',
    refreshLeaderboard env' queue_id w' = (Ok (mkResponse (data r) true), w'') /\
    raw w'' !! getRawKey queue_id = Some (180%Z, neatqueue env' queue_id) /\
    leaderboardSnapshots w''
    = leaderboardSnapshots w
      ++ [mkSnapshot queue_id (clock env) (neatqueue env queue_id);
          mkSnapshot queue_id (clock env) (neatqueue env' queue_id)] /\
    metadata w'' = metadata w'.
Proof.
  intros H Hs Hclock Hup.
  destruct (refreshLeaderboard_fresh env queue_id w r w' H Hs)
    as (-> & _ & _ & _ & Hsnap & Hmeta).
  destruct (pipeline_fields queue_id (neatqueue env' queue_id) w')
    as (Hraw' & Hmeta' & Hsnap').
  assert (Hkey : getBackupKey queue_id
                 <> getSnapshotKey queue_id (replace_colon_dot (clock env))).
  { unfold getBackupKey, getSnapshotKey. intros Hk.
    apply (f_equal (fun s => String.get 0 s)) in Hk. discriminate Hk. }
  unfold refreshLeaderboard. run. rewrite !Hup. unfold insert_metadata.
  simpl. rewrite Hmeta', Hclock, Hmeta.
  rewrite lookup_insert_ne by done. rewrite lookup_insert_eq.
  simpl. rewrite Hmeta', Hmeta, lookup_insert_eq. simpl.
  eexists. split; [reflexivity|]. simpl.
  rewrite Hraw', Hsnap', Hsnap, Hmeta', Hmeta, lookup_insert_eq, <- app_assoc.
  done.
Qed.

Lemma refreshLeaderboard_same_instant_witness :
  exists w' w'',
    refreshLeaderboard env_up "q" world_empty
    = (Ok (mkResponse [entry_u] false), w') /\
    refreshLeaderboard env_up "q" w' = (Ok (mkResponse [entry_u] true), w'').
Proof.
  destruct (refreshLeaderboard env_up "q" world_empty) as [[r|] w'] eqn:E;
    [|vm_compute in E; discriminate E].
  assert (r = mkResponse [entry_u] false) as ->.
  { vm_compute in E. by injection E as <- _. }
  destruct (refreshLeaderboard_same_instant env_up env_up "q" world_empty
              _ w' E eq_refl eq_refl) as (w'' & H & _); [done|].
  exists w', w''. split; [done | exact H].
Defined.

End LeaderboardMore.

(** ** LeaderboardService: the leaderboard of season 2 *)

Module SeasonFacts.
Import Leaderboard Store EloQueries Seasons StoreFacts EloMore.

Implicit Types (file : option (list Alltime.t)) (cache : Cache).
Implicit Types (queue_id user_id : string) (e : Entry.t).

Lemma getSeason2Leaderboard_unfold file queue_id cache :
  getSeason2Leaderboard file queue_id cache
  = (imap (fun idx entry => set_rank (Z.of_nat idx + 1) entry)
       (orderBy (desc_num Entry.mmr) (loadSeason2Data file queue_id cache).1),
     (loadSeason2Data file queue_id cache).2).
Proof.
  unfold getSeason2Leaderboard.
  by destruct (loadSeason2Data file queue_id cache).
Qed.

Lemma imap_set_rank_erase (f : nat -> Z) (l : list Entry.t) :
  set_rank 0 <$> imap (fun idx entry => set_rank (f idx) entry) l
  = set_rank 0 <$> l.
Proof.
  revert f. induction l as [|x l IH]; intros f; [done|].
  simpl. f_equal. apply (IH (f ∘ S)).
Qed.

Lemma imap_set_rank_sorted (f : nat -> Z) (l : list Entry.t) :
  StronglySorted (fun e1 e2 => Entry.mmr e2 <= Entry.mmr e1) l ->
  StronglySorted (fun e1 e2 => Entry.mmr e2 <= Entry.mmr e1)
    (imap (fun idx entry => set_rank (f idx) entry) l).
Proof.
  intros Hs. revert f.
  induction Hs as [|x l Hs IH Hx]; intros f; simpl; constructor.
  - apply (IH (f ∘ S)).
  - apply Forall_forall. intros y Hy.
    apply list_elem_of_lookup_1 in Hy as [i Hy].
    rewrite list_lookup_imap in Hy.
    destruct (l !! i) as [y0|] eqn:E; simpl in Hy; [|done].
    injection Hy as <-. simpl.
    rewrite Forall_forall in Hx. apply Hx.
    by apply list_elem_of_lookup_2 in E.
Qed.

(** X29: the season 2 leaderboard holds the loaded entries, with nothing
    but the ranks changed, by mmr descending; the rank of an entry is its
    position in the list, counted from 1. *)
Theorem getSeason2Leaderboard_ranked file queue_id cache :
  let entries := (loadSeason2Data file queue_id cache).1 in
  let board := (getSeason2Leaderboard file queue_id cache).1 in
  set_rank 0 <$> board ≡ₚ set_rank 0 <$> entries /\
  StronglySorted (fun e1 e2 => Entry.mmr e2 <= Entry.mmr e1) board /\
  (forall i e, board !! i = Some e -> Entry.rank e = (Z.of_nat i + 1)%Z) /\
  (getSeason2Leaderboard file queue_id cache).2
  = (loadSeason2Data file queue_id cache).2.
Proof.
  simpl. rewrite getSeason2Leaderboard_unfold. simpl.
  set (entries := (loadSeason2Data file queue_id cache).1).
  split; [|split; [|split]]; [| | |done].
  - rewrite imap_set_rank_erase. apply fmap_Permutation, orderBy_perm.
  - apply (imap_set_rank_sorted (fun idx => (Z.of_nat idx + 1)%Z)).
    apply orderBy_desc_num_sorted.
  - intros i e Hi. rewrite list_lookup_imap in Hi.
    destruct (orderBy _ _ !! i); simpl in Hi; [|done]. by injection Hi as <-.
Qed.

(** X30: the season 2 entry returned for a user is an entry of that user
    from the loaded data with its rank recalculated; the rank is above the
    number of entries with a higher mmr and at most the number of entries
    with at least that mmr.  Null is returned exactly when the loaded data
    has no entry of the user. *)
Theorem getSeason2UserRank_position file queue_id user_id cache :
  let entries := (loadSeason2Data file queue_id cache).1 in
  match (getSeason2UserRank file queue_id user_id cache).1 with
  | Some e =>
      Entry.id e = user_id /\
      (exists e0, e0 ∈ entries /\ e = set_rank (Entry.rank e) e0) /\
      (Z.of_nat (length (filter (fun x => (Entry.mmr e < Entry.mmr x)%R) entries))
       < Entry.rank e
       <= Z.of_nat (length (filter (fun x => (Entry.mmr e <= Entry.mmr x)%R) entries)))%Z
  | None => Forall (fun x => Entry.id x <> user_id) entries
  end.
Proof.
  simpl. unfold getSeason2UserRank. rewrite getSeason2Leaderboard_unfold.
  set (entries := (loadSeason2Data file queue_id cache).1). simpl.
  pose proof (orderBy_desc_num_sorted Entry.mmr entries) as Hs.
  pose proof (orderBy_perm (desc_num Entry.mmr) entries) as Hp.
  set (sorted := orderBy (desc_num Entry.mmr) entries) in *.
  set (board := imap (fun idx entry => set_rank (Z.of_nat idx + 1) entry) sorted).
  unfold find_user.
  destruct (head (filter (fun entry => Entry.id entry = user_id) board))
    as [e|] eqn:Hh.
  - apply head_Some in Hh as [rest Hh].
    assert (He : e ∈ filter (fun entry => Entry.id entry = user_id) board)
      by (rewrite Hh; left).
    apply list_elem_of_filter in He as [Hid He].
    apply list_elem_of_lookup_1 in He as [i Hi].
    unfold board in Hi. rewrite list_lookup_imap in Hi.
    destruct (sorted !! i) as [s|] eqn:Es; simpl in Hi; [|done].
    injection Hi as <-. simpl in *.
    split; [done|]. split.
    { exists s. split; [|done]. rewrite <- Hp. by apply list_elem_of_lookup_2 in Es. }
    rewrite <- !Hp.
    pose proof (lookup_lt_Some _ _ _ Es) as Hlt.
    rewrite <- (take_drop_middle sorted i s Es) in Hs |- *.
    apply StronglySorted_app in Hs as (Hbefore & _ & Hs).
    apply StronglySorted_inv in Hs as [_ Hafter].
    rewrite !filter_app, !filter_cons, !length_app.
    rewrite decide_False by lra. rewrite decide_True by lra.
    rewrite (QueueSteps.filter_none _ (drop (S i) sorted)).
    2:{ eapply Forall_impl; [exact Hafter|]. simpl. intros x Hx. lra. }
    rewrite (QueueSteps.filter_all (fun x => Entry.mmr s <= Entry.mmr x)
               (take i sorted)).
    2:{ apply Forall_forall. intros x Hx. apply (Hbefore x s Hx). left. }
    pose proof (length_filter (fun x => Entry.mmr s < Entry.mmr x)
                  (take i sorted)) as Hle.
    rewrite length_take in Hle |- *. simpl. lia.
  - apply head_None in Hh. apply Forall_forall. intros x Hx Hid.
    rewrite <- Hp in Hx. apply list_elem_of_lookup_1 in Hx as [i Hi].
    assert (set_rank (Z.of_nat i + 1) x
            ∈ filter (fun entry => Entry.id entry = user_id) board) as Hin.
    { apply list_elem_of_filter. split; [done|].
      apply (list_elem_of_lookup_2 _ i). unfold board.
      rewrite list_lookup_imap, Hi. done. }
    rewrite Hh in Hin. by apply elem_of_nil in Hin.
Qed.

End SeasonFacts.
